(** * Next-page resolution over a navigation tree

    A shallow embedding of [findNexts], [findNextsHelper] and [getNexts]
    from [next_page_resolver.js], together with the identifier formatting
    done by the command-line wrapper of the same file.

    Modelling conventions.
    - A JavaScript value is a term of [value].  Only the shapes that a
      YAML document can load to and that the resolver distinguishes are
      kept: [undefined] (the result of reading an absent property),
      [null], booleans, integers, strings, arrays and plain objects.
    - A plain object is the list of its own enumerable entries in the
      order [Object.entries] lists them (insertion order, integer-like
      keys first).  [prop] reads an own property and yields [undefined]
      for an absent key.  Where the resolver reads [xs[path[0]]] with a
      name taken from its input, a name that is not an own property is
      looked up in [Object.prototype], which every object of a loaded
      document inherits from: [inherited] below.  Non-integer numbers
      and the dates a YAML document can hold are outside the model.
    - A [throw] is the outcome [Throw]; the two messages the file can
      raise are the two constructors of [error].
    - The three-way result of the helpers ([false], [true], or an array
      of paths) is the type [found]. *)

From Stdlib Require Import List String Ascii ZArith Bool Arith Lia.
From Stdlib Require Import DecimalString.
Import ListNotations.
Local Open Scope string_scope.
Local Open Scope list_scope.

(** ** JavaScript values *)

#[local] Unset Elimination Schemes.
Inductive value : Type :=
| VUndefined
| VNull
| VBool (b : bool)
| VNum (n : Z)
| VStr (s : string)
| VArr (items : list value)
| VObj (entries : list (string * value)).
#[local] Set Elimination Schemes.

(** [!xs] is [negb (truthy xs)]. *)
Definition truthy (xs : value) : bool :=
  match xs with
  | VUndefined | VNull => false
  | VBool b => b
  | VNum n => negb (n =? 0)%Z
  | VStr s => negb (s =? "")
  | VArr _ | VObj _ => true
  end.

(** The own property [k] of a plain object, [undefined] when it has
    none. *)
Fixpoint prop (entries : list (string * value)) (k : string) : value :=
  match entries with
  | [] => VUndefined
  | (k', v) :: rest => if k' =? k then v else prop rest k
  end.

(** [Object.prototype.hasOwnProperty.call(xs, k)] *)
Fixpoint has_own (entries : list (string * value)) (k : string) : bool :=
  match entries with
  | [] => false
  | (k', _) :: rest => if k' =? k then true else has_own rest k
  end.

(** The function-valued properties of [Object.prototype]; its only other
    property is the accessor [__proto__]. *)
Definition object_prototype_methods : list string :=
  ["constructor"; "__defineGetter__"; "__defineSetter__"; "hasOwnProperty";
   "__lookupGetter__"; "__lookupSetter__"; "isPrototypeOf";
   "propertyIsEnumerable"; "toString"; "valueOf"; "toLocaleString"].

Definition is_method (k : string) : bool :=
  existsb (String.eqb k) object_prototype_methods.

(** ** Outcomes *)

Inductive error : Type :=
| FindNextsUnhandledState
| GetNextsUnhandledState
| InvalidArgType
| CouldNotFindNextPage.

Inductive outcome (A : Type) : Type :=
| Return (a : A)
| Throw (e : error).
Arguments Return {A} a.
Arguments Throw {A} e.

Definition bind {A B : Type} (m : outcome A) (k : A -> outcome B) : outcome B :=
  match m with
  | Return a => k a
  | Throw e => Throw e
  end.

Notation "x <- m ;; k" := (bind m (fun x => k))
  (at level 61, m at next level, right associativity).

Definition path := list string.

(** What [getNexts] and [findNextsHelper] hand back: the booleans
    [false] and [true], or an array of resolved paths. *)
Inductive found : Type :=
| RFalse
| RTrue
| RArr (nexts : list path).

(** The elements an array-or-boolean contributes to
    [flatMap(...).filter(Array.isArray)]: an array is spliced in, and each
    of its elements is itself an array, so it survives the filter; a
    boolean is kept by [flatMap] and then dropped by the filter. *)
Definition spliced (r : found) : list path :=
  match r with
  | RArr nexts => nexts
  | RFalse | RTrue => []
  end.

(** [nexts.length > 0 ? nexts : true] *)
Definition or_true (nexts : list path) : found :=
  match nexts with
  | [] => RTrue
  | _ :: _ => RArr nexts
  end.

(** ** The resolver *)

(** The [flatMap] over [Object.entries(xs)] is the local [flatMap];
    [getNexts_obj] below restates it through [fanOut]. *)
Fixpoint getNexts (xs : value) (directions : path) : outcome found :=
  match xs with
  | VStr s => Return (RArr [directions ++ [s]])
  | VArr items =>
      match items with
      | [] => Return RTrue
      | x0 :: _ => getNexts x0 directions
      end
  | VObj entries =>
      nexts <- (fix flatMap (es : list (string * value)) : outcome (list path) :=
                  match es with
                  | [] => Return []
                  | (k, v) :: rest =>
                      r <- getNexts v (directions ++ [k]) ;;
                      more <- flatMap rest ;;
                      Return (spliced r ++ more)
                  end) entries ;;
      Return (or_true nexts)
  | VUndefined | VNull | VBool _ | VNum _ => Throw GetNextsUnhandledState
  end.

(** [findNextsHelper(xs[path[0]], path.slice(1), ...)] when [path[0]] is
    not an own property of the object [xs], so that [xs[path[0]]] is read
    from [Object.prototype]; [rest] is [path.slice(1)].
    - A method: a function is truthy and is neither an array, a string
      nor an object, so the call ends in one of the two [throw]s.
    - [__proto__]: the value is [Object.prototype], an object.  With one
      component left the call returns [false].  With more, it calls
      itself on [Object.prototype[rest[0]]]: a method throws as above,
      [__proto__] is [null] there and any other name [undefined], and
      on both the call returns [false].
    - Any other name: [undefined], and the call returns [false]. *)
Definition inherited (key : string) (rest : path) : outcome found :=
  if is_method key then Throw FindNextsUnhandledState
  else if key =? "__proto__" then
    match rest with
    | q0 :: _ :: _ =>
        if is_method q0 then Throw FindNextsUnhandledState else Return RFalse
    | _ => Return RFalse
    end
  else Return RFalse.

(** A path on which the search reaches no method of [Object.prototype]:
    no component before the last names one. *)
Fixpoint plain_path (p : path) : bool :=
  match p with
  | [] => true
  | k :: rest =>
      match rest with
      | [] => true
      | _ :: _ => negb (is_method k) && plain_path rest
      end
  end.

(** The [for (const x of xs)] loop is the local [loop], whose second
    argument is the variable [found]; the call on [xs[path[0]]] is the
    local [at_key], which walks the own entries up to the key and, when
    the key is not among them, gives what the inherited property leads
    to.  [findNextsHelper_arr] and [findNextsHelper_obj] below restate
    both cases through [scan], [has_own] and [prop]. *)
Fixpoint findNextsHelper (xs : value) (p directions : path) : outcome found :=
  if negb (truthy xs) then Return RFalse
  else
    match p with
    | [] => Return RFalse
    | p0 :: p' =>
        match xs with
        | VArr items =>
            (fix loop (l : list value) (fnd : found) : outcome found :=
               match l with
               | [] => Return fnd
               | x :: rest =>
                   match fnd with
                   | RArr _ => Return fnd
                   | RTrue => f <- getNexts x directions ;; loop rest f
                   | RFalse => f <- findNextsHelper x p directions ;; loop rest f
                   end
               end) items RFalse
        | VStr s =>
            match p' with
            | [] => Return (if s =? p0 then RTrue else RFalse)
            | _ :: _ => Return RFalse
            end
        | VObj entries =>
            match p' with
            | [] => Return RFalse
            | _ :: _ =>
                (fix at_key (es : list (string * value)) : outcome found :=
                   match es with
                   | [] => inherited p0 p'
                   | (k, v) :: rest =>
                       if k =? p0 then findNextsHelper v p' (directions ++ [p0])
                       else at_key rest
                   end) entries
            end
        | VUndefined | VNull | VBool _ | VNum _ => Throw FindNextsUnhandledState
        end
    end.

Definition findNexts (xs : value) (p : path) : outcome (list path) :=
  nexts <- match p with
           | [] => getNexts xs []
           | _ :: _ => findNextsHelper xs p []
           end ;;
  Return (spliced nexts).

(** The body of the [for (const x of xs)] loop of [findNextsHelper], with
    the loop variable [found] as an argument. *)
Fixpoint scan (l : list value) (fnd : found) (p directions : path)
  : outcome found :=
  match l with
  | [] => Return fnd
  | x :: rest =>
      match fnd with
      | RArr _ => Return fnd
      | RTrue => f <- getNexts x directions ;; scan rest f p directions
      | RFalse => f <- findNextsHelper x p directions ;; scan rest f p directions
      end
  end.

(** [Object.entries(xs).flatMap(([k,v]) => getNexts(v, [...directions, k]))
    .filter(Array.isArray)] *)
Fixpoint fanOut (es : list (string * value)) (directions : path)
  : outcome (list path) :=
  match es with
  | [] => Return []
  | (k, v) :: rest =>
      r <- getNexts v (directions ++ [k]) ;;
      more <- fanOut rest directions ;;
      Return (spliced r ++ more)
  end.

(** ** The trees of the unit tests *)

Definition dir (name : string) (items : list value) : value :=
  VObj [(name, VArr items)].

Definition basic : value :=
  VArr [VStr "config.js"; dir "src" [VStr "index.js"; VStr "utils.js"];
        VStr "readme.md"].

Definition multiDir : value :=
  VArr [VStr "a.js"; dir "shared" [VStr "x.js"]; VStr "b.js";
        dir "shared" [VStr "y.js"; VStr "z.js"]; VStr "c.js"].

Definition complex : value :=
  VArr [VStr "start.js";
        dir "lib" [dir "utils" [VStr "helper.js"; VStr "math.js"];
                   VStr "index.js"];
        dir "test" [VStr "spec.js"];
        VStr "end.js"].

Definition nested : value :=
  VArr [dir "deep" [dir "nested" [dir "very" [VStr "deep.js"]]];
        VStr "surface.js"].

Definition emptyDirs : value :=
  VArr [VStr "file1.js"; dir "empty" []; VStr "file2.js"].

Definition mixedComplex : value :=
  VArr [VStr "pre.js";
        dir "main" [VStr "first.js"; dir "sub" [VStr "nested.js"];
                    VStr "last.js"];
        dir "main" [VStr "duplicate.js"];
        VStr "post.js"].

Definition dirOnly : value :=
  VArr [dir "dir1" [dir "subdir" [VStr "file.js"]];
        dir "dir2" [VStr "other.js"]].

Definition tripleDir : value :=
  VArr [dir "same" [VStr "a.js"]; VStr "middle.js";
        dir "same" [VStr "b.js"; VStr "c.js"]; VStr "end.js";
        dir "same" [VStr "d.js"]].

Definition deepNest : value :=
  VArr [dir "a" [dir "b" [dir "c" [dir "d" [VStr "deep.js"]; VStr "mid.js"];
                          VStr "shallow.js"]];
        VStr "root.js"].

(** ** The navigation data model

    A node is a leaf (a string) or a group set (an object whose property
    values are sequences of nodes, under pairwise distinct track names);
    a navigation tree is a sequence of nodes. *)

Fixpoint uniqueb (ks : list string) : bool :=
  match ks with
  | [] => true
  | k :: rest => negb (existsb (String.eqb k) rest) && uniqueb rest
  end.

Fixpoint is_node (v : value) : bool :=
  match v with
  | VStr _ => true
  | VObj entries =>
      uniqueb (map fst entries) &&
      forallb (fun kv => match snd kv with
                         | VArr sub => forallb is_node sub
                         | _ => false
                         end) entries
  | _ => false
  end.

Definition is_sequence (items : list value) : bool := forallb is_node items.

Definition is_tree (v : value) : bool :=
  match v with
  | VArr items => is_sequence items
  | _ => false
  end.

(** Number of leaves below a value, and its nesting depth. *)
Fixpoint leaf_count (v : value) : nat :=
  match v with
  | VStr _ => 1
  | VArr items => list_sum (map leaf_count items)
  | VObj entries => list_sum (map (fun kv => leaf_count (snd kv)) entries)
  | _ => 0
  end.

Fixpoint depth (v : value) : nat :=
  match v with
  | VArr items => S (list_max (map depth items))
  | VObj entries => S (list_max (map (fun kv => depth (snd kv)) entries))
  | _ => 0
  end.

(** *** Positions of leaves

    [Here i] is element [i] of a sequence; [Inside i k q] enters track [k]
    of the group set that is element [i] and continues with [q] there. *)
Inductive pos : Type :=
| Here (i : nat)
| Inside (i : nat) (k : string) (q : pos).

Definition index (q : pos) : nat :=
  match q with
  | Here i | Inside i _ _ => i
  end.

(** The name of the leaf at a position, if the position denotes one. *)
Fixpoint leaf_at (items : list value) (q : pos) : option string :=
  match q with
  | Here i =>
      match nth_error items i with
      | Some (VStr s) => Some s
      | _ => None
      end
  | Inside i k q' =>
      match nth_error items i with
      | Some (VObj entries) =>
          match prop entries k with
          | VArr sub => leaf_at sub q'
          | _ => None
          end
      | _ => None
      end
  end.

(** The track names leading to a position, and the path that names the
    leaf found there. *)
Fixpoint breadcrumb (q : pos) : path :=
  match q with
  | Here _ => []
  | Inside _ k q' => k :: breadcrumb q'
  end.

Definition path_to (q : pos) (name : string) : path := breadcrumb q ++ [name].

(** The sequence that directly holds the leaf, with the leaf's index. *)
Fixpoint enclosing (items : list value) (q : pos) : option (list value * nat) :=
  match q with
  | Here i => Some (items, i)
  | Inside i k q' =>
      match nth_error items i with
      | Some (VObj entries) =>
          match prop entries k with
          | VArr sub => enclosing sub q'
          | _ => None
          end
      | _ => None
      end
  end.

(** Document order on positions that run through the same tracks. *)
Fixpoint before (q1 q2 : pos) : Prop :=
  match q1, q2 with
  | Inside i k1 q1', Inside j k2 q2' =>
      i < j \/ (i = j /\ k1 = k2 /\ before q1' q2')
  | _, _ => index q1 < index q2
  end.

(** [q] is the first leaf in document order that [p] names; a leaf whose
    name is the empty string is never named. *)
Definition first_match (items : list value) (q : pos) (p : path) : Prop :=
  exists name,
    leaf_at items q = Some name /\ name <> "" /\ path_to q name = p /\
    forall q' name',
      leaf_at items q' = Some name' -> path_to q' name' = p -> ~ before q' q.

(** The elements that come after a position, each with the breadcrumb of
    the sequence it sits in: first the rest of the innermost sequence,
    then the rest of each enclosing sequence, innermost first. *)
Fixpoint followers (items : list value) (q : pos) (directions : path)
  : list (path * value) :=
  match q with
  | Here i => map (pair directions) (skipn (S i) items)
  | Inside i k q' =>
      match nth_error items i with
      | Some (VObj entries) =>
          match prop entries k with
          | VArr sub => followers sub q' (directions ++ [k])
          | _ => []
          end
      | _ => []
      end ++ map (pair directions) (skipn (S i) items)
  end.

(** The first-descendant set of an element under a breadcrumb: the paths
    [getNexts] yields, none for a dead end. *)
Definition descendants (x : value) (directions : path) : list path :=
  match getNexts x directions with
  | Return r => spliced r
  | Throw _ => []
  end.

Definition dead_end (x : value) (directions : path) : Prop :=
  descendants x directions = [].

(** The first-descendant set of the first element of a list of candidates
    that is not a dead end. *)
Fixpoint first_live (l : list (path * value)) : list path :=
  match l with
  | [] => []
  | (d, x) :: rest =>
      match descendants x d with
      | [] => first_live rest
      | ps => ps
      end
  end.

(** The leftmost leaves reachable from a value: the leaf itself, what is
    leftmost under the first element of a sequence, and what is leftmost
    under any track of a group set. *)
Inductive leftmost : value -> path -> Prop :=
| leftmost_leaf s : leftmost (VStr s) [s]
| leftmost_head x rest p : leftmost x p -> leftmost (VArr (x :: rest)) p
| leftmost_track entries k v p :
    In (k, v) entries -> leftmost v p -> leftmost (VObj entries) (k :: p).

(** Removal of every track that has no children from every group set. *)
Fixpoint prune (v : value) : value :=
  match v with
  | VArr items => VArr (map prune items)
  | VObj entries =>
      VObj ((fix kept (es : list (string * value)) : list (string * value) :=
               match es with
               | [] => []
               | (k, VArr []) :: rest => kept rest
               | (k, sub) :: rest => (k, prune sub) :: kept rest
               end) entries)
  | _ => v
  end.

Fixpoint prune_entries (es : list (string * value)) : list (string * value) :=
  match es with
  | [] => []
  | (k, VArr []) :: rest => prune_entries rest
  | (k, sub) :: rest => (k, prune sub) :: prune_entries rest
  end.

(** ** Call depth

    The same three functions with a bound on the depth of the call stack:
    every call takes one unit of [fuel] for its frame and hands the rest
    to the calls it makes; [None] means the bound was exceeded. *)

Definition obind {A B : Type} (m : option (outcome A))
  (k : A -> option (outcome B)) : option (outcome B) :=
  match m with
  | None => None
  | Some (Throw e) => Some (Throw e)
  | Some (Return a) => k a
  end.

Fixpoint fanOut_with (get : value -> path -> option (outcome found))
  (es : list (string * value)) (directions : path)
  : option (outcome (list path)) :=
  match es with
  | [] => Some (Return [])
  | (k, v) :: rest =>
      obind (get v (directions ++ [k])) (fun r =>
      obind (fanOut_with get rest directions) (fun more =>
      Some (Return (spliced r ++ more))))
  end.

Fixpoint getNexts_fuel (fuel : nat) (xs : value) (directions : path)
  : option (outcome found) :=
  match fuel with
  | 0 => None
  | S fuel' =>
      match xs with
      | VStr s => Some (Return (RArr [directions ++ [s]]))
      | VArr [] => Some (Return RTrue)
      | VArr (x0 :: _) => getNexts_fuel fuel' x0 directions
      | VObj entries =>
          obind (fanOut_with (getNexts_fuel fuel') entries directions)
            (fun nexts => Some (Return (or_true nexts)))
      | VUndefined | VNull | VBool _ | VNum _ =>
          Some (Throw GetNextsUnhandledState)
      end
  end.

(** The frames of [inherited]: one for the call on the inherited value,
    and one more for the call that the call on [Object.prototype]
    makes. *)
Definition inherited_fuel (fuel : nat) (key : string) (rest : path)
  : option (outcome found) :=
  match fuel with
  | 0 => None
  | S fuel' =>
      if is_method key then Some (Throw FindNextsUnhandledState)
      else if key =? "__proto__" then
        match rest with
        | q0 :: _ :: _ =>
            match fuel' with
            | 0 => None
            | S _ =>
                if is_method q0 then Some (Throw FindNextsUnhandledState)
                else Some (Return RFalse)
            end
        | _ => Some (Return RFalse)
        end
      else Some (Return RFalse)
  end.

Fixpoint scan_with (find : value -> path -> path -> option (outcome found))
  (get : value -> path -> option (outcome found))
  (l : list value) (fnd : found) (p directions : path)
  : option (outcome found) :=
  match l with
  | [] => Some (Return fnd)
  | x :: rest =>
      match fnd with
      | RArr _ => Some (Return fnd)
      | RTrue =>
          obind (get x directions)
            (fun f => scan_with find get rest f p directions)
      | RFalse =>
          obind (find x p directions)
            (fun f => scan_with find get rest f p directions)
      end
  end.

Fixpoint findNextsHelper_fuel (fuel : nat) (xs : value) (p directions : path)
  : option (outcome found) :=
  match fuel with
  | 0 => None
  | S fuel' =>
      if negb (truthy xs) then Some (Return RFalse)
      else
        match p with
        | [] => Some (Return RFalse)
        | p0 :: p' =>
            match xs with
            | VArr items =>
                scan_with (findNextsHelper_fuel fuel') (getNexts_fuel fuel')
                  items RFalse p directions
            | VStr s =>
                match p' with
                | [] => Some (Return (if s =? p0 then RTrue else RFalse))
                | _ :: _ => Some (Return RFalse)
                end
            | VObj entries =>
                match p' with
                | [] => Some (Return RFalse)
                | _ :: _ =>
                    if has_own entries p0
                    then findNextsHelper_fuel fuel' (prop entries p0) p'
                           (directions ++ [p0])
                    else inherited_fuel fuel' p0 p'
                end
            | VUndefined | VNull | VBool _ | VNum _ =>
                Some (Throw FindNextsUnhandledState)
            end
        end
  end.

Definition findNexts_fuel (fuel : nat) (xs : value) (p : path)
  : option (outcome (list path)) :=
  match fuel with
  | 0 => None
  | S fuel' =>
      obind match p with
            | [] => getNexts_fuel fuel' xs []
            | _ :: _ => findNextsHelper_fuel fuel' xs p []
            end
        (fun nexts => Some (Return (spliced nexts)))
  end.

(** ** The output boundary

    The part of the command-line wrapper that turns the resolved paths
    into [[id, fp]] pairs.  [path.join] belongs to Node and is a
    parameter; [Array.prototype.join] is [String.concat]. *)

Record options : Type := {
  idPrefix : string;
  shared : string;
  urlPrefix : string
}.

(** [components.pop()]: the last element, or [undefined] on an empty
    array, and the array that is left. *)
Definition pop (components : path) : option string * path :=
  match rev components with
  | [] => (None, [])
  | file :: front => (Some file, rev front)
  end.

Section Formatter.

Variable path_join : list string -> string.
Variable opts : options.

(** The callback of [nexts.map].  [path.join] rejects an [undefined]
    argument with a [TypeError]. *)
Definition entry (components : path) : outcome (string * string) :=
  let (file, components) := pop components in
  let components :=
    match components with
    | [] => [shared opts]
    | _ :: _ => components
    end in
  let id := (idPrefix opts ++ "-" ++ String.concat "_" components)%string in
  match file with
  | Some file =>
      Return (id, path_join (urlPrefix opts :: components ++ [file]))
  | None => Throw InvalidArgType
  end.

Fixpoint entries_of (nexts : list path) : outcome (list (string * string)) :=
  match nexts with
  | [] => Return []
  | components :: rest =>
      e <- entry components ;;
      more <- entries_of rest ;;
      Return (e :: more)
  end.

(** The [if (nexts.length > 0) ... else throw] of the wrapper, up to the
    list handed to [Object.fromEntries]. *)
Definition format (nexts : list path) : outcome (list (string * string)) :=
  match nexts with
  | [] => Throw CouldNotFindNextPage
  | _ :: _ =>
      paths <- entries_of nexts ;;
      Return (match paths with
              | [(_, fp)] => [(idPrefix opts, fp)]
              | _ => paths
              end)
  end.

(** The identifiers of the output, in order. *)
Definition identifiers (nexts : list path) : list string :=
  match format nexts with
  | Return paths => map fst paths
  | Throw _ => []
  end.

End Formatter.

(** The breadcrumb the output boundary uses for a resolved path: the path
    without its last component, or the default track when that is empty. *)
Definition output_breadcrumb (opts : options) (resolved : path) : path :=
  match removelast resolved with
  | [] => [shared opts]
  | crumbs => crumbs
  end.

(** The followers that sit in the sequences enclosing the innermost one:
    what is left to try once the innermost sequence is exhausted. *)
Fixpoint enclosing_followers (items : list value) (q : pos) (directions : path)
  : list (path * value) :=
  match q with
  | Here _ => []
  | Inside i k q' =>
      match nth_error items i with
      | Some (VObj entries) =>
          match prop entries k with
          | VArr sub => enclosing_followers sub q' (directions ++ [k])
          | _ => []
          end
      | _ => []
      end ++ map (pair directions) (skipn (S i) items)
  end.

(** The identifier the output boundary gives a resolved path when several
    paths are returned. *)
Definition suffixed_id (opts : options) (resolved : path) : string :=
  (idPrefix opts ++ "-" ++ String.concat "_" (output_breadcrumb opts resolved))%string.

(** ** Further trees used below *)

Definition deadEndAfterGroup : list value :=
  [dir "g" [VStr "a"]; dir "e" []; VStr "b"].

Definition twoTracks : value :=
  VObj [("b", VArr [VStr "p"]); ("c", VArr [VStr "q"])].

Definition nestedFanOut : list value :=
  [VObj [("a", VArr [twoTracks])]].


Definition emptyTrackFirst : list value :=
  [VStr "x"; dir "g" [dir "e" []; VStr "a"]; VStr "b"].

Definition emptyTrackAbsent : list value :=
  [VStr "x"; dir "g" [VStr "a"]; VStr "b"].

Definition emptyNames : list value :=
  [VStr ""; VStr "b"; VStr ""; VStr "c"].

Definition repeatedGroup : list value :=
  [dir "g" [VStr "a"]; VStr "m"; dir "g" [VStr "a"; VStr "z"]].

Definition groupThenLeaf : list value :=
  [dir "g" [VStr "a"]; VStr "b"].

Definition defaults : options :=
  {| idPrefix := "next_page"; shared := "shared"; urlPrefix := "" |}.

(** ** The wrapper around the resolver

    The top level of [next_page_resolver.js]: the current page is split at
    [path.sep], a leading component equal to the [--shared] option is
    dropped, the resolver runs, and its result goes through [format].
    [path.sep] is one character and is a parameter, like [path.join]. *)

(** [s.split(sep)] for a separator of one character. *)
Fixpoint split (sep : ascii) (s : string) : list string :=
  match s with
  | EmptyString => [EmptyString]
  | String c rest =>
      if Ascii.eqb c sep then EmptyString :: split sep rest
      else
        match split sep rest with
        | [] => [String c EmptyString]
        | part :: parts => String c part :: parts
        end
  end.

(** [if (currentPageParts[0] === options.shared) currentPageParts.shift()] *)
Definition shift_shared (opts : options) (parts : path) : path :=
  match parts with
  | [] => []
  | p0 :: rest => if p0 =? shared opts then rest else parts
  end.

Definition currentPageParts (sep : ascii) (opts : options) (currentPage : string)
  : path :=
  shift_shared opts (split sep currentPage).

Definition main (path_join : list string -> string) (sep : ascii)
  (opts : options) (navigation : value) (currentPage : string)
  : outcome (list (string * string)) :=
  nexts <- findNexts navigation (currentPageParts sep opts currentPage) ;;
  format path_join opts nexts.

(** The arguments that [entry] hands to [path.join] after the URL prefix:
    the breadcrumb, or the default track, and the file. *)
Definition page_components (opts : options) (resolved : path) : path :=
  output_breadcrumb opts resolved ++ [last resolved ""].

(** [p] is the track names and the name of some leaf below a value. *)
Inductive leaf_path : value -> path -> Prop :=
| leaf_path_leaf s : leaf_path (VStr s) [s]
| leaf_path_item x items p :
    In x items -> leaf_path x p -> leaf_path (VArr items) p
| leaf_path_track entries k v p :
    In (k, v) entries -> leaf_path v p -> leaf_path (VObj entries) (k :: p).

(** The paths of the leaves below a value, in document order. *)
Fixpoint leaf_paths (v : value) : list path :=
  match v with
  | VStr s => [[s]]
  | VArr items =>
      (fix each (l : list value) : list path :=
         match l with
         | [] => []
         | x :: rest => leaf_paths x ++ each rest
         end) items
  | VObj entries =>
      (fix tracks (es : list (string * value)) : list path :=
         match es with
         | [] => []
         | (k, v) :: rest => map (cons k) (leaf_paths v) ++ tracks rest
         end) entries
  | VUndefined | VNull | VBool _ | VNum _ => []
  end.

(** A navigation without branch points: every leaf has a name, and every
    group set has one track, which is not empty. *)
Fixpoint linear_node (v : value) : bool :=
  match v with
  | VStr s => negb (s =? "")
  | VObj [(_, VArr (x :: sub))] => linear_node x && forallb linear_node sub
  | _ => false
  end.

Definition linear_tree (T : value) : bool :=
  match T with
  | VArr items => forallb linear_node items
  | _ => false
  end.

(** What the resolver is to return for the leaf at index [i] of a list of
    leaf paths: the path at [i + 1] under the breadcrumb, or [true]. *)
Definition next_in (paths : list path) (d : path) (i : nat) : found :=
  match nth_error paths (S i) with
  | Some next => RArr [d ++ next]
  | None => RTrue
  end.

(** A stand-in for [path.join] in examples: the non-empty segments joined
    by a slash. *)
Definition slash_join (segments : list string) : string :=
  String.concat "/" (filter (fun seg => negb (seg =? "")) segments).

(** ** Listing the pages

    [extractPages] of [list_pages.js] prints one line per page.  A run is
    the list of lines printed and, when the run ends in a [throw], the
    error: what was printed before stays printed.  [for (const item of
    items)] iterates an array by elements and a string by characters; any
    other value is not iterable.  [Object.entries] of an array pairs the
    indices, written in decimal, with the elements. *)

(** The key of an array index: the index written in decimal. *)
Definition index_key (i : nat) : string :=
  NilEmpty.string_of_uint (Nat.to_uint i).

Module ListPages.

Inductive error : Type :=
| NotIterable
| CannotConvertToObject
| CouldNotProcess.

Definition run : Type := list string * option error.

Definition done : run := ([], None).

(** One statement after another: the second runs unless the first threw. *)
Definition and_then (first second : run) : run :=
  match first with
  | (lines, None) => (lines ++ fst second, snd second)
  | (lines, Some e) => (lines, Some e)
  end.

Record options : Type := {
  rootPath : string;
  shared : string
}.

Section Listing.

Variable path_join : list string -> string.
Variable opts : options.

(** [console.log(path.join(options.rootPath, trackPath || options.shared,
    item))] *)
Definition page_line (trackPath item : string) : string :=
  path_join [rootPath opts;
             if trackPath =? "" then shared opts else trackPath;
             item].

Fixpoint extractPages (items : value) (trackPath : string) : run :=
  match items with
  | VArr l =>
      (fix each (l : list value) : run :=
         match l with
         | [] => done
         | item :: rest =>
             and_then
               match item with
               | VStr s => ([page_line trackPath s], None)
               | VObj entries =>
                   (fix tracks (es : list (string * value)) : run :=
                      match es with
                      | [] => done
                      | (trackName, trackItems) :: more =>
                          and_then
                            (extractPages trackItems
                               (path_join [trackPath; trackName]))
                            (tracks more)
                      end) entries
               | VArr elements =>
                   (fix indexed (vs : list value) (i : nat) : run :=
                      match vs with
                      | [] => done
                      | trackItems :: more =>
                          and_then
                            (extractPages trackItems
                               (path_join [trackPath; index_key i]))
                            (indexed more (S i))
                      end) elements 0
               | VNull => ([], Some CannotConvertToObject)
               | VUndefined | VBool _ | VNum _ => ([], Some CouldNotProcess)
               end
               (each rest)
         end) l
  | VStr s =>
      (map (fun c => page_line trackPath (String c EmptyString))
           (list_ascii_of_string s), None)
  | VUndefined | VNull | VBool _ | VNum _ | VObj _ => ([], Some NotIterable)
  end.

(** The body of the loop for one item, and the loops themselves. *)
Definition extractItem (item : value) (trackPath : string) : run :=
  match item with
  | VStr s => ([page_line trackPath s], None)
  | VObj entries =>
      fold_right (fun kv rest =>
                    and_then (extractPages (snd kv) (path_join [trackPath; fst kv]))
                             rest)
                 done entries
  | VArr elements =>
      fold_right (fun kv rest =>
                    and_then (extractPages (snd kv) (path_join [trackPath; fst kv]))
                             rest)
                 done
                 (combine (map index_key (seq 0 (List.length elements))) elements)
  | VNull => ([], Some CannotConvertToObject)
  | VUndefined | VBool _ | VNum _ => ([], Some CouldNotProcess)
  end.

(** The track path [extractPages] has built when it reaches a sequence
    under the given track names. *)
Definition track_path (crumbs : path) : string :=
  fold_left (fun trackPath trackName => path_join [trackPath; trackName])
            crumbs "".

End Listing.

End ListPages.

Definition list_defaults : ListPages.options :=
  {| ListPages.rootPath := "pages"; ListPages.shared := "shared" |}.

(** ** Deep merge

    [mergeDeep] of [substitutions_merge.js] and the loop over the files
    around it.  The target is a plain object at every call (the empty
    object, a result of [mergeDeep], or a property value just tested to
    be one) and is given by its entries.  Assigning to an absent key
    appends it.  The data are trees, as [JSON.parse] builds them: no
    object occurs twice, so merging into one property changes no other.
    A key [__proto__] in the data is outside the model: [target[key]]
    then reads and writes through the accessor of [Object.prototype],
    the key is not stored and [Object.prototype] itself is changed for
    every later lookup.  [own_keys] below says that the data of a file
    has no such key, and the theorems ask it of every file they merge.
    A method inherited from [Object.prototype] is a function, for which
    the test on [tgtVal] fails as it does for [undefined]. *)

Module Merge.

(** [v !== null && typeof v === 'object' && !Array.isArray(v)] *)
Definition is_plain_object (v : value) : bool :=
  match v with
  | VObj _ => true
  | _ => false
  end.

(** [target[key] = v] *)
Fixpoint assign (target : list (string * value)) (key : string) (v : value)
  : list (string * value) :=
  match target with
  | [] => [(key, v)]
  | (k, old) :: rest =>
      if k =? key then (k, v) :: rest else (k, old) :: assign rest key v
  end.

(** The statement [if (!target[key]) target[key] = {}] stands in a branch
    where [target[key]] is an object, which is truthy; it never runs and
    is left out.  There [mergeDeep(target[key], srcVal)] changes
    [target[key]] in place into what the call returns. *)
Fixpoint mergeDeep (target : list (string * value)) (source : value) : value :=
  match source with
  | VObj entries =>
      VObj ((fix each (es target : list (string * value)) :=
               match es with
               | [] => target
               | (key, srcVal) :: rest =>
                   each rest
                     match srcVal, prop target key with
                     | VObj _, VObj tgtVal => assign target key (mergeDeep tgtVal srcVal)
                     | _, _ => assign target key srcVal
                     end
               end) entries target)
  | VArr items =>
      VObj ((fix each (vs : list value) (i : nat) (target : list (string * value)) :=
               match vs with
               | [] => target
               | srcVal :: rest =>
                   each rest (S i)
                     match srcVal, prop target (index_key i) with
                     | VObj _, VObj tgtVal =>
                         assign target (index_key i) (mergeDeep tgtVal srcVal)
                     | _, _ => assign target (index_key i) srcVal
                     end
               end) items 0 target)
  | VUndefined | VNull | VBool _ | VNum _ | VStr _ => source
  end.

(** The body of the loop for one key. *)
Definition merge_key (target : list (string * value)) (kv : string * value)
  : list (string * value) :=
  match snd kv, prop target (fst kv) with
  | VObj _, VObj tgtVal => assign target (fst kv) (mergeDeep tgtVal (snd kv))
  | _, _ => assign target (fst kv) (snd kv)
  end.

(** The action of the program on the data of its files, read and parsed:
    [None] is [fail], which ends the process before anything is printed. *)
Fixpoint merge_files (result : list (string * value)) (files : list value)
  : option value :=
  match files with
  | [] => Some (VObj result)
  | data :: rest =>
      match data with
      | VObj _ =>
          match mergeDeep result data with
          | VObj result' => merge_files result' rest
          | _ => None
          end
      | _ => None
      end
  end.

(** The run of the program on its file arguments.  Started without any
    argument it shows the help and exits normally, before the action is
    reached (the test [files.length === 0] of the action never holds);
    otherwise it fails or prints the merged object. *)
Inductive exit : Type :=
| ShowsHelp
| Fails
| Prints (result : value).

Definition deep_merge (files : list value) : exit :=
  match files with
  | [] => ShowsHelp
  | _ :: _ =>
      match merge_files [] files with
      | Some result => Prints result
      | None => Fails
      end
  end.

(** The entries of an object, and the value found by following keys. *)
Definition entries_of_value (v : value) : list (string * value) :=
  match v with
  | VObj entries => entries
  | _ => []
  end.

Definition has_key (entries : list (string * value)) (k : string) : bool :=
  existsb (String.eqb k) (map fst entries).

Fixpoint lookup_path (v : value) (keys : list string) : value :=
  match keys with
  | [] => v
  | k :: rest =>
      match v with
      | VObj entries => lookup_path (prop entries k) rest
      | _ => VUndefined
      end
  end.

(** Objects whose keys are pairwise distinct and never [__proto__], at
    every depth: the objects for which a property is an own property. *)
Fixpoint own_keys (v : value) : bool :=
  match v with
  | VObj entries =>
      uniqueb (map fst entries) &&
      negb (existsb (String.eqb "__proto__") (map fst entries)) &&
      forallb (fun kv => own_keys (snd kv)) entries
  | VArr items => forallb own_keys items
  | _ => true
  end.

End Merge.

(** ** Schema preparation

    [recursivelyRemove] and [findSchemaReferences] of
    [schema_validator.js].  The first changes the schema in place and
    returns nothing; the model returns the schema as it is afterwards.
    What it prints when [verbose] is set is left out.  It is called with
    the keys [prod_only] and [dev_only] only, which name no property of
    an array, a string, a number or a boolean. *)

Module Schema.

Inductive marker : Type :=
| ProdOnly
| DevOnly.

Definition marker_key (removeKey : marker) : string :=
  match removeKey with
  | ProdOnly => "prod_only"
  | DevOnly => "dev_only"
  end.

(** [schema[key]?.[removeKey]] is truthy. *)
Definition marked (removeKey : marker) (v : value) : bool :=
  match v with
  | VObj entries => truthy (prop entries (marker_key removeKey))
  | _ => false
  end.

Fixpoint recursivelyRemove (removeKey : marker) (schema : value) : value :=
  match schema with
  | VObj entries =>
      VObj ((fix keys (es : list (string * value)) : list (string * value) :=
               match es with
               | [] => []
               | (key, v) :: rest =>
                   if marked removeKey v then keys rest
                   else (key, recursivelyRemove removeKey v) :: keys rest
               end) entries)
  | VArr items =>
      VArr ((fix indices (vs : list value) : list value :=
               match vs with
               | [] => []
               | v :: rest =>
                   if marked removeKey v then indices rest
                   else recursivelyRemove removeKey v :: indices rest
               end) items)
  | VUndefined | VNull | VBool _ | VNum _ | VStr _ => schema
  end.

Fixpoint remove_entries (removeKey : marker) (es : list (string * value))
  : list (string * value) :=
  match es with
  | [] => []
  | (key, v) :: rest =>
      if marked removeKey v then remove_entries removeKey rest
      else (key, recursivelyRemove removeKey v) :: remove_entries removeKey rest
  end.

Fixpoint remove_items (removeKey : marker) (vs : list value) : list value :=
  match vs with
  | [] => []
  | v :: rest =>
      if marked removeKey v then remove_items removeKey rest
      else recursivelyRemove removeKey v :: remove_items removeKey rest
  end.

(** No property value and no array element, at any depth, is marked. *)
Fixpoint unmarked (removeKey : marker) (v : value) : bool :=
  match v with
  | VObj entries =>
      forallb (fun kv => negb (marked removeKey (snd kv)) &&
                         unmarked removeKey (snd kv)) entries
  | VArr items =>
      forallb (fun x => negb (marked removeKey x) && unmarked removeKey x) items
  | _ => true
  end.

(** *** References

    [refs] is a [Set]: adding a string, a number or a boolean that is
    already there changes nothing; an object or an array is a new member
    each time, the data being a tree.  [schema.hasOwnProperty(key)] calls
    the own property of that name when the schema has one, and in parsed
    data that is never a function: the first turn of the loop throws. *)

Inductive error : Type :=
| NotAFunction.

Definition same_value (a b : value) : bool :=
  match a, b with
  | VStr s, VStr t => s =? t
  | VNum n, VNum m => (n =? m)%Z
  | VBool x, VBool y => Bool.eqb x y
  | VNull, VNull => true
  | VUndefined, VUndefined => true
  | _, _ => false
  end.

Definition set_add (v : value) (refs : list value) : list value :=
  if existsb (same_value v) refs then refs else refs ++ [v].

Inductive result (A : Type) : Type :=
| Returns (a : A)
| Throws (e : error).
Arguments Returns {A} a.
Arguments Throws {A} e.

Fixpoint findSchemaReferences (schema : value) (refs : list value)
  : result (list value) :=
  match schema with
  | VObj entries =>
      let refs :=
        if truthy (prop entries "$ref") then set_add (prop entries "$ref") refs
        else refs in
      if existsb (String.eqb "hasOwnProperty") (map fst entries)
      then Throws NotAFunction
      else
        (fix keys (es : list (string * value)) (refs : list value) :=
           match es with
           | [] => Returns refs
           | (key, v) :: rest =>
               match findSchemaReferences v refs with
               | Returns refs' => keys rest refs'
               | Throws e => Throws e
               end
           end) entries refs
  | VArr items =>
      (fix indices (vs : list value) (refs : list value) :=
         match vs with
         | [] => Returns refs
         | v :: rest =>
             match findSchemaReferences v refs with
             | Returns refs' => indices rest refs'
             | Throws e => Throws e
             end
         end) items refs
  | VUndefined | VNull | VBool _ | VNum _ | VStr _ => Returns refs
  end.

Fixpoint find_all (vs : list value) (refs : list value) : result (list value) :=
  match vs with
  | [] => Returns refs
  | v :: rest =>
      match findSchemaReferences v refs with
      | Returns refs' => find_all rest refs'
      | Throws e => Throws e
      end
  end.

(** [r] is the truthy [$ref] of an object met in the value. *)
Inductive ref_in : value -> value -> Prop :=
| ref_here entries :
    truthy (prop entries "$ref") = true ->
    ref_in (VObj entries) (prop entries "$ref")
| ref_under_key entries k v r :
    In (k, v) entries -> ref_in v r -> ref_in (VObj entries) r
| ref_under_index items v r :
    In v items -> ref_in v r -> ref_in (VArr items) r.

(** No object met in the value has a key [hasOwnProperty]. *)
Fixpoint plain_keys (v : value) : bool :=
  match v with
  | VObj entries =>
      negb (existsb (String.eqb "hasOwnProperty") (map fst entries)) &&
      forallb (fun kv => plain_keys (snd kv)) entries
  | VArr items => forallb plain_keys items
  | _ => true
  end.

(** *** Development keys

    [transformSchemaForDevelopment] renames every key ending in [_dev] to
    the key without the ending, over whatever that key held, and then
    does the same inside every value that is left.  The renaming looks at
    keys only and moves values as they are, so the model transforms the
    values first and renames afterwards; [transform_obj] below gives the
    order of the source.  Printing under [verbose] is left out.
    Assigning to the key [__proto__] of an object that has no own
    property of that name sets its prototype and adds no property, so an
    object with a key [__proto___dev] is outside the model. *)

(** [devKey.replace(/_dev$/, '')] when [key.endsWith('_dev')]. *)
Definition strip_dev (key : string) : option string :=
  match rev (list_ascii_of_string key) with
  | "v"%char :: "e"%char :: "d"%char :: "_"%char :: front =>
      Some (string_of_list_ascii (rev front))
  | _ => None
  end.

Definition ends_dev (key : string) : bool :=
  match strip_dev key with
  | Some _ => true
  | None => false
  end.

Definition prod_key (devKey : string) : string :=
  match strip_dev devKey with
  | Some prodKey => prodKey
  | None => devKey
  end.

(** [delete schema[key]] *)
Fixpoint delete (entries : list (string * value)) (key : string)
  : list (string * value) :=
  match entries with
  | [] => []
  | (k, v) :: rest =>
      if k =? key then delete rest key else (k, v) :: delete rest key
  end.

(** [schema[prodKey] = schema[devKey]; delete schema[devKey]] *)
Definition rename_key (entries : list (string * value)) (devKey : string)
  : list (string * value) :=
  delete (Merge.assign entries (prod_key devKey) (prop entries devKey)) devKey.

(** [Object.keys(schema).filter(key => key.endsWith('_dev')).forEach(...)] *)
Definition rename_dev (entries : list (string * value)) : list (string * value) :=
  fold_left rename_key (filter ends_dev (map fst entries)) entries.

Fixpoint transformSchemaForDevelopment (schema : value) : value :=
  match schema with
  | VObj entries =>
      VObj (rename_dev
              ((fix values (es : list (string * value)) :=
                  match es with
                  | [] => []
                  | (k, v) :: rest =>
                      (k, transformSchemaForDevelopment v) :: values rest
                  end) entries))
  | VArr items =>
      VArr ((fix each (vs : list value) :=
               match vs with
               | [] => []
               | v :: rest => transformSchemaForDevelopment v :: each rest
               end) items)
  | VUndefined | VNull | VBool _ | VNum _ | VStr _ => schema
  end.

Definition map_values (f : value -> value) (entries : list (string * value))
  : list (string * value) :=
  map (fun kv => (fst kv, f (snd kv))) entries.

(** The entry of a key, if the object has the key. *)
Fixpoint find_key (entries : list (string * value)) (k : string) : option value :=
  match entries with
  | [] => None
  | (k', v) :: rest => if k' =? k then Some v else find_key rest k
  end.

(** No key of the object ends in [_dev_dev]. *)
Definition single_dev (entries : list (string * value)) : bool :=
  forallb (fun k => negb (ends_dev k && ends_dev (prod_key k))) (map fst entries).

End Schema.

(** * Properties *)

(** The embedding reproduces the expected value of every case of
    [unit_tests]. *)
Lemma unit_tests_pass :
  findNexts basic ["config.js"] = Return [["src"; "index.js"]] /\
  findNexts basic ["src"; "index.js"] = Return [["src"; "utils.js"]] /\
  findNexts basic ["src"; "utils.js"] = Return [["readme.md"]] /\
  findNexts basic ["readme.md"] = Return [] /\
  findNexts multiDir ["shared"; "x.js"] = Return [["b.js"]] /\
  findNexts multiDir ["shared"; "y.js"] = Return [["shared"; "z.js"]] /\
  findNexts multiDir ["shared"; "z.js"] = Return [["c.js"]] /\
  findNexts multiDir ["b.js"] = Return [["shared"; "y.js"]] /\
  findNexts complex ["start.js"] = Return [["lib"; "utils"; "helper.js"]] /\
  findNexts complex ["lib"; "utils"; "helper.js"]
    = Return [["lib"; "utils"; "math.js"]] /\
  findNexts complex ["lib"; "utils"; "math.js"] = Return [["lib"; "index.js"]] /\
  findNexts complex ["lib"; "index.js"] = Return [["test"; "spec.js"]] /\
  findNexts complex ["end.js"] = Return [] /\
  findNexts nested ["deep"; "nested"; "very"; "deep.js"]
    = Return [["surface.js"]] /\
  findNexts emptyDirs ["file1.js"] = Return [["file2.js"]] /\
  findNexts basic [] = Return [["config.js"]] /\
  findNexts basic ["missing.js"] = Return [] /\
  findNexts basic ["src"; "missing.js"] = Return [] /\
  findNexts basic ["missing"; "deep"; "file.js"] = Return [] /\
  findNexts (VArr []) [] = Return [] /\
  findNexts (VArr [VStr "only.js"]) ["only.js"] = Return [] /\
  findNexts (VArr [VStr "only.js"]) ["other.js"] = Return [] /\
  findNexts dirOnly ["dir1"; "subdir"; "file.js"]
    = Return [["dir2"; "other.js"]] /\
  findNexts mixedComplex ["main"; "sub"; "nested.js"]
    = Return [["main"; "last.js"]] /\
  findNexts mixedComplex ["main"; "last.js"]
    = Return [["main"; "duplicate.js"]] /\
  findNexts mixedComplex ["main"; "duplicate.js"] = Return [["post.js"]] /\
  findNexts tripleDir ["same"; "a.js"] = Return [["middle.js"]] /\
  findNexts tripleDir ["same"; "b.js"] = Return [["same"; "c.js"]] /\
  findNexts tripleDir ["same"; "c.js"] = Return [["end.js"]] /\
  findNexts tripleDir ["same"; "d.js"] = Return [] /\
  findNexts deepNest ["a"; "b"; "c"; "d"; "deep.js"]
    = Return [["a"; "b"; "c"; "mid.js"]] /\
  findNexts deepNest ["a"; "b"; "c"; "mid.js"]
    = Return [["a"; "b"; "shallow.js"]] /\
  findNexts deepNest ["a"; "b"; "shallow.js"] = Return [["root.js"]].
Proof. repeat split; reflexivity. Qed.

(** ** Reasoning principles for the embedding *)

(** Induction over a value with the hypothesis available for every
    element of an array and every property value of an object. *)
Lemma value_ind (P : value -> Prop) :
  P VUndefined -> P VNull -> (forall b, P (VBool b)) -> (forall n, P (VNum n)) ->
  (forall s, P (VStr s)) ->
  (forall items, (forall x, In x items -> P x) -> P (VArr items)) ->
  (forall entries, (forall k v, In (k, v) entries -> P v) -> P (VObj entries)) ->
  forall v, P v.
Proof.
  intros Hu Hn Hb Hz Hs Ha Ho.
  fix IH 1.
  intros [ | | b | n | s | items | entries ];
    [ exact Hu | exact Hn | apply Hb | apply Hz | apply Hs | | ].
  - apply Ha. induction items as [ | x items IHitems ]; intros y [].
    + subst y. apply IH.
    + now apply IHitems.
  - apply Ho. induction entries as [ | [k0 v0] entries IHentries ]; intros k v [].
    + injection H as _ <-. apply IH.
    + now apply IHentries with k.
Qed.

Lemma getNexts_obj entries directions :
  getNexts (VObj entries) directions =
  nexts <- fanOut entries directions ;; Return (or_true nexts).
Proof.
  cbn [getNexts]. f_equal.
  induction entries as [ | [k v] rest IH ]; [ reflexivity | ].
  cbn [fanOut]. now rewrite IH.
Qed.

Lemma getNexts_cons x0 rest directions :
  getNexts (VArr (x0 :: rest)) directions = getNexts x0 directions.
Proof. reflexivity. Qed.

Lemma findNextsHelper_arr items p0 p' directions :
  findNextsHelper (VArr items) (p0 :: p') directions =
  scan items RFalse (p0 :: p') directions.
Proof.
  cbn [findNextsHelper truthy negb].
  generalize RFalse.
  induction items as [ | x rest IH ]; intros fnd; [ reflexivity | ].
  cbn [scan]. destruct fnd; try reflexivity.
  - destruct (findNextsHelper x (p0 :: p') directions); cbn [bind]; auto.
  - destruct (getNexts x directions); cbn [bind]; auto.
Qed.

Lemma findNextsHelper_lookup entries p0 p1 p' directions :
  findNextsHelper (VObj entries) (p0 :: p1 :: p') directions =
  if has_own entries p0
  then findNextsHelper (prop entries p0) (p1 :: p') (directions ++ [p0])
  else inherited p0 (p1 :: p').
Proof.
  cbn [findNextsHelper truthy negb].
  induction entries as [ | [k v] rest IH ]; [ reflexivity | ].
  cbn [prop has_own]. destruct (k =? p0); [ reflexivity | exact IH ].
Qed.

Lemma plain_path_tail p0 rest :
  plain_path (p0 :: rest) = true -> plain_path rest = true.
Proof.
  destruct rest as [ | p1 p' ]; [ reflexivity | ].
  intros H. cbn [plain_path] in H. now apply andb_prop in H as [_ H].
Qed.

Lemma inherited_plain p0 rest :
  plain_path (p0 :: rest) = true -> rest <> [] ->
  inherited p0 rest = Return RFalse.
Proof.
  destruct rest as [ | p1 p' ]; [ congruence | ]. intros H _.
  cbn [plain_path] in H. apply andb_prop in H as [H0 H1].
  apply negb_true_iff in H0. unfold inherited. rewrite H0.
  destruct (p0 =? "__proto__"); [ | reflexivity ].
  destruct p' as [ | p2 p'' ]; [ reflexivity | ].
  cbn [plain_path] in H1. apply andb_prop in H1 as [H1 _].
  apply negb_true_iff in H1. now rewrite H1.
Qed.

Lemma has_own_false_prop entries k :
  has_own entries k = false -> prop entries k = VUndefined.
Proof.
  induction entries as [ | [k' v] rest IH ]; [ reflexivity | ].
  cbn [has_own prop]. destruct (k' =? k); [ discriminate | exact IH ].
Qed.

Lemma inherited_cases key rest :
  inherited key rest = Return RFalse \/
  inherited key rest = Throw FindNextsUnhandledState.
Proof.
  unfold inherited. destruct (is_method key); [ now right | ].
  destruct (key =? "__proto__"); [ | now left ].
  destruct rest as [ | q0 [ | q1 rest ] ]; try now left.
  destruct (is_method q0); [ now right | now left ].
Qed.

(** Whatever the search returns on an object for a name that is not an
    own property, it is not a page. *)
Lemma inherited_not_found key rest r :
  inherited key rest = Return r -> r = RFalse.
Proof.
  destruct (inherited_cases key rest) as [-> | ->]; [ | discriminate ].
  now intros [= <-].
Qed.

(** On a path that names no inherited method the call on [xs[path[0]]]
    is the call on the own property, or on [undefined]. *)
Lemma findNextsHelper_obj entries p0 p1 p' directions :
  plain_path (p0 :: p1 :: p') = true ->
  findNextsHelper (VObj entries) (p0 :: p1 :: p') directions =
  findNextsHelper (prop entries p0) (p1 :: p') (directions ++ [p0]).
Proof.
  intros H. rewrite findNextsHelper_lookup.
  destruct (has_own entries p0) eqn:E; [ reflexivity | ].
  rewrite (has_own_false_prop _ _ E), inherited_plain by (exact H || discriminate).
  reflexivity.
Qed.

Lemma findNextsHelper_nil xs directions :
  findNextsHelper xs [] directions = Return RFalse.
Proof. destruct xs; cbn; try reflexivity; now destruct (negb _). Qed.

Lemma prune_obj entries : prune (VObj entries) = VObj (prune_entries entries).
Proof. reflexivity. Qed.

Lemma prop_in entries k :
  prop entries k = VUndefined \/ In (k, prop entries k) entries.
Proof.
  induction entries as [ | [k' v] rest IH ]; [ now left | ].
  cbn [prop]. destruct (k' =? k) eqn:E.
  - apply String.eqb_eq in E. subst k'. right. now left.
  - destruct IH as [IH | IH]; [ now left | right; now right ].
Qed.

(** *** Shapes *)

Lemma is_node_entry entries k v :
  is_node (VObj entries) = true -> In (k, v) entries ->
  exists sub, v = VArr sub /\ is_sequence sub = true.
Proof.
  cbn [is_node]. intros H Hin.
  apply andb_prop in H as [_ H].
  rewrite forallb_forall in H. specialize (H _ Hin). cbn [snd] in H.
  destruct v; try discriminate. now exists items.
Qed.

Lemma is_node_prop entries k :
  is_node (VObj entries) = true ->
  prop entries k = VUndefined \/
  exists sub, prop entries k = VArr sub /\ is_sequence sub = true /\
              In (k, VArr sub) entries.
Proof.
  intros H. destruct (prop_in entries k) as [E | Hin]; [ now left | right ].
  destruct (is_node_entry _ _ _ H Hin) as (sub & E & Hs).
  exists sub. rewrite E in Hin. auto.
Qed.

Lemma is_sequence_In items x :
  is_sequence items = true -> In x items -> is_node x = true.
Proof. unfold is_sequence. rewrite forallb_forall. auto. Qed.

Lemma is_sequence_nth items i x :
  is_sequence items = true -> nth_error items i = Some x -> is_node x = true.
Proof. intros H E. eapply is_sequence_In; eauto using nth_error_In. Qed.

Lemma is_sequence_cons x items :
  is_sequence (x :: items) = true <->
  is_node x = true /\ is_sequence items = true.
Proof. unfold is_sequence. cbn [forallb]. apply andb_true_iff. Qed.

Lemma is_node_cases x :
  is_node x = true -> (exists s, x = VStr s) \/ (exists entries, x = VObj entries).
Proof. destruct x; try discriminate; eauto. Qed.

(** *** What [getNexts] returns *)

Lemma getNexts_shape v :
  forall directions r, getNexts v directions = Return r ->
  r = RTrue \/ exists ps, r = RArr ps /\ ps <> [].
Proof.
  induction v as [ | | b | n | s | items IH | entries IH ] using value_ind;
    intros d r E; try discriminate.
  - injection E as <-. right. eexists. split; [ reflexivity | discriminate ].
  - destruct items as [ | x0 rest ].
    + injection E as <-. now left.
    + cbn [getNexts] in E. eapply IH; [ now left | exact E ].
  - rewrite getNexts_obj in E.
    destruct (fanOut entries d) as [ [ | p ps ] | e ]; cbn [bind or_true] in E;
      try discriminate; injection E as <-.
    + now left.
    + right. eexists. split; [ reflexivity | discriminate ].
Qed.

Lemma getNexts_not_false v directions : getNexts v directions <> Return RFalse.
Proof.
  intros E. apply getNexts_shape in E as [E | (ps & E & _)]; discriminate.
Qed.

(** Every path [getNexts] yields starts with the breadcrumb it was given
    and names at least one more component. *)
Lemma getNexts_prefixed v :
  forall directions ps p, getNexts v directions = Return (RArr ps) -> In p ps ->
  exists rest, p = directions ++ rest /\ rest <> [].
Proof.
  induction v as [ | | b | n | s | items IH | entries IH ] using value_ind;
    intros d ps p E Hin; try discriminate.
  - injection E as <-. destruct Hin as [<- | []].
    exists [s]. split; [ reflexivity | discriminate ].
  - destruct items as [ | x0 rest ]; [ discriminate | ].
    cbn [getNexts] in E. eapply IH; eauto. now left.
  - rewrite getNexts_obj in E.
    destruct (fanOut entries d) as [ nexts | e ] eqn:F; cbn [bind] in E;
      [ | discriminate ].
    assert (In p nexts) as Hp
      by (destruct nexts; [ discriminate | injection E as <-; exact Hin ]).
    clear E Hin. revert nexts F Hp.
    induction entries as [ | [k v] es IHes ]; intros nexts F Hp.
    + injection F as <-. destruct Hp.
    + cbn [fanOut] in F.
      destruct (getNexts v (d ++ [k])) as [ r | e ] eqn:G; cbn [bind] in F;
        [ | discriminate ].
      destruct (fanOut es d) as [ more | e ] eqn:F'; cbn [bind] in F;
        [ | discriminate ].
      injection F as <-. apply in_app_or in Hp as [Hp | Hp].
      * destruct r as [ | | ps' ]; try destruct Hp.
        destruct (IH k v (or_introl eq_refl) _ _ _ G Hp) as (rest & -> & _).
        exists (k :: rest). rewrite <- app_assoc. split; [ reflexivity | discriminate ].
      * apply (IHes (fun k' v' H => IH k' v' (or_intror H)) more eq_refl Hp).
Qed.

(** *** No error on a navigation tree *)

Lemma scan_returns l p directions :
  (forall x, In x l -> exists r, getNexts x directions = Return r) ->
  (forall x, In x l -> exists r, findNextsHelper x p directions = Return r) ->
  forall fnd, exists r, scan l fnd p directions = Return r.
Proof.
  induction l as [ | x rest IH ]; intros Hg Hf fnd; cbn [scan]; [ eauto | ].
  assert (forall f, exists r, scan rest f p directions = Return r) as IH'
    by (apply IH; intros; [ apply Hg | apply Hf ]; now right).
  destruct fnd; eauto.
  - destruct (Hf x (or_introl eq_refl)) as [r ->]. cbn [bind]. apply IH'.
  - destruct (Hg x (or_introl eq_refl)) as [r ->]. cbn [bind]. apply IH'.
Qed.

Lemma fanOut_returns entries directions :
  (forall k v, In (k, v) entries -> forall d, exists r, getNexts v d = Return r) ->
  exists nexts, fanOut entries directions = Return nexts.
Proof.
  induction entries as [ | [k v] rest IH ]; intros H; cbn [fanOut]; [ eauto | ].
  destruct (H k v (or_introl eq_refl) (directions ++ [k])) as [r ->].
  destruct IH as [more ->]; [ intros; eapply H; right; eauto | ].
  cbn [bind]. eauto.
Qed.

Lemma tree_returns v :
  is_node v = true \/ is_tree v = true ->
  (forall d, exists r, getNexts v d = Return r) /\
  (forall p d, plain_path p = true ->
               exists r, findNextsHelper v p d = Return r).
Proof.
  induction v as [ | | b | n | s | items IH | entries IH ] using value_ind;
    intros [W | W]; try discriminate.
  - split; intros; [ cbn; eauto | ].
    destruct p as [ | p0 [ | p1 p' ] ]; cbn; destruct (negb _); eauto.
  - cbn [is_tree] in W. split.
    + intros d. destruct items as [ | x0 rest ]; cbn [getNexts]; [ eauto | ].
      apply is_sequence_cons in W as [W _].
      apply (IH x0); auto. now left.
    + intros [ | p0 p' ] d Hp; [ rewrite findNextsHelper_nil; eauto | ].
      rewrite findNextsHelper_arr. apply scan_returns; intros x Hx;
        [ apply (IH x Hx) | apply (IH x Hx); [ | exact Hp ] ];
        left; eapply is_sequence_In; eauto.
  - assert (forall k v, In (k, v) entries -> is_tree v = true) as Wt.
    { intros k v Hin. destruct (is_node_entry _ _ _ W Hin) as (sub & -> & Hs).
      exact Hs. }
    split.
    + intros d. rewrite getNexts_obj.
      destruct (fanOut_returns entries d) as [nexts ->]; cbn [bind]; eauto.
      intros k v Hin. apply (IH k v Hin). right. eauto.
    + intros [ | p0 [ | p1 p' ] ] d Hp; [ rewrite findNextsHelper_nil; eauto
                                        | cbn; eauto | ].
      rewrite findNextsHelper_obj by exact Hp.
      destruct (is_node_prop entries p0 W) as [-> | (sub & E & Hs & Hin)];
        [ cbn; eauto | ].
      rewrite E. apply (IH p0 _ Hin); [ now right | ].
      exact (plain_path_tail _ _ Hp).
Qed.

Lemma node_getNexts_returns x d :
  is_node x = true -> exists r, getNexts x d = Return r.
Proof. intros W. apply tree_returns. now left. Qed.

Lemma node_find_returns x p d :
  is_node x = true -> plain_path p = true ->
  exists r, findNextsHelper x p d = Return r.
Proof. intros W Hp. apply tree_returns; [ now left | exact Hp ]. Qed.

Lemma tree_find_returns items p d :
  is_sequence items = true -> plain_path p = true ->
  exists r, findNextsHelper (VArr items) p d = Return r.
Proof. intros W Hp. apply tree_returns; [ now right | exact Hp ]. Qed.

(** *** The loop of [findNextsHelper] *)

Lemma scan_arr l ps p directions :
  scan l (RArr ps) p directions = Return (RArr ps).
Proof. now destruct l. Qed.

Lemma scan_skip_false pre l p directions :
  (forall x, In x pre -> findNextsHelper x p directions = Return RFalse) ->
  scan (pre ++ l) RFalse p directions = scan l RFalse p directions.
Proof.
  induction pre as [ | x pre IH ]; intros H; [ reflexivity | ].
  cbn [app scan]. rewrite (H x (or_introl eq_refl)). cbn [bind].
  apply IH. intros; apply H; now right.
Qed.

Lemma first_live_app l1 l2 :
  first_live (l1 ++ l2) =
  match first_live l1 with
  | [] => first_live l2
  | ps => ps
  end.
Proof.
  induction l1 as [ | [d x] l1 IH ]; [ reflexivity | ].
  cbn [app first_live]. destruct (descendants x d); [ exact IH | reflexivity ].
Qed.

(** After the leaf has been found, the loop returns the first-descendant
    set of the first remaining element that is not a dead end, and [true]
    when every remaining element is one. *)
Lemma scan_true l p directions :
  is_sequence l = true ->
  scan l RTrue p directions =
  Return (or_true (first_live (map (pair directions) l))).
Proof.
  induction l as [ | x rest IH ]; intros W; [ reflexivity | ].
  apply is_sequence_cons in W as [Wx W].
  cbn [scan map first_live]. unfold descendants.
  destruct (node_getNexts_returns x directions Wx) as [r E]. rewrite E.
  cbn [bind]. destruct (getNexts_shape _ _ _ E) as [-> | (ps & -> & Hps)].
  - cbn [spliced]. now apply IH.
  - cbn [spliced]. rewrite scan_arr. now destruct ps.
Qed.

(** If the loop ends with anything but [false], the search succeeded in
    one of the elements. *)
Lemma scan_found l p directions r :
  scan l RFalse p directions = Return r -> r <> RFalse ->
  exists j x r', nth_error l j = Some x /\
                 findNextsHelper x p directions = Return r' /\ r' <> RFalse.
Proof.
  induction l as [ | x rest IH ]; cbn [scan]; intros E Hr.
  - injection E as <-. now destruct Hr.
  - destruct (findNextsHelper x p directions) as [ r0 | e ] eqn:F;
      cbn [bind] in E; [ | discriminate ].
    destruct r0.
    + destruct (IH E Hr) as (j & y & r' & Hj & Hy & Hr').
      exists (S j), y, r'. auto.
    + exists 0, x, RTrue. repeat split; auto. discriminate.
    + exists 0, x, (RArr nexts). repeat split; auto. discriminate.
Qed.

(** *** The search and the leaves it names *)

(** Whenever the search reports anything but [false] inside an element of
    a sequence, the path names a leaf located in that element. *)
Lemma search_names v :
  (is_node v = true ->
   forall p d r, findNextsHelper v p d = Return r -> r <> RFalse ->
   forall items j, nth_error items j = Some v ->
   exists q name, index q = j /\ leaf_at items q = Some name /\ path_to q name = p)
  /\
  (forall items, v = VArr items -> is_sequence items = true ->
   forall p d r, findNextsHelper v p d = Return r -> r <> RFalse ->
   exists q name, leaf_at items q = Some name /\ path_to q name = p).
Proof.
  induction v as [ | | b | n | s | items0 IH | entries IH ] using value_ind;
    (split; [ intros W p d r E Hr items j Hj
            | intros items Ev W p d r E Hr ]); try discriminate.
  - destruct p as [ | p0 [ | p1 p' ] ]; cbn [findNextsHelper truthy] in E;
      destruct (s =? ""); cbn [negb] in E;
      try (injection E as <-; now destruct Hr).
    destruct (s =? p0) eqn:Es; [ | injection E as <-; now destruct Hr ].
    apply String.eqb_eq in Es. subst p0.
    exists (Here j), s. cbn [index leaf_at]. rewrite Hj. auto.
  - injection Ev as <-.
    destruct p as [ | p0 p' ];
      [ rewrite findNextsHelper_nil in E; injection E as <-; now destruct Hr | ].
    rewrite findNextsHelper_arr in E.
    destruct (scan_found _ _ _ _ E Hr) as (j & x & r' & Hj & Hx & Hr').
    destruct (IH x (nth_error_In _ _ Hj)) as [IHx _].
    destruct (IHx (is_sequence_nth _ _ _ W Hj) _ _ _ Hx Hr' _ _ Hj)
      as (q & name & _ & Hq & Hp).
    eauto.
  - destruct p as [ | p0 [ | p1 p' ] ];
      [ rewrite findNextsHelper_nil in E; injection E as <-; now destruct Hr
      | cbn in E; injection E as <-; now destruct Hr | ].
    rewrite findNextsHelper_lookup in E.
    destruct (has_own entries p0);
      [ | apply inherited_not_found in E; now destruct Hr ].
    destruct (is_node_prop entries p0 W) as [U | (sub & Es & Ws & Hin)].
    + rewrite U in E. cbn in E. injection E as <-. now destruct Hr.
    + rewrite Es in E.
      destruct (IH p0 _ Hin) as [_ IHsub].
      destruct (IHsub sub eq_refl Ws _ _ _ E Hr) as (q' & name & Hq & Hp).
      exists (Inside j p0 q'), name. cbn [index leaf_at]. rewrite Hj, Es.
      repeat split; auto. unfold path_to in *. cbn [breadcrumb].
      now rewrite <- Hp.
Qed.

(** An element that lies before the first match reports [false]. *)
Lemma search_before_first items q p d j x :
  is_sequence items = true -> plain_path p = true -> first_match items q p ->
  nth_error items j = Some x -> j < index q ->
  findNextsHelper x p d = Return RFalse.
Proof.
  intros W Hplain (name & _ & _ & _ & Hmin) Hj Hlt.
  pose proof (is_sequence_nth _ _ _ W Hj) as Wx.
  destruct (node_find_returns x p d Wx Hplain) as [r E]. rewrite E. f_equal.
  destruct r; [ reflexivity | exfalso | exfalso ];
    (destruct (search_names x) as [Hn _];
     edestruct (Hn Wx _ _ _ E) as (q' & name' & Hi & Hq & Hp);
     [ discriminate | exact Hj | ];
     apply (Hmin _ _ Hq Hp); subst j;
     destruct q', q; cbn [before index] in *; auto).
Qed.

Lemma nth_error_prefix {A} (l : list A) i x :
  nth_error l i = Some x ->
  l = firstn i l ++ x :: skipn (S i) l /\
  forall y, In y (firstn i l) -> exists j, j < i /\ nth_error l j = Some y.
Proof.
  revert l. induction i as [ | i IH ]; intros [ | a l ] E; try discriminate.
  - injection E as <-. split; [ reflexivity | intros y [] ].
  - cbn [nth_error] in E. destruct (IH l E) as [Hl Hpre]. split.
    + cbn [firstn skipn app]. cbn [skipn] in Hl. now rewrite <- Hl.
    + cbn [firstn]. intros y [<- | Hy].
      * exists 0. split; [ lia | reflexivity ].
      * destruct (Hpre y Hy) as (j & Hj & Ej). exists (S j). split; [ lia | exact Ej ].
Qed.

(** Reaching the position of the first match: everything before it is
    skipped, and the loop goes on from there. *)
Lemma scan_to_first items q p d x :
  is_sequence items = true -> plain_path p = true -> first_match items q p ->
  nth_error items (index q) = Some x ->
  scan items RFalse p d =
  f <- findNextsHelper x p d ;; scan (skipn (S (index q)) items) f p d.
Proof.
  intros W Hplain Hfm Hx.
  destruct (nth_error_prefix _ _ _ Hx) as [Hsplit Hpre].
  rewrite Hsplit at 1. rewrite scan_skip_false; [ reflexivity | ].
  intros y Hy. destruct (Hpre y Hy) as (j & Hj & Ej).
  eapply search_before_first; eauto.
Qed.

Lemma is_sequence_skipn items n :
  is_sequence items = true -> is_sequence (skipn n items) = true.
Proof.
  unfold is_sequence. rewrite !forallb_forall. intros H x Hx. apply H.
  rewrite <- (firstn_skipn n items). apply in_or_app. now right.
Qed.

Lemma path_to_cons q name : exists p0 p', path_to q name = p0 :: p'.
Proof. unfold path_to. destruct (breadcrumb q); cbn; eauto. Qed.

Lemma find_leaf_itself name d :
  name <> "" -> findNextsHelper (VStr name) [name] d = Return RTrue.
Proof.
  intros H. cbn [findNextsHelper truthy].
  apply String.eqb_neq in H. rewrite H, String.eqb_refl. reflexivity.
Qed.

(** The search for a path returns what follows the first leaf the path
    names: the first-descendant set of the first follower that is not a
    dead end, and [true] when there is none. *)
Lemma search_first_match q :
  forall items p d, is_sequence items = true -> plain_path p = true ->
  first_match items q p ->
  findNextsHelper (VArr items) p d =
  Return (or_true (first_live (followers items q d))).
Proof.
  induction q as [ i | i k q' IH ]; intros items p d W Hplain Hfm;
    pose proof Hfm as (name & Hq & Hne & Hp & Hmin); cbn [leaf_at] in Hq.
  - destruct (nth_error items i) as [ [ | | | | s | | ] | ] eqn:Hi;
      try discriminate.
    injection Hq as ->. unfold path_to in Hp. cbn in Hp. subst p.
    rewrite findNextsHelper_arr.
    rewrite (scan_to_first items (Here i) [name] d (VStr name) W Hplain Hfm Hi).
    rewrite find_leaf_itself by assumption. cbn [bind index followers].
    apply scan_true. now apply is_sequence_skipn.
  - destruct (nth_error items i) as [ [ | | | | | | entries ] | ] eqn:Hi;
      try discriminate.
    destruct (prop entries k) as [ | | | | | sub | ] eqn:Ek; try discriminate.
    pose proof (is_sequence_nth _ _ _ W Hi) as Wn.
    assert (is_sequence sub = true) as Ws.
    { destruct (is_node_prop entries k Wn) as [U | (sub' & E' & Ws' & _)];
        rewrite Ek in *; [ discriminate | now injection E' as -> ]. }
    unfold path_to in Hp. cbn [breadcrumb app] in Hp. fold (path_to q' name) in Hp.
    destruct (path_to_cons q' name) as (p1 & p' & Hp'). rewrite Hp' in Hp. subst p.
    assert (first_match sub q' (p1 :: p')) as Hfm'.
    { exists name. repeat split; auto.
      intros q'' name'' Hq'' Hp'' Hb.
      apply (Hmin (Inside i k q'') name'').
      - cbn [leaf_at]. now rewrite Hi, Ek.
      - unfold path_to in *. cbn [breadcrumb app]. now rewrite Hp''.
      - cbn [before]. right. auto. }
    rewrite findNextsHelper_arr.
    rewrite (scan_to_first items (Inside i k q') _ d (VObj entries) W Hplain Hfm Hi).
    rewrite findNextsHelper_obj by exact Hplain.
    rewrite Ek, (IH sub _ _ Ws (plain_path_tail _ _ Hplain) Hfm').
    cbn [bind index followers]. rewrite Hi, Ek, first_live_app.
    destruct (first_live (followers sub q' (d ++ [k]))) as [ | ps0 pss ];
      cbn [or_true].
    + apply scan_true. now apply is_sequence_skipn.
    + apply scan_arr.
Qed.

Lemma spliced_or_true ps : spliced (or_true ps) = ps.
Proof. now destruct ps. Qed.

(** [findNexts] at the first leaf a path names. *)
Lemma findNexts_first_match items q p :
  is_tree (VArr items) = true -> plain_path p = true -> first_match items q p ->
  findNexts (VArr items) p = Return (first_live (followers items q [])).
Proof.
  intros W Hplain Hfm. unfold findNexts.
  destruct Hfm as (name & Hq & Hne & Hp & Hmin).
  destruct (path_to_cons q name) as (p0 & p' & E). rewrite E in Hp. subst p.
  rewrite (search_first_match q items (p0 :: p') [] W Hplain).
  - cbn [bind]. now rewrite spliced_or_true.
  - exists name. rewrite E. auto.
Qed.

(** *** Followers and the enclosing sequence *)

Lemma followers_split q :
  forall items d seq i, enclosing items q = Some (seq, i) ->
  followers items q d =
  map (pair (d ++ breadcrumb q)) (skipn (S i) seq) ++ enclosing_followers items q d.
Proof.
  induction q as [ j | j k q' IH ]; intros items d seq i E.
  - injection E as <- <-. cbn [followers breadcrumb enclosing_followers].
    now rewrite !app_nil_r.
  - cbn [enclosing] in E. cbn [followers breadcrumb enclosing_followers].
    destruct (nth_error items j) as [ [ | | | | | | entries ] | ]; try discriminate.
    destruct (prop entries k) as [ | | | | | sub | ]; try discriminate.
    rewrite (IH sub (d ++ [k]) seq i E), <- !app_assoc. reflexivity.
Qed.

Lemma skipn_nth_error {A} (l : list A) n x :
  nth_error l n = Some x -> skipn n l = x :: skipn (S n) l.
Proof.
  revert l. induction n as [ | n IH ]; intros [ | a l ] E; try discriminate.
  - now injection E as <-.
  - cbn [nth_error] in E. cbn [skipn]. rewrite (IH l E). reflexivity.
Qed.

Lemma skipn_nth_error_none {A} (l : list A) n :
  nth_error l n = None -> skipn n l = [].
Proof. intros E. apply skipn_all2. now apply nth_error_None. Qed.

Lemma descendants_prefixed x d p :
  In p (descendants x d) -> exists rest, p = d ++ rest /\ rest <> [].
Proof.
  unfold descendants. destruct (getNexts x d) as [ [ | | ps ] | e ] eqn:E;
    cbn [spliced]; try (intros []).
  intros Hin. eapply getNexts_prefixed; eauto.
Qed.

(** ** Next element in the same sequence *)

(** On the test tree [emptyDirs] the leaf [file1.js] is followed by the
    group set [{empty: []}], whose first-descendant set is empty, yet the
    resolver answers with [file2.js]. *)
Lemma next_sibling_dead_end_counterexample :
  let items := [VStr "file1.js"; dir "empty" []; VStr "file2.js"] in
  emptyDirs = VArr items /\
  is_tree emptyDirs = true /\
  leaf_at items (Here 0) = Some "file1.js" /\
  enclosing items (Here 0) = Some (items, 0) /\
  nth_error items 1 = Some (dir "empty" []) /\
  descendants (dir "empty" []) (breadcrumb (Here 0)) = [] /\
  findNexts emptyDirs (path_to (Here 0) "file1.js") = Return [["file2.js"]] /\
  findNexts emptyDirs (path_to (Here 0) "file1.js")
    <> Return (descendants (dir "empty" []) (breadcrumb (Here 0))).
Proof. cbv zeta. repeat split; try reflexivity. discriminate. Qed.

(** C1 (amended).  Let [q] be the first leaf in document order that the
    path [p] names, its name not being empty and no track name of [p]
    being the name of a method of [Object.prototype], let [seq] be its
    enclosing sequence and [i] its index there, and let [x] be the
    element at [i + 1].  If the first-descendant set of [x] under the
    breadcrumb of [q] is not empty, [findNexts] returns exactly that set,
    and each of its paths extends the breadcrumb. *)
Theorem next_sibling_resolved items q p seq i x :
  is_tree (VArr items) = true ->
  plain_path p = true ->
  first_match items q p ->
  enclosing items q = Some (seq, i) ->
  nth_error seq (S i) = Some x ->
  descendants x (breadcrumb q) <> [] ->
  findNexts (VArr items) p = Return (descendants x (breadcrumb q)) /\
  forall r, In r (descendants x (breadcrumb q)) ->
            exists rest, r = breadcrumb q ++ rest /\ rest <> [].
Proof.
  intros W Hplain Hfm He Hx Hlive. split.
  - rewrite (findNexts_first_match items q p W Hplain Hfm).
    rewrite (followers_split q items [] seq i He), (skipn_nth_error _ _ _ Hx).
    cbn [map app first_live].
    destruct (descendants x (breadcrumb q)); [ now destruct Hlive | reflexivity ].
  - intros r. apply descendants_prefixed.
Qed.

Lemma first_match_at_head items name :
  nth_error items 0 = Some (VStr name) -> name <> "" ->
  first_match items (Here 0) [name].
Proof.
  intros E Hne. exists name. cbn [leaf_at]. rewrite E. repeat split; auto.
  intros q' name' _ _ Hb. destruct q'; cbn in Hb; lia.
Qed.

Lemma next_sibling_resolved_witness :
  findNexts basic ["config.js"] = Return [["src"; "index.js"]].
Proof.
  refine (proj1 (next_sibling_resolved
            [VStr "config.js"; dir "src" [VStr "index.js"; VStr "utils.js"];
             VStr "readme.md"]
            (Here 0) ["config.js"] _ 0
            (dir "src" [VStr "index.js"; VStr "utils.js"]) _ _ _ _ _ _)).
  - reflexivity.
  - reflexivity.
  - apply first_match_at_head; [ reflexivity | discriminate ].
  - reflexivity.
  - reflexivity.
  - discriminate.
Defined.

(** Where the path names an earlier leaf as well, the earlier one counts:
    the second [a] is followed by [c], and the resolver answers with what
    follows the first [a]. *)
Lemma next_sibling_repeated_leaf :
  let items := [VStr "a"; VStr "b"; VStr "a"; VStr "c"] in
  leaf_at items (Here 2) = Some "a" /\
  nth_error items 3 = Some (VStr "c") /\
  findNexts (VArr items) (path_to (Here 2) "a") = Return [["b"]].
Proof. repeat split. Qed.

(** ** Backtracking *)

(** The leaf [a] is the last element of track [g]; the nearest enclosing
    level with a next element is the root, where [{e: []}] follows.  Its
    first-descendant set is empty, yet the resolver answers with [b]. *)
Lemma backtrack_dead_end_counterexample :
  let q := Inside 0 "g" (Here 0) in
  is_tree (VArr deadEndAfterGroup) = true /\
  leaf_at deadEndAfterGroup q = Some "a" /\
  enclosing deadEndAfterGroup q = Some ([VStr "a"], 0) /\
  nth_error [VStr "a"] 1 = None /\
  hd_error (enclosing_followers deadEndAfterGroup q []) = Some ([], dir "e" []) /\
  descendants (dir "e" []) [] = [] /\
  findNexts (VArr deadEndAfterGroup) (path_to q "a") = Return [["b"]] /\
  findNexts (VArr deadEndAfterGroup) (path_to q "a")
    <> Return (descendants (dir "e" []) []).
Proof. cbv zeta. repeat split; try reflexivity. discriminate. Qed.

(** C2 (amended).  Let [q] be the first leaf in document order that the
    path [p] names, its name not being empty and no track name of [p]
    being the name of a method of [Object.prototype], and let it be the
    last element of its enclosing sequence.  Then [findNexts] returns the
    first-descendant set of the first element that is not a dead end
    among the elements following at the enclosing levels, nearest level
    first and each under the breadcrumb of its level; in particular the
    set of the nearest such element when that one is not a dead end, and
    the empty list when no enclosing level has an element left. *)
Theorem backtrack_resolved items q p seq i :
  is_tree (VArr items) = true ->
  plain_path p = true ->
  first_match items q p ->
  enclosing items q = Some (seq, i) ->
  nth_error seq (S i) = None ->
  findNexts (VArr items) p = Return (first_live (enclosing_followers items q [])) /\
  (forall d x rest,
      enclosing_followers items q [] = (d, x) :: rest ->
      descendants x d <> [] ->
      findNexts (VArr items) p = Return (descendants x d)) /\
  (enclosing_followers items q [] = [] -> findNexts (VArr items) p = Return []).
Proof.
  intros W Hplain Hfm He Hlast.
  assert (findNexts (VArr items) p =
          Return (first_live (enclosing_followers items q []))) as E.
  { rewrite (findNexts_first_match items q p W Hplain Hfm).
    rewrite (followers_split q items [] seq i He).
    now rewrite (skipn_nth_error_none _ _ Hlast). }
  repeat split; [ exact E | | ].
  - intros d x rest Hf Hlive. rewrite E, Hf. cbn [first_live].
    destruct (descendants x d); [ now destruct Hlive | reflexivity ].
  - intros Hf. now rewrite E, Hf.
Qed.

Lemma first_match_in_head_group name sub rest k :
  name <> "" ->
  first_match (dir k (VStr name :: sub) :: rest) (Inside 0 k (Here 0)) [k; name].
Proof.
  intros Hne. exists name. cbn. rewrite String.eqb_refl. repeat split; auto.
  intros q' name' _ _ Hb.
  destruct q' as [ j | j k' [ j' | j' k'' q'' ] ]; cbn in Hb; lia.
Qed.

Lemma backtrack_resolved_witness :
  findNexts (VArr groupThenLeaf) ["g"; "a"] = Return [["b"]].
Proof.
  refine (proj1 (backtrack_resolved groupThenLeaf (Inside 0 "g" (Here 0))
                   ["g"; "a"] [VStr "a"] 0 _ _ _ _ _)).
  - reflexivity.
  - reflexivity.
  - apply first_match_in_head_group. discriminate.
  - reflexivity.
  - reflexivity.
Defined.

(** ** First descendants *)

Lemma fanOut_flat_map entries d :
  (forall k v, In (k, v) entries -> forall d', exists r, getNexts v d' = Return r) ->
  fanOut entries d =
  Return (flat_map (fun kv => descendants (snd kv) (d ++ [fst kv])) entries).
Proof.
  induction entries as [ | [k v] rest IH ]; intros H; [ reflexivity | ].
  cbn [fanOut flat_map fst snd]. unfold descendants at 1.
  destruct (H k v (or_introl eq_refl) (d ++ [k])) as [r ->].
  rewrite IH by (intros; eapply H; right; eauto). reflexivity.
Qed.

Lemma node_fanOut entries d :
  is_node (VObj entries) = true ->
  fanOut entries d =
  Return (flat_map (fun kv => descendants (snd kv) (d ++ [fst kv])) entries).
Proof.
  intros W. apply fanOut_flat_map. intros k v Hin d'.
  destruct (is_node_entry _ _ _ W Hin) as (sub & -> & Ws).
  apply tree_returns. now right.
Qed.

Lemma fanOut_In entries d nexts p :
  fanOut entries d = Return nexts ->
  In p nexts <->
  exists k v r, In (k, v) entries /\ getNexts v (d ++ [k]) = Return r /\
                In p (spliced r).
Proof.
  revert nexts. induction entries as [ | [k v] rest IH ]; intros nexts E.
  - injection E as <-. split; [ intros [] | intros (k & v & r & [] & _) ].
  - cbn [fanOut] in E.
    destruct (getNexts v (d ++ [k])) as [ r | e ] eqn:G; cbn [bind] in E;
      [ | discriminate ].
    destruct (fanOut rest d) as [ more | e ]; cbn [bind] in E; [ | discriminate ].
    injection E as <-. rewrite in_app_iff, (IH more eq_refl). split.
    + intros [Hp | (k' & v' & r' & Hin & G' & Hp)].
      * exists k, v, r. split; [ now left | auto ].
      * exists k', v', r'. split; [ now right | auto ].
    + intros (k' & v' & r' & [Heq | Hin] & G' & Hp).
      * injection Heq as <- <-. rewrite G in G'. injection G' as <-. now left.
      * right. eauto 6.
Qed.

Lemma fanOut_entry_returns entries d nexts k v :
  fanOut entries d = Return nexts -> In (k, v) entries ->
  exists r, getNexts v (d ++ [k]) = Return r.
Proof.
  revert nexts. induction entries as [ | [k' v'] rest IH ]; intros nexts E [].
  - injection H as -> ->. cbn [fanOut] in E.
    destruct (getNexts v (d ++ [k])); [ eauto | discriminate ].
  - cbn [fanOut] in E.
    destruct (getNexts v' (d ++ [k'])); cbn [bind] in E; [ | discriminate ].
    destruct (fanOut rest d) eqn:F; [ | discriminate ]. eauto.
Qed.

(** The paths [getNexts] yields are the breadcrumb followed by the
    leftmost leaves of the value. *)
Lemma getNexts_leftmost v :
  forall d r, getNexts v d = Return r ->
  forall p, In p (spliced r) <-> exists p', p = d ++ p' /\ leftmost v p'.
Proof.
  induction v as [ | | b | n | s | items IH | entries IH ] using value_ind;
    intros d r E p; try discriminate.
  - injection E as <-. cbn [spliced]. split.
    + intros [<- | []]. exists [s]. split; [ reflexivity | constructor ].
    + intros (p' & -> & L). inversion L; subst. now left.
  - destruct items as [ | x0 rest ].
    + injection E as <-. split; [ intros [] | ].
      intros (p' & _ & L). inversion L.
    + cbn [getNexts] in E. rewrite (IH x0 (or_introl eq_refl) d r E p). split.
      * intros (p' & -> & L). exists p'. split; [ reflexivity | now constructor ].
      * intros (p' & -> & L). inversion L; subst. eauto.
  - rewrite getNexts_obj in E.
    destruct (fanOut entries d) as [ nexts | e ] eqn:F; cbn [bind] in E;
      [ | discriminate ].
    injection E as <-. rewrite spliced_or_true, (fanOut_In _ _ _ p F). split.
    + intros (k & v & r & Hin & G & Hp).
      apply (IH k v Hin _ _ G) in Hp as (p' & -> & L).
      exists (k :: p'). rewrite <- app_assoc. split; [ reflexivity | ].
      econstructor; eauto.
    + intros (p' & -> & L). inversion L as [ | | es k v p'' Hin L' ]; subst.
      destruct (fanOut_entry_returns _ _ _ _ _ F Hin) as [r G].
      exists k, v, r. repeat split; auto.
      apply (IH k v Hin _ _ G). exists p''. rewrite <- app_assoc. auto.
Qed.

Lemma list_sum_zero l x : list_sum l = 0 -> In x l -> x = 0.
Proof.
  induction l as [ | a l IH ]; intros E []; cbn in E.
  - subst a. lia.
  - apply IH; [ unfold list_sum; lia | assumption ].
Qed.

(** Nothing is yielded where there is no leaf. *)
Lemma getNexts_no_leaves v :
  forall d r, getNexts v d = Return r -> leaf_count v = 0 -> r = RTrue.
Proof.
  induction v as [ | | b | n | s | items IH | entries IH ] using value_ind;
    intros d r E Z; try discriminate.
  - destruct items as [ | x0 rest ]; [ now injection E as <- | ].
    cbn [getNexts] in E. apply (IH x0 (or_introl eq_refl) d r E).
    cbn in Z. lia.
  - rewrite getNexts_obj in E.
    destruct (fanOut entries d) as [ nexts | e ] eqn:F; cbn [bind] in E;
      [ | discriminate ].
    injection E as <-. destruct nexts as [ | p ps ]; [ reflexivity | exfalso ].
    destruct (proj1 (fanOut_In _ _ _ p F) (or_introl eq_refl))
      as (k & v & r & Hin & G & Hp).
    rewrite (IH k v Hin _ _ G) in Hp; [ destruct Hp | ].
    cbn [leaf_count] in Z. apply (list_sum_zero _ _ Z).
    apply (in_map (fun kv => leaf_count (snd kv)) _ (k, v) Hin).
Qed.


Lemma descendants_empty d : descendants (VArr []) d = [].
Proof. reflexivity. Qed.

(** ** The empty path *)

(** The first element is a group set with the single track [a]; the track
    starts with a group set of two tracks, and two paths are returned for
    the one track. *)
Lemma leftmost_one_per_track_counterexample :
  let entries := [("a", VArr [twoTracks])] in
  let ps := [["a"; "b"; "p"]; ["a"; "c"; "q"]] in
  is_tree (VArr nestedFanOut) = true /\
  nestedFanOut = VObj entries :: [] /\
  findNexts (VArr nestedFanOut) [] = Return ps /\
  List.length ps <> List.length entries.
Proof. cbv zeta. repeat split; try reflexivity. discriminate. Qed.

(** C3 (amended).  For a navigation tree and the empty path, [findNexts]
    returns the empty list for the empty tree; the single path [[name]]
    when the first element is the leaf [name]; and, when the first
    element is a group set, the concatenation in track order of the
    first-descendant sets of its tracks, each under the track's name
    (one path for a track that starts with a leaf, none for a track that
    is a dead end, several for a track that starts with a group set of
    several live tracks).  The result is empty when the tree has no
    leaves, and its members are exactly the leftmost leaves of the tree. *)
Theorem empty_path_resolved items :
  is_tree (VArr items) = true ->
  (items = [] -> findNexts (VArr items) [] = Return []) /\
  (forall s rest, items = VStr s :: rest ->
                  findNexts (VArr items) [] = Return [[s]]) /\
  (forall entries rest, items = VObj entries :: rest ->
     findNexts (VArr items) [] =
     Return (flat_map (fun kv => descendants (snd kv) [fst kv]) entries) /\
     (forall k s tl, descendants (VArr (VStr s :: tl)) [k] = [[k; s]]) /\
     (forall k, descendants (VArr []) [k] = [])) /\
  (leaf_count (VArr items) = 0 -> findNexts (VArr items) [] = Return []) /\
  (exists ps, findNexts (VArr items) [] = Return ps /\
              forall p, In p ps <-> leftmost (VArr items) p).
Proof.
  intros W.
  assert (exists r, getNexts (VArr items) [] = Return r) as [r E]
    by (apply tree_returns; now right).
  split; [ | split; [ | split; [ | split ] ] ].
  - now intros ->.
  - now intros s rest ->.
  - intros entries rest ->. split; [ | split; reflexivity ].
    unfold findNexts. rewrite getNexts_cons.
    cbn [is_tree] in W. apply is_sequence_cons in W as [Wn _].
    rewrite getNexts_obj, (node_fanOut _ _ Wn). cbn [bind app].
    now rewrite spliced_or_true.
  - unfold findNexts. intros Z.
    rewrite E, (getNexts_no_leaves _ _ _ E Z). reflexivity.
  - unfold findNexts. rewrite E. cbn [bind].
    exists (spliced r). split; [ reflexivity | ].
    intros p. rewrite (getNexts_leftmost _ _ _ E p). split.
    + now intros (p' & -> & L).
    + intros L. now exists p.
Qed.

Lemma empty_path_resolved_witness :
  findNexts basic [] = Return [["config.js"]].
Proof.
  refine (proj1 (proj2 (empty_path_resolved
            [VStr "config.js"; dir "src" [VStr "index.js"; VStr "utils.js"];
             VStr "readme.md"] _)) "config.js" _ eq_refl).
  reflexivity.
Defined.

(** ** Fan-out over the tracks of a group set *)




(** ** The scenarios of the specification *)

(** C6.  On the tree [["config.js", {"src": ["index.js","utils.js"]},
    "readme.md"]] the resolver returns [[["src","index.js"]]] for
    [["config.js"]], [[["src","utils.js"]]] for [["src","index.js"]],
    [[["readme.md"]]] for [["src","utils.js"]], the empty list for
    [["readme.md"]] and [[["config.js"]]] for the empty path. *)
Theorem basic_scenarios :
  basic = VArr [VStr "config.js";
                VObj [("src", VArr [VStr "index.js"; VStr "utils.js"])];
                VStr "readme.md"] /\
  findNexts basic ["config.js"] = Return [["src"; "index.js"]] /\
  findNexts basic ["src"; "index.js"] = Return [["src"; "utils.js"]] /\
  findNexts basic ["src"; "utils.js"] = Return [["readme.md"]] /\
  findNexts basic ["readme.md"] = Return [] /\
  findNexts basic [] = Return [["config.js"]].
Proof. repeat split. Qed.

(** ** Paths that name nothing *)

(** C7.  The path [["constructor"; "x"]] names no leaf of the tree
    [[{"a": ["b"]}]], and the resolver raises "findNexts unhandled state"
    for it: the group set has no track [constructor], [xs[path[0]]] is
    the function every object inherits under that name, and the call on
    it ends in the [throw].  The same happens for every method of
    [Object.prototype] at the first group set that lacks a track of that
    name, whereas [getNexts], which goes by [Object.entries], sees own
    properties only. *)
Theorem unmatched_path_inherited_method :
  is_tree (VArr [dir "a" [VStr "b"]]) = true /\
  (forall q name, leaf_at [dir "a" [VStr "b"]] q = Some name ->
                  path_to q name <> ["constructor"; "x"]) /\
  findNexts (VArr [dir "a" [VStr "b"]]) ["constructor"; "x"]
    = Throw FindNextsUnhandledState /\
  (forall entries k p1 p' d,
      is_method k = true -> has_own entries k = false ->
      findNextsHelper (VObj entries) (k :: p1 :: p') d
        = Throw FindNextsUnhandledState).
Proof.
  split; [ reflexivity | split; [ | split; [ reflexivity | ] ] ].
  - intros [ i | i k q' ] name H E.
    + unfold path_to in E. cbn in E. discriminate E.
    + unfold path_to in E. cbn in E. injection E as -> E.
      cbn in H. destruct i as [ | i ]; [ discriminate H | ].
      destruct i; discriminate H.
  - intros entries k p1 p' d Hk Ho.
    rewrite findNextsHelper_lookup, Ho. unfold inherited. now rewrite Hk.
Qed.

(** X23.  For a navigation tree and a non-empty path that names no leaf
    of the tree and none of whose track names is the name of a method of
    [Object.prototype], [findNexts] returns the empty list and raises
    nothing; on a navigation tree it raises for no such path at all.  The
    shape mismatches met on the way count as not found: a path with
    further components at a leaf, and a single remaining component at a
    group set. *)
Theorem unmatched_path_empty items p :
  is_tree (VArr items) = true ->
  plain_path p = true ->
  p <> [] ->
  (forall q name, leaf_at items q = Some name -> path_to q name <> p) ->
  findNexts (VArr items) p = Return [] /\
  (forall p', plain_path p' = true ->
              exists ps, findNexts (VArr items) p' = Return ps) /\
  (forall s p0 p1 p' d,
      findNextsHelper (VStr s) (p0 :: p1 :: p') d = Return RFalse) /\
  (forall entries p0 d, findNextsHelper (VObj entries) [p0] d = Return RFalse).
Proof.
  intros W Hplain Hp Hno. split; [ | split; [ | split ] ].
  - destruct p as [ | p0 p' ]; [ now destruct Hp | ].
    unfold findNexts.
    destruct (tree_find_returns items (p0 :: p') [] W Hplain) as [r E].
    rewrite E.
    destruct r; [ reflexivity | exfalso | exfalso ];
      (destruct (search_names (VArr items)) as [_ Hs];
       edestruct (Hs items eq_refl W _ _ _ E) as (q & name & Hq & Hpq);
       [ discriminate | exact (Hno q name Hq Hpq) ]).
  - intros p' Hplain'. unfold findNexts.
    destruct (tree_returns (VArr items) (or_intror W)) as [Hg Hf].
    destruct p' as [ | p0 p'' ];
      [ destruct (Hg []) as [r ->]
      | destruct (Hf (p0 :: p'') [] Hplain') as [r ->] ];
      cbn [bind]; eauto.
  - intros s p0 p1 p' d. cbn. now destruct (negb _).
  - reflexivity.
Qed.

Lemma unmatched_path_empty_witness :
  findNexts basic ["missing.js"] = Return [].
Proof.
  refine (proj1 (unmatched_path_empty
            [VStr "config.js"; dir "src" [VStr "index.js"; VStr "utils.js"];
             VStr "readme.md"] ["missing.js"] _ _ _ _)).
  - reflexivity.
  - reflexivity.
  - discriminate.
  - intros [ i | i k q' ] name H E.
    + destruct i as [ | [ | [ | i ] ] ]; cbn in H; try discriminate;
        try (injection H as <-; discriminate E).
      destruct i; discriminate H.
    + unfold path_to in E. cbn in E. injection E as _ E.
      destruct (breadcrumb q'); discriminate E.
Defined.

(** ** Several leaves under one path *)

(** C10.  The path [[""]] names the first and the third leaf of
    [emptyNames]; what follows the first of them is [b], yet the resolver
    returns the empty list: the guard [if (!xs) return false] of
    [findNextsHelper] takes a leaf whose name is the empty string for a
    missing node, whereas [getNexts] returns such a leaf like any
    other. *)
Theorem first_occurrence_empty_name_lost :
  is_tree (VArr emptyNames) = true /\
  leaf_at emptyNames (Here 0) = Some "" /\ path_to (Here 0) "" = [""] /\
  leaf_at emptyNames (Here 2) = Some "" /\ path_to (Here 2) "" = [""] /\
  before (Here 0) (Here 2) /\
  first_live (followers emptyNames (Here 0) []) = [["b"]] /\
  findNexts (VArr emptyNames) [""] = Return [] /\
  findNexts (VArr emptyNames) [""]
    <> Return (first_live (followers emptyNames (Here 0) [])).
Proof. repeat split; try reflexivity; [ cbn; lia | discriminate ]. Qed.

(** X24.  When a path names more than one leaf, the leaves having a
    non-empty name and no track name of the path being the name of a
    method of [Object.prototype], [findNexts] returns what follows the
    first of them in document order.  In the loop over a sequence,
    elements that report [false] are passed over and the search goes on
    behind them; an element that reports an array ends the loop, whatever
    comes after it; and after an element that reports [true] the
    remaining elements are only asked for their first descendants. *)
Theorem first_occurrence_wins items q q2 name2 p :
  is_tree (VArr items) = true ->
  plain_path p = true ->
  first_match items q p ->
  leaf_at items q2 = Some name2 -> path_to q2 name2 = p -> q2 <> q ->
  findNexts (VArr items) p = Return (first_live (followers items q [])) /\
  (forall pre l d,
      (forall y, In y pre -> findNextsHelper y p d = Return RFalse) ->
      findNextsHelper (VArr (pre ++ l)) p d = findNextsHelper (VArr l) p d) /\
  (forall x post d ps,
      findNextsHelper x p d = Return (RArr ps) ->
      findNextsHelper (VArr (x :: post)) p d = Return (RArr ps)) /\
  (forall x post d,
      findNextsHelper x p d = Return RTrue -> is_sequence post = true ->
      findNextsHelper (VArr (x :: post)) p d =
      Return (or_true (first_live (map (pair d) post)))).
Proof.
  intros W Hplain Hfm _ _ _. split; [ now apply findNexts_first_match | ].
  destruct Hfm as (name & _ & _ & Hp & _).
  destruct (path_to_cons q name) as (p0 & p' & E). rewrite E in Hp. subst p.
  split; [ | split ].
  - intros pre l d Hpre. rewrite !findNextsHelper_arr. now apply scan_skip_false.
  - intros x post d ps Hx. rewrite findNextsHelper_arr. cbn [scan].
    rewrite Hx. cbn [bind]. apply scan_arr.
  - intros x post d Hx Wp. rewrite findNextsHelper_arr. cbn [scan].
    rewrite Hx. cbn [bind]. now apply scan_true.
Qed.

Lemma first_occurrence_wins_witness :
  findNexts (VArr repeatedGroup) ["g"; "a"] = Return [["m"]].
Proof.
  refine (proj1 (first_occurrence_wins repeatedGroup (Inside 0 "g" (Here 0))
                   (Inside 2 "g" (Here 0)) "a" ["g"; "a"] _ _ _ _ _ _)).
  - reflexivity.
  - reflexivity.
  - apply first_match_in_head_group. discriminate.
  - reflexivity.
  - reflexivity.
  - discriminate.
Defined.

(** ** Empty tracks *)

Lemma prop_absent entries k :
  existsb (String.eqb k) (map fst entries) = false -> prop entries k = VUndefined.
Proof.
  induction entries as [ | [k' v] rest IH ]; [ reflexivity | ].
  cbn [map fst existsb prop]. intros H. apply orb_false_elim in H as [Hk Hrest].
  rewrite String.eqb_sym, Hk. now apply IH.
Qed.

Lemma prop_prune_entries entries k :
  is_node (VObj entries) = true ->
  prop (prune_entries entries) k =
  match prop entries k with
  | VArr [] => VUndefined
  | v => prune v
  end.
Proof.
  induction entries as [ | [k' v] rest IH ]; intros W; [ reflexivity | ].
  destruct (is_node_entry _ k' v W (or_introl eq_refl)) as (sub & -> & _).
  assert (is_node (VObj rest) = true /\
          existsb (String.eqb k') (map fst rest) = false) as [Wr Hk'].
  { cbn [is_node map fst uniqueb forallb] in W |- *.
    apply andb_prop in W as [U F]. apply andb_prop in U as [U1 U2].
    apply andb_prop in F as [_ F]. rewrite U2, F.
    split; [ reflexivity | now apply negb_true_iff ]. }
  specialize (IH Wr). cbn [prop].
  destruct sub as [ | x tl ]; cbn [prune_entries prop].
  - destruct (k' =? k) eqn:Ek; [ | exact IH ].
    apply String.eqb_eq in Ek. subst k'.
    rewrite IH, (prop_absent _ _ Hk'). reflexivity.
  - destruct (k' =? k); [ reflexivity | exact IH ].
Qed.

Lemma scan_map_same (g : value -> value) l p d :
  (forall x, In x l -> getNexts (g x) d = getNexts x d /\
                       findNextsHelper (g x) p d = findNextsHelper x p d) ->
  forall fnd, scan (map g l) fnd p d = scan l fnd p d.
Proof.
  induction l as [ | x rest IH ]; intros H fnd; [ reflexivity | ].
  destruct (H x (or_introl eq_refl)) as [Hg Hf].
  assert (forall f, scan (map g rest) f p d = scan rest f p d) as IH'
    by (apply IH; intros; apply H; now right).
  cbn [map scan]. rewrite Hg, Hf. destruct fnd; [ | | reflexivity ].
  - destruct (findNextsHelper x p d); cbn [bind]; [ apply IH' | reflexivity ].
  - destruct (getNexts x d); cbn [bind]; [ apply IH' | reflexivity ].
Qed.

Lemma bind_Return {A} (m : outcome A) : (a <- m ;; Return a) = m.
Proof. now destruct m. Qed.

Lemma fanOut_prune entries d :
  (forall k v, In (k, v) entries ->
     (exists sub, v = VArr sub) /\ forall d', getNexts (prune v) d' = getNexts v d') ->
  fanOut (prune_entries entries) d = fanOut entries d.
Proof.
  induction entries as [ | [k v] rest IH ]; intros H; [ reflexivity | ].
  destruct (H k v (or_introl eq_refl)) as [(sub & ->) Hv].
  assert (fanOut (prune_entries rest) d = fanOut rest d) as IH'
    by (apply IH; intros k' v' Hin; apply (H k' v'); now right).
  destruct sub as [ | x tl ]; cbn [prune_entries fanOut].
  - rewrite IH'. cbn [getNexts bind spliced app]. now rewrite bind_Return.
  - now rewrite Hv, IH'.
Qed.

(** Removing the empty tracks changes neither the first descendants nor
    the search. *)
Lemma prune_same v :
  is_node v = true \/ is_tree v = true ->
  (forall d, getNexts (prune v) d = getNexts v d) /\
  (forall p d, plain_path p = true ->
               findNextsHelper (prune v) p d = findNextsHelper v p d).
Proof.
  induction v as [ | | b | n | s | items IH | entries IH ] using value_ind;
    intros [W | W]; try discriminate.
  - split; reflexivity.
  - cbn [is_tree] in W. cbn [prune]. split.
    + intros d. destruct items as [ | x0 rest ]; [ reflexivity | ].
      cbn [map]. rewrite !getNexts_cons.
      apply (IH x0); [ now left | left ]. now apply is_sequence_cons in W.
    + intros [ | p0 p' ] d Hp; [ now rewrite !findNextsHelper_nil | ].
      rewrite !findNextsHelper_arr. apply scan_map_same.
      intros x Hx. destruct (IH x Hx) as [Hg Hf];
        [ left; eapply is_sequence_In; eauto | auto ].
  - rewrite prune_obj.
    assert (forall k v, In (k, v) entries ->
              (exists sub, v = VArr sub) /\
              (forall d', getNexts (prune v) d' = getNexts v d') /\
              (forall p d', plain_path p = true ->
                            findNextsHelper (prune v) p d'
                            = findNextsHelper v p d')) as Hent.
    { intros k v Hin. destruct (is_node_entry _ _ _ W Hin) as (sub & -> & Ws).
      split; [ eauto | ]. apply (IH k _ Hin). now right. }
    split.
    + intros d. rewrite !getNexts_obj, fanOut_prune; [ reflexivity | ].
      intros k v Hin. destruct (Hent k v Hin) as (Hs & Hg & _). auto.
    + intros [ | p0 [ | p1 p' ] ] d Hp;
        [ now rewrite !findNextsHelper_nil | reflexivity | ].
      rewrite !findNextsHelper_obj by exact Hp.
      rewrite (prop_prune_entries _ _ W).
      destruct (is_node_prop entries p0 W) as [-> | (sub & E & _ & Hin)];
        [ reflexivity | ].
      rewrite E. destruct sub as [ | x tl ]; [ reflexivity | ].
      apply (Hent p0 _ Hin). exact (plain_path_tail _ _ Hp).
Qed.

(** With the empty track [e] at the head of track [g] the resolver passes
    over the whole of [g] and answers [b]; with that element absent it
    answers the leaf [a] of [g]. *)
Lemma empty_track_first_counterexample :
  is_tree (VArr emptyTrackFirst) = true /\
  emptyTrackFirst = [VStr "x"; dir "g" [dir "e" []; VStr "a"]; VStr "b"] /\
  emptyTrackAbsent = [VStr "x"; dir "g" [VStr "a"]; VStr "b"] /\
  findNexts (VArr emptyTrackFirst) ["x"] = Return [["b"]] /\
  findNexts (VArr emptyTrackAbsent) ["x"] = Return [["g"; "a"]] /\
  findNexts (VArr emptyTrackFirst) ["x"] <> findNexts (VArr emptyTrackAbsent) ["x"].
Proof. repeat split; try reflexivity. discriminate. Qed.

(** What [getNexts] does with a sequence whose first element is a dead
    end: the sequence is a dead end too, whatever its other elements. *)
Lemma dead_end_first_element x rest d :
  dead_end x d -> dead_end (VArr (x :: rest)) d.
Proof. intros H. exact H. Qed.

(** C4 (amended).  A track with zero children contributes nothing:
    removing every empty track from its group set changes no result of
    [findNexts], for a path none of whose track names is the name of a
    method of [Object.prototype], and in the fan-out of a group set an
    empty track yields no path.  During backtracking a following element
    that is a dead end (such as a group set with only empty tracks) is
    passed over and resolution goes on with the elements after it.  In
    the first descendants of a sequence only its first element counts: a
    sequence whose first element is a dead end is a dead end itself,
    whatever follows in it. *)
Theorem empty_track_skipped T p :
  is_tree T = true ->
  plain_path p = true ->
  findNexts (prune T) p = findNexts T p /\
  (forall k d, dead_end (VArr []) (d ++ [k]) /\ dead_end (dir k []) d) /\
  (forall items q d x rest,
      T = VArr items -> first_match items q p ->
      followers items q [] = (d, x) :: rest -> dead_end x d ->
      findNexts T p = Return (first_live rest)) /\
  (forall x rest d, dead_end x d -> dead_end (VArr (x :: rest)) d).
Proof.
  intros W Hplain. split; [ | split; [ | split ] ].
  - destruct (prune_same T (or_intror W)) as [Hg Hf].
    unfold findNexts. destruct p; [ now rewrite Hg | now rewrite Hf ].
  - intros k d. split; reflexivity.
  - intros items q d x rest -> Hfm Hf Hd.
    rewrite (findNexts_first_match items q p W Hplain Hfm), Hf.
    cbn [first_live]. unfold dead_end in Hd. now rewrite Hd.
  - intros x rest d. apply dead_end_first_element.
Qed.

Lemma empty_track_skipped_witness :
  findNexts (prune emptyDirs) ["file1.js"] = findNexts emptyDirs ["file1.js"].
Proof.
  refine (proj1 (empty_track_skipped emptyDirs ["file1.js"] _ _)).
  - reflexivity.
  - reflexivity.
Defined.

(** ** Identifiers at the output boundary *)

Lemma pop_nonempty r :
  r <> [] -> pop r = (Some (last r ""), removelast r).
Proof.
  intros H. destruct (exists_last H) as (front & file & ->).
  unfold pop. rewrite rev_unit, rev_involutive, last_last, removelast_last.
  reflexivity.
Qed.

Lemma entry_nonempty path_join opts r :
  r <> [] ->
  entry path_join opts r =
  Return (suffixed_id opts r,
          path_join (urlPrefix opts :: output_breadcrumb opts r ++ [last r ""])).
Proof.
  intros H. unfold entry, suffixed_id, output_breadcrumb.
  rewrite (pop_nonempty r H). now destruct (removelast r).
Qed.

Lemma entries_of_nonempty path_join opts nexts :
  (forall r, In r nexts -> r <> []) ->
  entries_of path_join opts nexts =
  Return (map (fun r => (suffixed_id opts r,
                         path_join (urlPrefix opts :: output_breadcrumb opts r
                                      ++ [last r ""]))) nexts).
Proof.
  induction nexts as [ | r rest IH ]; intros H; [ reflexivity | ].
  cbn [entries_of map]. rewrite entry_nonempty by (apply H; now left).
  rewrite IH by (intros; apply H; now right). reflexivity.
Qed.

(** With the default prefix the two identifiers are [next_page-a] and
    [next_page-b]: prefix and breadcrumb are joined by a hyphen, not by
    an underscore. *)
Lemma identifier_separator_counterexample :
  let nexts := [["a"; "x.html"]; ["b"; "y.html"]] in
  identifiers (String.concat "/") defaults nexts = ["next_page-a"; "next_page-b"] /\
  map (fun r => String.concat "_" (idPrefix defaults :: output_breadcrumb defaults r))
      nexts = ["next_page_a"; "next_page_b"] /\
  identifiers (String.concat "/") defaults nexts
    <> map (fun r => String.concat "_"
                       (idPrefix defaults :: output_breadcrumb defaults r)) nexts.
Proof. cbv zeta. repeat split; try reflexivity. discriminate. Qed.

(** C8 (amended).  For each resolved path the output boundary drops the
    trailing leaf component to get the breadcrumb and substitutes the
    default track name when the breadcrumb is empty.  The identifier is
    the prefix, a hyphen, and the breadcrumb components joined by
    underscores; when exactly one path was returned the identifier is the
    bare prefix. *)
Theorem output_identifiers path_join opts nexts :
  (forall r, In r nexts -> r <> []) ->
  (forall r, nexts = [r] -> identifiers path_join opts nexts = [idPrefix opts]) /\
  (2 <= List.length nexts ->
   identifiers path_join opts nexts = map (suffixed_id opts) nexts) /\
  (forall r, suffixed_id opts r =
             (idPrefix opts ++ "-" ++ String.concat "_" (output_breadcrumb opts r))%string) /\
  (forall r, output_breadcrumb opts r =
             match removelast r with
             | [] => [shared opts]
             | crumbs => crumbs
             end).
Proof.
  intros H. split; [ | split; [ | split; reflexivity ] ].
  - intros r ->. unfold identifiers, format.
    rewrite (entries_of_nonempty _ _ _ H). reflexivity.
  - intros Hlen. unfold identifiers, format.
    rewrite (entries_of_nonempty _ _ _ H).
    destruct nexts as [ | r1 [ | r2 rest ] ]; cbn in Hlen; try lia.
    cbn [bind map fst]. do 2 f_equal. now rewrite map_map.
Qed.

Lemma output_identifiers_witness :
  identifiers (String.concat "/") defaults [["src"; "index.js"]] = ["next_page"].
Proof.
  refine (proj1 (output_identifiers (String.concat "/") defaults
                   [["src"; "index.js"]] _) _ eq_refl).
  intros r [<- | []]. discriminate.
Defined.

(** ** Termination and call depth *)

Lemma obind_Some {A B} (m : outcome A) (k : A -> outcome B) :
  obind (Some m) (fun a => Some (k a)) = Some (bind m k).
Proof. now destruct m. Qed.

Lemma list_max_In {A} (f : A -> nat) l x :
  In x l -> f x <= list_max (map f l).
Proof.
  induction l as [ | a l IH ]; intros []; cbn [map list_max fold_right].
  - subst a. apply Nat.le_max_l.
  - etransitivity; [ now apply IH | apply Nat.le_max_r ].
Qed.

(** The calls made on a value are made on values strictly less deep. *)
Lemma element_depth items x : In x items -> depth x < depth (VArr items).
Proof. intros H. cbn [depth]. apply Nat.lt_succ_r. now apply list_max_In. Qed.

Lemma entry_depth entries k v : In (k, v) entries -> depth v < depth (VObj entries).
Proof.
  intros H. cbn [depth]. apply Nat.lt_succ_r.
  apply (list_max_In (fun kv => depth (snd kv)) entries (k, v) H).
Qed.

Lemma prop_depth entries k : depth (prop entries k) < depth (VObj entries).
Proof.
  destruct (prop_in entries k) as [-> | H]; [ cbn; lia | ].
  eapply entry_depth; eauto.
Qed.

Lemma fanOut_with_enough get entries d :
  (forall k v, In (k, v) entries -> forall d', get v d' = Some (getNexts v d')) ->
  fanOut_with get entries d = Some (fanOut entries d).
Proof.
  induction entries as [ | [k v] rest IH ]; intros H; [ reflexivity | ].
  cbn [fanOut_with fanOut]. rewrite (H k v (or_introl eq_refl)).
  rewrite IH by (intros k' v' Hin; apply (H k' v'); now right).
  destruct (getNexts v (d ++ [k])); cbn [obind bind]; [ | reflexivity ].
  now destruct (fanOut rest d).
Qed.

Lemma scan_with_enough find get l p d :
  (forall x, In x l -> find x p d = Some (findNextsHelper x p d) /\
                       get x d = Some (getNexts x d)) ->
  forall fnd, scan_with find get l fnd p d = Some (scan l fnd p d).
Proof.
  induction l as [ | x rest IH ]; intros H fnd; [ reflexivity | ].
  assert (forall f, scan_with find get rest f p d = Some (scan rest f p d)) as IH'
    by (apply IH; intros; apply H; now right).
  destruct (H x (or_introl eq_refl)) as [Hf Hg].
  cbn [scan_with scan]. destruct fnd; [ | | reflexivity ].
  - rewrite Hf. destruct (findNextsHelper x p d); cbn [obind bind]; auto.
  - rewrite Hg. destruct (getNexts x d); cbn [obind bind]; auto.
Qed.

Lemma getNexts_fuel_enough v :
  forall fuel d, depth v < fuel -> getNexts_fuel fuel v d = Some (getNexts v d).
Proof.
  induction v as [ | | b | n | s | items IH | entries IH ] using value_ind;
    intros [ | fuel ] d H; try lia; try reflexivity.
  - destruct items as [ | x0 rest ]; [ reflexivity | ].
    cbn [getNexts_fuel]. rewrite getNexts_cons.
    apply IH; [ now left | ].
    pose proof (element_depth (x0 :: rest) x0 (or_introl eq_refl)). lia.
  - cbn [getNexts_fuel]. rewrite getNexts_obj, fanOut_with_enough.
    + apply obind_Some.
    + intros k v Hin d'. apply (IH k v Hin).
      pose proof (entry_depth _ _ _ Hin). lia.
Qed.

(** Two frames are enough for what an inherited property leads to. *)
Lemma inherited_fuel_enough fuel key rest :
  2 <= fuel -> inherited_fuel fuel key rest = Some (inherited key rest).
Proof.
  destruct fuel as [ | [ | fuel ] ]; try lia. intros _.
  unfold inherited_fuel, inherited. destruct (is_method key); [ reflexivity | ].
  destruct (key =? "__proto__"); [ | reflexivity ].
  destruct rest as [ | q0 [ | q1 rest ] ]; try reflexivity.
  now destruct (is_method q0).
Qed.

Lemma findNextsHelper_fuel_enough v :
  forall fuel p d, depth v + 1 < fuel ->
  findNextsHelper_fuel fuel v p d = Some (findNextsHelper v p d).
Proof.
  induction v as [ | | b | n | s | items IH | entries IH ] using value_ind;
    intros [ | fuel ] p d H; try lia;
    try (destruct p as [ | p0 [ | p1 p' ] ]; cbn;
         try destruct (negb _); reflexivity).
  - cbn [findNextsHelper_fuel truthy negb].
    destruct p as [ | p0 p' ]; [ now rewrite findNextsHelper_nil | ].
    rewrite findNextsHelper_arr. apply scan_with_enough.
    intros x Hx. pose proof (element_depth _ _ Hx).
    split; [ apply (IH x Hx) | apply getNexts_fuel_enough ]; lia.
  - cbn [findNextsHelper_fuel truthy negb].
    destruct p as [ | p0 [ | p1 p' ] ];
      [ now rewrite findNextsHelper_nil | reflexivity | ].
    rewrite findNextsHelper_lookup.
    destruct (has_own entries p0) eqn:Ho.
    + pose proof (prop_depth entries p0) as Hd.
      destruct (prop_in entries p0) as [U | Hin].
      * rewrite U. destruct fuel; [ cbn [depth] in H; lia | reflexivity ].
      * apply (IH p0 _ Hin). lia.
    + apply inherited_fuel_enough. cbn [depth] in H. lia.
Qed.

(** C9.  [findNexts] is a total function of the tree and the path, and a
    call stack of depth [depth xs + 3] is enough for it: with at least
    that much fuel the depth-bounded functions return, and return what
    [findNexts] returns, be it a list or a [throw].  Every call that
    [getNexts] or [findNextsHelper] makes on an array or an object is on
    an element or on an own property value, strictly less deep than the
    value itself, or on what an inherited property leads to, with a
    shorter path and two frames at most. *)
Theorem call_depth_bounded xs p fuel :
  depth xs + 3 <= fuel ->
  findNexts_fuel fuel xs p = Some (findNexts xs p) /\
  (forall items x, xs = VArr items -> In x items -> depth x < depth xs) /\
  (forall entries k v, xs = VObj entries -> In (k, v) entries ->
                       depth v < depth xs) /\
  (forall entries k, xs = VObj entries -> depth (prop entries k) < depth xs) /\
  (forall key rest, inherited_fuel 2 key rest = Some (inherited key rest)).
Proof.
  intros H. split; [ | split; [ | split; [ | split ] ] ].
  - destruct fuel as [ | fuel ]; [ lia | ].
    unfold findNexts_fuel, findNexts. destruct p as [ | p0 p' ].
    + rewrite getNexts_fuel_enough by lia. apply obind_Some.
    + rewrite findNextsHelper_fuel_enough by lia. apply obind_Some.
  - intros items x ->. apply element_depth.
  - intros entries k v ->. apply entry_depth.
  - intros entries k ->. apply prop_depth.
  - intros key rest. now apply inherited_fuel_enough.
Qed.

Lemma call_depth_bounded_witness :
  findNexts_fuel 6 basic ["src"; "utils.js"] = Some (Return [["readme.md"]]).
Proof.
  refine (proj1 (call_depth_bounded basic ["src"; "utils.js"] 6 _)).
  cbn. lia.
Defined.

(** The fuel does count frames: one frame less than the bound of
    [call_depth_bounded] is not enough when the path leads through
    [Object.prototype], and two frames less are not enough on [basic]. *)
Lemma call_depth_needed :
  depth (VArr [VObj []]) = 2 /\
  findNexts_fuel 4 (VArr [VObj []]) ["__proto__"; "a"; "b"] = None /\
  findNexts_fuel 5 (VArr [VObj []]) ["__proto__"; "a"; "b"] = Some (Return []) /\
  depth basic = 3 /\ findNexts_fuel 4 basic ["src"; "utils.js"] = None.
Proof. repeat split; reflexivity. Qed.

(** ** What the resolver hands to the output boundary *)

Lemma scan_paths_nonempty l p d :
  (forall x ps, In x l -> findNextsHelper x p d = Return (RArr ps) ->
                forall r, In r ps -> r <> []) ->
  forall fnd ps,
    (forall ps0, fnd = RArr ps0 -> forall r, In r ps0 -> r <> []) ->
    scan l fnd p d = Return (RArr ps) -> forall r, In r ps -> r <> [].
Proof.
  induction l as [ | x rest IH ]; intros Hl fnd ps Hfnd E.
  - injection E as ->. now apply Hfnd.
  - assert (forall f ps', (forall ps0, f = RArr ps0 -> forall r, In r ps0 -> r <> []) ->
              scan rest f p d = Return (RArr ps') -> forall r, In r ps' -> r <> [])
      as IH' by (apply IH; intros y ps' Hy; apply Hl; now right).
    cbn [scan] in E. destruct fnd as [ | | ps0 ].
    + destruct (findNextsHelper x p d) as [ f | e ] eqn:F; cbn [bind] in E;
        [ | discriminate ].
      apply (IH' f ps); [ | exact E ].
      intros ps1 ->. now apply (Hl x ps1 (or_introl eq_refl)).
    + destruct (getNexts x d) as [ f | e ] eqn:G; cbn [bind] in E;
        [ | discriminate ].
      apply (IH' f ps); [ | exact E ].
      intros ps1 -> r Hr.
      destruct (getNexts_prefixed _ _ _ _ G Hr) as (tl & -> & Htl).
      intros Z. apply app_eq_nil in Z as [_ Z]. now destruct Htl.
    + injection E as <-. now apply Hfnd.
Qed.

Lemma find_paths_nonempty v :
  forall p d ps, findNextsHelper v p d = Return (RArr ps) ->
  forall r, In r ps -> r <> [].
Proof.
  induction v as [ | | b | n | s | items IH | entries IH ] using value_ind;
    intros p d ps E;
    try (destruct p as [ | p0 [ | p1 p' ] ]; cbn in E;
         repeat match type of E with
                | context [if ?c then _ else _] => destruct c
                end; discriminate).
  - destruct p as [ | p0 p' ];
      [ rewrite findNextsHelper_nil in E; discriminate | ].
    rewrite findNextsHelper_arr in E.
    apply (scan_paths_nonempty items (p0 :: p') d) with (fnd := RFalse).
    + intros x ps' Hx. now apply (IH x Hx).
    + discriminate.
    + exact E.
  - destruct p as [ | p0 [ | p1 p' ] ];
      [ rewrite findNextsHelper_nil in E; discriminate | discriminate | ].
    rewrite findNextsHelper_lookup in E.
    destruct (has_own entries p0);
      [ | apply inherited_not_found in E; discriminate ].
    destruct (prop_in entries p0) as [U | Hin].
    + rewrite U in E. discriminate.
    + now apply (IH p0 _ Hin _ _ _ E).
Qed.

(** Every path [findNexts] returns has a last component for the output
    boundary to drop. *)
Lemma findNexts_paths_nonempty xs p ps :
  findNexts xs p = Return ps -> forall r, In r ps -> r <> [].
Proof.
  unfold findNexts. destruct p as [ | p0 p' ].
  - destruct (getNexts xs []) as [ [ | | ps' ] | e ] eqn:G; cbn [bind spliced];
      intros E; try discriminate; injection E as <-; try (intros r []).
    intros r Hr. destruct (getNexts_prefixed _ _ _ _ G Hr) as (tl & -> & Htl).
    exact Htl.
  - destruct (findNextsHelper xs (p0 :: p') []) as [ [ | | ps' ] | e ] eqn:F;
      cbn [bind spliced]; intros E; try discriminate; injection E as <-;
      try (intros r []).
    now apply (find_paths_nonempty _ _ _ _ F).
Qed.

(** * Beyond the resolver's contract *)

(** ** The resolver returns pages of the tree *)

Lemma leftmost_leaf_path v p : leftmost v p -> leaf_path v p.
Proof.
  induction 1; [ constructor | | econstructor; eauto ].
  apply leaf_path_item with x; [ now left | assumption ].
Qed.

Lemma getNexts_leaf_path v d ps r :
  getNexts v d = Return (RArr ps) -> In r ps ->
  exists r', r = d ++ r' /\ leaf_path v r'.
Proof.
  intros E Hr. apply (getNexts_leftmost v d _ E r) in Hr as (r' & -> & L).
  exists r'. split; [ reflexivity | now apply leftmost_leaf_path ].
Qed.

Lemma scan_leaf_path items l p d :
  (forall x, In x l -> In x items) ->
  (forall x ps r, In x l -> findNextsHelper x p d = Return (RArr ps) -> In r ps ->
                  exists r', r = d ++ r' /\ leaf_path x r') ->
  forall fnd ps,
    (forall ps0 r, fnd = RArr ps0 -> In r ps0 ->
                   exists r', r = d ++ r' /\ leaf_path (VArr items) r') ->
    scan l fnd p d = Return (RArr ps) ->
    forall r, In r ps -> exists r', r = d ++ r' /\ leaf_path (VArr items) r'.
Proof.
  induction l as [ | x rest IH ]; intros Hin Hfind fnd ps Hfnd E r Hr.
  - injection E as ->. eauto.
  - assert (In x items) as Hx by (apply Hin; now left).
    assert (forall f ps',
              (forall ps0 r0, f = RArr ps0 -> In r0 ps0 ->
                              exists r', r0 = d ++ r' /\ leaf_path (VArr items) r') ->
              scan rest f p d = Return (RArr ps') ->
              forall r0, In r0 ps' ->
                         exists r', r0 = d ++ r' /\ leaf_path (VArr items) r') as IH'.
    { apply IH; [ intros y Hy; apply Hin; now right | ].
      intros y ps' r0 Hy. apply Hfind. now right. }
    cbn [scan] in E. destruct fnd as [ | | ps0 ].
    + destruct (findNextsHelper x p d) as [ f | e ] eqn:F; cbn [bind] in E;
        [ | discriminate ].
      apply (IH' f ps); auto. intros ps1 r1 -> Hr1.
      destruct (Hfind x ps1 r1 (or_introl eq_refl) F Hr1) as (r' & -> & L).
      exists r'. split; [ reflexivity | now apply leaf_path_item with x ].
    + destruct (getNexts x d) as [ f | e ] eqn:G; cbn [bind] in E;
        [ | discriminate ].
      apply (IH' f ps); auto. intros ps1 r1 -> Hr1.
      destruct (getNexts_leaf_path _ _ _ _ G Hr1) as (r' & -> & L).
      exists r'. split; [ reflexivity | now apply leaf_path_item with x ].
    + injection E as <-. eauto.
Qed.

Lemma find_leaf_path v :
  forall p d ps r, findNextsHelper v p d = Return (RArr ps) -> In r ps ->
  exists r', r = d ++ r' /\ leaf_path v r'.
Proof.
  induction v as [ | | b | n | s | items IH | entries IH ] using value_ind;
    intros p d ps r E;
    try (destruct p as [ | p0 [ | p1 p' ] ]; cbn in E;
         repeat match type of E with
                | context [if ?c then _ else _] => destruct c
                end; discriminate).
  - destruct p as [ | p0 p' ];
      [ rewrite findNextsHelper_nil in E; discriminate | ].
    rewrite findNextsHelper_arr in E.
    apply (scan_leaf_path items items (p0 :: p') d) with (fnd := RFalse) (ps := ps);
      auto; [ | discriminate ].
    intros x ps' r' Hx. now apply (IH x Hx).
  - destruct p as [ | p0 [ | p1 p' ] ];
      [ rewrite findNextsHelper_nil in E; discriminate | discriminate | ].
    rewrite findNextsHelper_lookup in E.
    destruct (has_own entries p0);
      [ | apply inherited_not_found in E; discriminate ].
    destruct (prop_in entries p0) as [U | Hin];
      [ rewrite U in E; discriminate | ].
    intros Hr. destruct (IH p0 _ Hin _ _ _ _ E Hr) as (r' & -> & L).
    exists (p0 :: r'). rewrite <- app_assoc. split; [ reflexivity | ].
    econstructor; eauto.
Qed.

(** X1.  Whatever the value and the path, every path [findNexts] returns
    is the list of track names and the name of a leaf that occurs in the
    value: the resolver never invents a page. *)
Theorem findNexts_sound xs p ps r :
  findNexts xs p = Return ps -> In r ps -> leaf_path xs r.
Proof.
  unfold findNexts. destruct p as [ | p0 p' ].
  - destruct (getNexts xs []) as [ [ | | ps' ] | e ] eqn:G; cbn [bind spliced];
      intros E; try discriminate; injection E as <-; try (intros []).
    intros Hr. now destruct (getNexts_leaf_path _ _ _ _ G Hr) as (r' & -> & L).
  - destruct (findNextsHelper xs (p0 :: p') []) as [ [ | | ps' ] | e ] eqn:F;
      cbn [bind spliced]; intros E; try discriminate; injection E as <-;
      try (intros []).
    intros Hr. now destruct (find_leaf_path _ _ _ _ _ F Hr) as (r' & -> & L).
Qed.

Lemma findNexts_sound_witness : leaf_path basic ["src"; "index.js"].
Proof.
  refine (findNexts_sound basic ["config.js"] [["src"; "index.js"]] _ _ _).
  - reflexivity.
  - now left.
Defined.

(** ** The wrapper *)

Lemma split_not_nil sep s : split sep s <> [].
Proof.
  destruct s as [ | c rest ]; cbn [split]; [ discriminate | ].
  destruct (Ascii.eqb c sep); [ discriminate | ].
  destruct (split sep rest); discriminate.
Qed.

(** [parts.join(sep)] gives the string back. *)
Lemma split_concat sep s :
  String.concat (String sep EmptyString) (split sep s) = s.
Proof.
  induction s as [ | c rest IH ]; [ reflexivity | ]. cbn [split].
  destruct (Ascii.eqb c sep) eqn:E.
  - apply Ascii.eqb_eq in E. subst c.
    pose proof (split_not_nil sep rest).
    cbn [String.concat]. destruct (split sep rest) as [ | part parts ];
      [ contradiction | ].
    rewrite IH. reflexivity.
  - destruct (split sep rest) as [ | part parts ] eqn:S;
      [ now destruct (split_not_nil sep rest) | ].
    rewrite <- IH. cbn [String.concat]. destruct parts; reflexivity.
Qed.

Lemma tree_findNexts_returns T p :
  is_tree T = true -> plain_path p = true ->
  exists ps, findNexts T p = Return ps.
Proof.
  intros W Hp. unfold findNexts.
  destruct (tree_returns T (or_intror W)) as [Hg Hf].
  destruct p as [ | p0 p' ];
    [ destruct (Hg []) as [r ->] | destruct (Hf (p0 :: p') [] Hp) as [r ->] ];
    cbn [bind]; eauto.
Qed.

Lemma format_resolved path_join opts xs p nexts :
  findNexts xs p = Return nexts -> nexts <> [] ->
  format path_join opts nexts =
  Return (match nexts with
          | [r] => [(idPrefix opts, path_join (urlPrefix opts :: page_components opts r))]
          | _ => map (fun r => (suffixed_id opts r,
                                path_join (urlPrefix opts :: page_components opts r)))
                     nexts
          end).
Proof.
  intros E Hne. pose proof (findNexts_paths_nonempty _ _ _ E) as Hp.
  unfold format. destruct nexts as [ | r1 rest ]; [ now destruct Hne | ].
  rewrite (entries_of_nonempty _ _ _ Hp). destruct rest; reflexivity.
Qed.

(** X2.  Whenever the resolver returns at least one path, the wrapper
    returns one [[id, fp]] pair per path, in the same order, each [fp]
    being [path.join] of the URL prefix, the breadcrumb (or the default
    track) and the file: formatting never fails on what the resolver
    returns, because none of its paths is empty. *)
Theorem main_one_entry_per_path path_join sep opts navigation currentPage nexts :
  findNexts navigation (currentPageParts sep opts currentPage) = Return nexts ->
  nexts <> [] ->
  exists entries,
    main path_join sep opts navigation currentPage = Return entries /\
    List.length entries = List.length nexts /\
    map snd entries =
    map (fun r => path_join (urlPrefix opts :: page_components opts r)) nexts.
Proof.
  intros E Hne. unfold main. rewrite E. cbn [bind].
  rewrite (format_resolved _ _ _ _ _ E Hne). eexists. split; [ reflexivity | ].
  destruct nexts as [ | r1 [ | r2 rest ] ]; [ now destruct Hne | split; reflexivity | ].
  now rewrite length_map, map_map.
Qed.

Lemma main_one_entry_per_path_witness :
  exists entries,
    main slash_join "/" defaults basic "config.js" = Return entries /\
    List.length entries = 1 /\
    map snd entries = ["src/index.js"].
Proof.
  refine (main_one_entry_per_path slash_join "/"%char defaults basic
            "config.js" [["src"; "index.js"]] _ _).
  - reflexivity.
  - discriminate.
Defined.

(** X3.  On a navigation tree, for a current page none of whose
    components before the last is the name of a method of
    [Object.prototype], the wrapper has two outcomes only: a non-empty
    list of pairs, or the error "Could not find next page"; the latter
    exactly when the resolver returns the empty list.  It does not end in
    an unhandled state. *)
Theorem main_on_tree path_join sep opts T currentPage :
  is_tree T = true ->
  plain_path (currentPageParts sep opts currentPage) = true ->
  ((exists entries, main path_join sep opts T currentPage = Return entries /\
                    entries <> []) \/
   main path_join sep opts T currentPage = Throw CouldNotFindNextPage) /\
  (main path_join sep opts T currentPage = Throw CouldNotFindNextPage <->
   findNexts T (currentPageParts sep opts currentPage) = Return []).
Proof.
  intros W Hplain.
  destruct (tree_findNexts_returns T (currentPageParts sep opts currentPage)
              W Hplain) as [nexts E].
  unfold main. rewrite E. cbn [bind].
  destruct nexts as [ | r1 rest ].
  - split; [ now right | split; reflexivity ].
  - rewrite (format_resolved _ _ _ _ _ E) by discriminate. split.
    + left. eexists. split; [ reflexivity | ]. destruct rest; discriminate.
    + split; discriminate.
Qed.

Lemma main_on_tree_witness :
  main slash_join "/" defaults basic "readme.md"
    = Throw CouldNotFindNextPage <->
  findNexts basic (currentPageParts "/" defaults "readme.md") = Return [].
Proof.
  refine (proj2 (main_on_tree slash_join "/"%char defaults basic
                   "readme.md" _ _)).
  - reflexivity.
  - reflexivity.
Defined.

Lemma scan_all_false l p d :
  (forall x, In x l -> findNextsHelper x p d = Return RFalse) ->
  scan l RFalse p d = Return RFalse.
Proof.
  intros H. rewrite <- (app_nil_r l). now rewrite scan_skip_false.
Qed.

Lemma node_empty_name x d :
  is_node x = true -> findNextsHelper x [""] d = Return RFalse.
Proof.
  destruct x; try discriminate; intros _; cbn; [ | reflexivity ].
  destruct (s =? ""); reflexivity.
Qed.

(** X4.  An empty current page is never resolved: it is searched as the
    path [[""]], which no leaf answers, so on a navigation tree the
    wrapper reports "Could not find next page" (the default track name
    not being empty).  The first page of the tree is what the wrapper
    returns when the current page is the default track name alone. *)
Theorem main_empty_current_page path_join sep opts T :
  is_tree T = true -> shared opts <> "" ->
  main path_join sep opts T "" = Throw CouldNotFindNextPage /\
  (forall currentPage, split sep currentPage = [shared opts] ->
     main path_join sep opts T currentPage =
     format path_join opts (descendants T [])).
Proof.
  intros W Hs. split.
  - unfold main, currentPageParts. cbn [split shift_shared].
    apply String.eqb_neq in Hs. rewrite String.eqb_sym, Hs.
    destruct T as [ | | | | | items | ]; try discriminate.
    unfold findNexts. rewrite findNextsHelper_arr, scan_all_false; [ reflexivity | ].
    intros x Hx. apply node_empty_name. eapply is_sequence_In; eauto.
  - intros currentPage E. unfold main, currentPageParts. rewrite E.
    cbn [shift_shared]. rewrite String.eqb_refl. unfold findNexts, descendants.
    destruct (tree_returns T (or_intror W)) as [Hg _].
    destruct (Hg []) as [r ->]. reflexivity.
Qed.

Lemma main_empty_current_page_witness :
  main slash_join "/" defaults basic "" = Throw CouldNotFindNextPage.
Proof.
  refine (proj1 (main_empty_current_page slash_join "/"%char defaults
                   basic _ _)).
  - reflexivity.
  - discriminate.
Defined.

(** X5.  The components the wrapper joins into the page path lead back to
    the page: with a leading default track name dropped, as the wrapper
    does with its own input, they are the resolved path again, provided
    the path does not start with a track that bears the default track
    name.  For such a track the name is dropped and the rest is left. *)
Theorem page_components_round_trip path_join opts r :
  r <> [] ->
  entry path_join opts r =
    Return (suffixed_id opts r, path_join (urlPrefix opts :: page_components opts r)) /\
  ((forall k rest, r = k :: rest -> rest <> [] -> k <> shared opts) ->
   shift_shared opts (page_components opts r) = r) /\
  (forall rest, r = shared opts :: rest -> rest <> [] ->
                shift_shared opts (page_components opts r) = rest).
Proof.
  intros Hr. split; [ now apply entry_nonempty | ].
  pose proof (app_removelast_last "" Hr) as Hsplit.
  unfold page_components, output_breadcrumb.
  destruct (removelast r) as [ | k crumbs ] eqn:Hrm.
  - cbn [app] in Hsplit. split.
    + intros _. cbn [app shift_shared]. rewrite String.eqb_refl.
      now rewrite Hsplit at 2.
    + intros rest -> Hrest. destruct rest; [ now destruct Hrest | discriminate ].
  - cbn [app] in Hsplit |- *. rewrite <- Hsplit. split.
    + intros Hk. destruct r as [ | k' rest ]; [ now destruct Hr | ].
      cbn [shift_shared]. destruct (k' =? shared opts) eqn:E; [ | reflexivity ].
      apply String.eqb_eq in E. exfalso.
      apply (Hk k' rest eq_refl); [ | exact E ].
      intros ->. discriminate.
    + intros rest -> _. cbn [shift_shared]. now rewrite String.eqb_refl.
Qed.

Lemma page_components_round_trip_witness :
  shift_shared defaults (page_components defaults ["config.js"]) = ["config.js"].
Proof.
  refine (proj1 (proj2 (page_components_round_trip slash_join defaults
                          ["config.js"] _)) _).
  - discriminate.
  - intros k rest E Hrest. injection E as _ <-. now destruct Hrest.
Defined.

(** ** Listing the pages *)

Section ListingFacts.

Variable path_join : list string -> string.
Variable opts : ListPages.options.

#[local] Abbreviation extractPages := (ListPages.extractPages path_join opts).
#[local] Abbreviation extractItem := (ListPages.extractItem path_join opts).
#[local] Abbreviation page_line := (ListPages.page_line path_join opts).
#[local] Abbreviation track_path := (ListPages.track_path path_join).

Lemma leaf_path_not_nil v p : leaf_path v p -> p <> [].
Proof. induction 1; [ discriminate | assumption | discriminate ]. Qed.

Lemma extractPages_arr l trackPath :
  extractPages (VArr l) trackPath =
  fold_right (fun item rest => ListPages.and_then (extractItem item trackPath) rest)
             ListPages.done l.
Proof.
  cbn [ListPages.extractPages].
  induction l as [ | item rest IH ]; [ reflexivity | ].
  cbn [fold_right]. rewrite <- IH. f_equal.
  destruct item as [ | | | | | elements | entries ]; try reflexivity.
  - cbn [ListPages.extractItem]. generalize 0.
    induction elements as [ | v more IHm ]; intros i; [ reflexivity | ].
    cbn [List.length seq map combine fold_right fst snd]. now rewrite IHm.
  - cbn [ListPages.extractItem].
    induction entries as [ | [k v] more IHm ]; [ reflexivity | ].
    cbn [fold_right fst snd]. now rewrite IHm.
Qed.

Lemma and_then_ok a b la lb :
  a = (la, None) -> b = (lb, None) -> ListPages.and_then a b = (la ++ lb, None).
Proof. now intros -> ->. Qed.

(** On a navigation tree the listing does not throw and prints one line
    per leaf; the line of every leaf is among them. *)
Lemma extractPages_tree v :
  (is_node v = true ->
   forall trackPath, exists lines,
     extractItem v trackPath = (lines, None) /\
     List.length lines = leaf_count v /\
     forall crumbs name, leaf_path v (crumbs ++ [name]) ->
       In (page_line (fold_left (fun tp k => path_join [tp; k]) crumbs trackPath)
                     name) lines) /\
  (is_tree v = true ->
   forall trackPath, exists lines,
     extractPages v trackPath = (lines, None) /\
     List.length lines = leaf_count v /\
     forall crumbs name, leaf_path v (crumbs ++ [name]) ->
       In (page_line (fold_left (fun tp k => path_join [tp; k]) crumbs trackPath)
                     name) lines).
Proof.
  induction v as [ | | b | n | s | items IH | entries IH ] using value_ind;
    (split; intros W trackPath); try discriminate.
  - exists [page_line trackPath s]. repeat split.
    intros crumbs name L. inversion L as [ s' E1 E2 | | ]; subst.
    destruct crumbs as [ | k [ | k' crumbs ] ]; try discriminate.
    injection E2 as <-. now left.
  - cbn [is_tree] in W. rewrite extractPages_arr. cbn [leaf_count].
    assert (forall x, In x items -> is_node x = true) as Wn
      by (intros x Hx; eapply is_sequence_In; eauto).
    clear W.
    assert (exists lines,
      fold_right (fun item rest => ListPages.and_then (extractItem item trackPath) rest)
                 ListPages.done items = (lines, None) /\
      List.length lines = list_sum (map leaf_count items) /\
      forall x crumbs name, In x items -> leaf_path x (crumbs ++ [name]) ->
        In (page_line (fold_left (fun tp k => path_join [tp; k]) crumbs trackPath)
                      name) lines) as (lines & E & Hlen & Hin).
    { induction items as [ | x rest IHr ].
      - exists []. repeat split. intros x crumbs name [].
      - destruct (IH x (or_introl eq_refl)) as [IHx _].
        destruct (IHx (Wn x (or_introl eq_refl)) trackPath) as (lx & Ex & Lx & Hx).
        destruct IHr as (lr & Er & Lr & Hr).
        + intros y Hy. apply IH. now right.
        + intros y Hy. apply Wn. now right.
        + exists (lx ++ lr). cbn [fold_right map list_sum].
          rewrite (and_then_ok _ _ _ _ Ex Er), length_app, Lx, Lr.
          repeat split. intros y crumbs name [<- | Hy] L; apply in_or_app.
          * left. now apply Hx.
          * right. eapply Hr; eauto. }
    exists lines. repeat split; auto.
    intros crumbs name L. inversion L as [ | x its p Hx Lx | ]; subst. eauto.
  - cbn [ListPages.extractItem leaf_count].
    assert (forall k v, In (k, v) entries -> is_tree v = true) as Wt.
    { intros k v Hin. now destruct (is_node_entry _ _ _ W Hin) as (sub & -> & Hs). }
    clear W.
    assert (exists lines,
      fold_right (fun kv rest =>
                    ListPages.and_then
                      (extractPages (snd kv) (path_join [trackPath; fst kv])) rest)
                 ListPages.done entries = (lines, None) /\
      List.length lines = list_sum (map (fun kv => leaf_count (snd kv)) entries) /\
      forall k v crumbs name, In (k, v) entries -> leaf_path v (crumbs ++ [name]) ->
        In (page_line (fold_left (fun tp k => path_join [tp; k]) crumbs
                                 (path_join [trackPath; k])) name) lines)
      as (lines & E & Hlen & Hin).
    { induction entries as [ | [k v] rest IHr ].
      - exists []. repeat split. intros k v crumbs name [].
      - destruct (IH k v (or_introl eq_refl)) as [_ IHv].
        destruct (IHv (Wt k v (or_introl eq_refl)) (path_join [trackPath; k]))
          as (lv & Ev & Lv & Hv).
        destruct IHr as (lr & Er & Lr & Hr).
        + intros k' v' Hin'. apply (IH k' v'). now right.
        + intros k' v' Hin'. apply (Wt k' v'). now right.
        + exists (lv ++ lr). cbn [fold_right map list_sum fst snd].
          rewrite (and_then_ok _ _ _ _ Ev Er), length_app, Lv, Lr.
          repeat split. intros k' v' crumbs name [Heq | Hin'] L; apply in_or_app.
          * injection Heq as <- <-. left. now apply Hv.
          * right. eapply Hr; eauto. }
    exists lines. repeat split; auto.
    intros crumbs name L.
    destruct crumbs as [ | k crumbs ]; inversion L as [ | | es k' v p Hkv Lv ]; subst.
    + now apply leaf_path_not_nil in Lv.
    + cbn [fold_left]. eapply Hin; eauto.
Qed.

(** X6.  On a navigation tree [extractPages] does not throw and prints
    exactly one line per leaf of the tree. *)
Theorem extractPages_one_line_per_leaf T :
  is_tree T = true ->
  exists lines, extractPages T "" = (lines, None) /\
                List.length lines = leaf_count T.
Proof.
  intros W. destruct (extractPages_tree T) as [_ H].
  destruct (H W "") as (lines & E & Hlen & _). eauto.
Qed.

(** X7.  Every page the resolver returns for a navigation tree is a page
    the listing prints for it: a line for the same track names, joined
    one after the other from the empty track path as [extractPages] does,
    and the same file. *)
Theorem resolved_pages_are_listed T p ps r :
  is_tree T = true ->
  findNexts T p = Return ps -> In r ps ->
  In (page_line (track_path (removelast r)) (last r ""))
     (fst (extractPages T "")).
Proof.
  intros W E Hr.
  assert (leaf_path T r) as L.
  { revert E. unfold findNexts. destruct p as [ | p0 p' ].
    - destruct (getNexts T []) as [ [ | | ps' ] | e ] eqn:G; cbn [bind spliced];
        intros E; try discriminate; injection E as <-; try now destruct Hr.
      now destruct (getNexts_leaf_path _ _ _ _ G Hr) as (r' & -> & L).
    - destruct (findNextsHelper T (p0 :: p') []) as [ [ | | ps' ] | e ] eqn:F;
        cbn [bind spliced]; intros E; try discriminate; injection E as <-;
        try now destruct Hr.
      now destruct (find_leaf_path _ _ _ _ _ F Hr) as (r' & -> & L). }
  assert (r <> []) as Hne by (eapply findNexts_paths_nonempty; eauto).
  rewrite (app_removelast_last "" Hne) in L.
  destruct (extractPages_tree T) as [_ H].
  destruct (H W "") as (lines & El & _ & Hin). rewrite El. cbn [fst].
  now apply Hin.
Qed.

End ListingFacts.

Lemma and_then_assoc a b c :
  ListPages.and_then (ListPages.and_then a b) c =
  ListPages.and_then a (ListPages.and_then b c).
Proof.
  destruct a as [la [ea | ]], b as [lb [eb | ]], c as [lc ec]; cbn;
    try reflexivity. now rewrite app_assoc.
Qed.

Lemma and_then_done b : ListPages.and_then ListPages.done b = b.
Proof. now destruct b. Qed.

Lemma extractPages_app path_join opts pre l trackPath :
  ListPages.extractPages path_join opts (VArr (pre ++ l)) trackPath =
  ListPages.and_then (ListPages.extractPages path_join opts (VArr pre) trackPath)
                     (ListPages.extractPages path_join opts (VArr l) trackPath).
Proof.
  rewrite !extractPages_arr.
  induction pre as [ | x pre IH ]; cbn [app fold_right].
  - now rewrite and_then_done.
  - now rewrite IH, and_then_assoc.
Qed.

(** X8.  A malformed entry ends the listing with an error after the pages
    before it have been printed, and nothing after it is printed: a
    number, a boolean or [undefined] among the items gives "Could not
    process", [null] makes [Object.entries] fail, and a track whose value
    is neither an array nor a string is not iterable. *)
Theorem extractPages_stops_at_malformed path_join opts pre item post trackPath
  lines e :
  is_tree (VArr pre) = true ->
  ListPages.extractItem path_join opts item trackPath = (lines, Some e) ->
  ListPages.extractPages path_join opts (VArr (pre ++ item :: post)) trackPath =
    (fst (ListPages.extractPages path_join opts (VArr pre) trackPath) ++ lines,
     Some e) /\
  (forall n, ListPages.extractItem path_join opts (VNum n) trackPath
             = ([], Some ListPages.CouldNotProcess)) /\
  (forall b, ListPages.extractItem path_join opts (VBool b) trackPath
             = ([], Some ListPages.CouldNotProcess)) /\
  ListPages.extractItem path_join opts VUndefined trackPath
    = ([], Some ListPages.CouldNotProcess) /\
  ListPages.extractItem path_join opts VNull trackPath
    = ([], Some ListPages.CannotConvertToObject) /\
  (forall k v more,
      match v with VArr _ | VStr _ => False | _ => True end ->
      ListPages.extractItem path_join opts (VObj ((k, v) :: more)) trackPath
      = ([], Some ListPages.NotIterable)).
Proof.
  intros W E. split; [ | repeat split ].
  - rewrite extractPages_app.
    destruct (extractPages_tree path_join opts (VArr pre)) as [_ H].
    destruct (H W trackPath) as (lp & -> & _).
    rewrite extractPages_arr. cbn [fold_right]. rewrite E. reflexivity.
  - intros k v more Hv. destruct v; try contradiction; reflexivity.
Qed.

Lemma extractPages_stops_at_malformed_witness :
  ListPages.extractPages slash_join list_defaults
    (VArr [VStr "a.html"; VNum 7; VStr "b.html"]) ""
  = (["pages/shared/a.html"], Some ListPages.CouldNotProcess).
Proof.
  refine (proj1 (extractPages_stops_at_malformed slash_join list_defaults
                   [VStr "a.html"] (VNum 7) [VStr "b.html"] "" [] _ _ _)).
  - reflexivity.
  - reflexivity.
Defined.

Lemma extractPages_one_line_per_leaf_witness :
  exists lines,
    ListPages.extractPages slash_join list_defaults basic "" = (lines, None) /\
    List.length lines = 4.
Proof.
  refine (extractPages_one_line_per_leaf slash_join list_defaults basic _).
  reflexivity.
Defined.

Lemma resolved_pages_are_listed_witness :
  In "pages/src/index.js"
     (fst (ListPages.extractPages slash_join list_defaults basic "")).
Proof.
  refine (resolved_pages_are_listed slash_join list_defaults basic ["config.js"]
            [["src"; "index.js"]] ["src"; "index.js"] _ _ _).
  - reflexivity.
  - reflexivity.
  - now left.
Defined.

(** ** Deep merge *)

Lemma mergeDeep_obj target entries :
  Merge.mergeDeep target (VObj entries) =
  VObj (fold_left Merge.merge_key entries target).
Proof.
  cbn [Merge.mergeDeep]. f_equal. revert target.
  induction entries as [ | [k v] rest IH ]; intros target; [ reflexivity | ].
  cbn [fold_left]. rewrite <- IH. reflexivity.
Qed.

Lemma prop_assign target k v k' :
  prop (Merge.assign target k v) k' = if k =? k' then v else prop target k'.
Proof.
  induction target as [ | [k0 old] rest IH ]; cbn [Merge.assign prop];
    [ reflexivity | ].
  destruct (k0 =? k) eqn:E0; cbn [prop].
  - apply String.eqb_eq in E0. subst k0. now destruct (k =? k').
  - rewrite IH. destruct (k0 =? k') eqn:E1; [ | reflexivity ].
    apply String.eqb_eq in E1. subst k0. now rewrite String.eqb_sym, E0.
Qed.

Lemma has_key_assign target k v k' :
  Merge.has_key (Merge.assign target k v) k' = (k =? k') || Merge.has_key target k'.
Proof.
  unfold Merge.has_key.
  induction target as [ | [k0 old] rest IH ]; cbn [Merge.assign map fst existsb].
  - now rewrite String.eqb_sym, orb_false_r.
  - destruct (k0 =? k) eqn:E0; cbn [map fst existsb].
    + apply String.eqb_eq in E0. subst k0.
      rewrite (String.eqb_sym k' k). now destruct (k =? k').
    + rewrite IH. destruct (k' =? k0), (k =? k'); reflexivity.
Qed.

Lemma merge_key_assign target kv :
  exists v, Merge.merge_key target kv = Merge.assign target (fst kv) v /\
            v = match snd kv, prop target (fst kv) with
                | VObj _, VObj tgtVal => Merge.mergeDeep tgtVal (snd kv)
                | sv, _ => sv
                end.
Proof.
  unfold Merge.merge_key.
  destruct (snd kv); eauto. destruct (prop target (fst kv)); eauto.
Qed.

Lemma has_key_false_prop entries k :
  Merge.has_key entries k = false -> prop entries k = VUndefined.
Proof. apply prop_absent. Qed.

Lemma own_keys_unique entries :
  Merge.own_keys (VObj entries) = true -> uniqueb (map fst entries) = true.
Proof.
  cbn [Merge.own_keys]. intros H.
  apply andb_prop in H as [H _]. now apply andb_prop in H as [H _].
Qed.

Lemma own_keys_entry entries k v :
  Merge.own_keys (VObj entries) = true -> In (k, v) entries ->
  Merge.own_keys v = true.
Proof.
  cbn [Merge.own_keys]. intros H Hin. apply andb_prop in H as [_ H].
  rewrite forallb_forall in H. apply (H (k, v) Hin).
Qed.

Lemma merged_lookup entries :
  uniqueb (map fst entries) = true ->
  forall target k,
    prop (fold_left Merge.merge_key entries target) k =
    if Merge.has_key entries k
    then match prop entries k, prop target k with
         | VObj _, VObj tgtVal => Merge.mergeDeep tgtVal (prop entries k)
         | sv, _ => sv
         end
    else prop target k.
Proof.
  induction entries as [ | [k0 v0] rest IH ]; intros U target k; [ reflexivity | ].
  cbn [map fst uniqueb] in U. apply andb_prop in U as [U0 U].
  apply negb_true_iff in U0.
  cbn [fold_left]. rewrite (IH U).
  destruct (merge_key_assign target (k0, v0)) as (x & -> & Hx). cbn [fst snd] in *.
  rewrite prop_assign. unfold Merge.has_key in *. cbn [map fst existsb prop].
  rewrite (String.eqb_sym k k0). destruct (k0 =? k) eqn:E.
  - apply String.eqb_eq in E. subst k0. rewrite U0. cbn [orb]. exact Hx.
  - cbn [orb]. reflexivity.
Qed.

Lemma merged_keys entries :
  forall target k,
    Merge.has_key (fold_left Merge.merge_key entries target) k =
    Merge.has_key target k || Merge.has_key entries k.
Proof.
  induction entries as [ | [k0 v0] rest IH ]; intros target k; cbn [fold_left].
  - unfold Merge.has_key at 3. cbn. now rewrite orb_false_r.
  - rewrite IH. destruct (merge_key_assign target (k0, v0)) as (x & -> & _).
    cbn [fst]. rewrite has_key_assign. unfold Merge.has_key.
    cbn [map fst existsb]. rewrite (String.eqb_sym k k0).
    destruct (k0 =? k), (existsb (String.eqb k) (map fst target)); reflexivity.
Qed.

(** X9.  After [mergeDeep(target, source)] with an object as source, a
    key absent from the source keeps the value it had in the target; a
    key of the source holds the merge of the two values when both are
    plain objects, and otherwise the value of the source as it is: an
    array, a string, a number or [null] replaces what was there and is
    never merged. *)
Theorem mergeDeep_lookup target entries k :
  Merge.own_keys (VObj entries) = true ->
  prop (Merge.entries_of_value (Merge.mergeDeep target (VObj entries))) k =
  if Merge.has_key entries k
  then match prop entries k, prop target k with
       | VObj _, VObj tgtVal => Merge.mergeDeep tgtVal (prop entries k)
       | srcVal, _ => srcVal
       end
  else prop target k.
Proof.
  intros W. rewrite mergeDeep_obj. cbn [Merge.entries_of_value].
  apply merged_lookup. now apply own_keys_unique.
Qed.

Lemma mergeDeep_lookup_witness :
  prop (Merge.entries_of_value
          (Merge.mergeDeep [("a", VObj [("x", VNum 1)]); ("b", VArr [VNum 1])]
             (VObj [("a", VObj [("y", VNum 2)]); ("b", VArr [VNum 2])]))) "b"
  = VArr [VNum 2].
Proof.
  refine (mergeDeep_lookup [("a", VObj [("x", VNum 1)]); ("b", VArr [VNum 1])]
            [("a", VObj [("y", VNum 2)]); ("b", VArr [VNum 2])] "b" _).
  reflexivity.
Defined.

(** X10.  The keys of the merged object are the keys of the target and
    the keys of the source, when the source has no key [__proto__] at any
    depth: none is lost and none is added. *)
Theorem mergeDeep_keys target entries k :
  Merge.own_keys (VObj entries) = true ->
  Merge.has_key (Merge.entries_of_value (Merge.mergeDeep target (VObj entries))) k
  = Merge.has_key target k || Merge.has_key entries k.
Proof.
  intros _. rewrite mergeDeep_obj. cbn [Merge.entries_of_value].
  apply merged_keys.
Qed.

Lemma mergeDeep_keys_witness :
  Merge.has_key
    (Merge.entries_of_value
       (Merge.mergeDeep [("a", VNum 1)] (VObj [("b", VObj [("c", VNum 2)])])))
    "b" = true.
Proof.
  refine (mergeDeep_keys [("a", VNum 1)] [("b", VObj [("c", VNum 2)])] "b" _).
  reflexivity.
Defined.

Lemma assign_absent target k v :
  Merge.has_key target k = false -> Merge.assign target k v = target ++ [(k, v)].
Proof.
  unfold Merge.has_key.
  induction target as [ | [k0 old] rest IH ]; cbn [map fst existsb Merge.assign app];
    [ reflexivity | ].
  intros H. apply orb_false_elim in H as [H0 H].
  rewrite String.eqb_sym, H0, (IH H). reflexivity.
Qed.

Lemma assign_same target k v :
  Merge.has_key target k = true -> prop target k = v ->
  Merge.assign target k v = target.
Proof.
  unfold Merge.has_key.
  induction target as [ | [k0 old] rest IH ]; cbn [map fst existsb Merge.assign prop];
    [ discriminate | ].
  rewrite (String.eqb_sym k k0). destruct (k0 =? k); cbn [orb].
  - now intros _ ->.
  - intros H E. now rewrite (IH H E).
Qed.

Lemma fold_merge_fresh entries :
  uniqueb (map fst entries) = true ->
  forall pre, (forall k, Merge.has_key entries k = true -> Merge.has_key pre k = false) ->
  fold_left Merge.merge_key entries pre = pre ++ entries.
Proof.
  induction entries as [ | [k0 v0] rest IH ]; intros U pre Hfresh;
    [ now rewrite app_nil_r | ].
  cbn [map fst uniqueb] in U. apply andb_prop in U as [U0 U].
  apply negb_true_iff in U0. cbn [fold_left].
  assert (Merge.has_key pre k0 = false) as Hk0.
  { apply Hfresh. unfold Merge.has_key. cbn. now rewrite String.eqb_refl. }
  assert (Merge.merge_key pre (k0, v0) = pre ++ [(k0, v0)]) as ->.
  { destruct (merge_key_assign pre (k0, v0)) as (x & -> & Hx). cbn [fst snd] in *.
    rewrite (has_key_false_prop _ _ Hk0) in Hx. rewrite assign_absent by assumption.
    subst x. now destruct v0. }
  rewrite (IH U), <- app_assoc; [ reflexivity | ].
  intros k Hk. unfold Merge.has_key in *. rewrite map_app, existsb_app.
  cbn [map fst existsb]. rewrite orb_false_r.
  rewrite Hfresh by (cbn [map fst existsb]; rewrite Hk; apply orb_true_r).
  cbn [orb]. destruct (k =? k0) eqn:E; [ | reflexivity ].
  apply String.eqb_eq in E. subst k. congruence.
Qed.

(** X11.  Merging an object into the empty object gives the object
    itself, so a single file is printed as it is. *)
Theorem deep_merge_single entries :
  Merge.own_keys (VObj entries) = true ->
  Merge.mergeDeep [] (VObj entries) = VObj entries /\
  Merge.deep_merge [VObj entries] = Merge.Prints (VObj entries).
Proof.
  intros W.
  assert (Merge.mergeDeep [] (VObj entries) = VObj entries) as E.
  { rewrite mergeDeep_obj, fold_merge_fresh; auto using own_keys_unique. }
  split; [ exact E | ].
  unfold Merge.deep_merge. cbn [Merge.merge_files]. now rewrite E.
Qed.

Lemma deep_merge_single_witness :
  Merge.deep_merge [VObj [("title", VStr "t"); ("tags", VArr [VStr "a"])]]
  = Merge.Prints (VObj [("title", VStr "t"); ("tags", VArr [VStr "a"])]).
Proof.
  refine (proj2 (deep_merge_single
            [("title", VStr "t"); ("tags", VArr [VStr "a"])] _)).
  reflexivity.
Defined.

Lemma prop_unique entries k v :
  uniqueb (map fst entries) = true -> In (k, v) entries -> prop entries k = v.
Proof.
  induction entries as [ | [k0 v0] rest IH ]; intros U []; cbn [prop].
  - injection H as -> ->. now rewrite String.eqb_refl.
  - cbn [map fst uniqueb] in U. apply andb_prop in U as [U0 U].
    apply negb_true_iff in U0. destruct (k0 =? k) eqn:E; [ | now apply IH ].
    apply String.eqb_eq in E. subst k0. exfalso.
    assert (existsb (String.eqb k) (map fst rest) = true); [ | congruence ].
    apply existsb_exists. exists k. split; [ | apply String.eqb_refl ].
    apply (in_map fst rest (k, v) H).
Qed.

Lemma has_key_In entries k v :
  In (k, v) entries -> Merge.has_key entries k = true.
Proof.
  intros H. apply existsb_exists. exists k. split; [ | apply String.eqb_refl ].
  apply (in_map fst entries (k, v) H).
Qed.

Lemma fold_fixed (step : list (string * value) -> string * value -> list (string * value))
  entries m :
  (forall kv, In kv entries -> step m kv = m) -> fold_left step entries m = m.
Proof.
  induction entries as [ | kv rest IH ]; intros H; [ reflexivity | ].
  cbn [fold_left]. rewrite (H kv (or_introl eq_refl)).
  apply IH. intros; apply H; now right.
Qed.

(** Merging an object into itself changes nothing. *)
Lemma self_merge s :
  forall entries, s = VObj entries -> Merge.own_keys s = true ->
  Merge.mergeDeep entries (VObj entries) = VObj entries.
Proof.
  induction s as [ | | b | n | str | items IH | es IH ] using value_ind;
    intros entries E W; try discriminate.
  injection E as <-. rewrite mergeDeep_obj. f_equal.
  apply fold_fixed. intros [k v] Hin.
  pose proof (prop_unique _ _ _ (own_keys_unique _ W) Hin) as Hp.
  pose proof (has_key_In _ _ _ Hin) as Hk.
  unfold Merge.merge_key. cbn [fst snd]. rewrite Hp.
  destruct v as [ | | | | | | ves ]; try now apply assign_same.
  rewrite (IH k _ Hin ves eq_refl (own_keys_entry _ _ _ W Hin)).
  now apply assign_same.
Qed.

Lemma merge_twice s :
  forall entries target, s = VObj entries -> Merge.own_keys s = true ->
  fold_left Merge.merge_key entries (fold_left Merge.merge_key entries target)
  = fold_left Merge.merge_key entries target.
Proof.
  induction s as [ | | b | n | str | items IH | es IH ] using value_ind;
    intros entries target E W; try discriminate.
  injection E as <-. apply fold_fixed. intros [k v] Hin.
  pose proof (own_keys_unique _ W) as U.
  pose proof (prop_unique _ _ _ U Hin) as Hp.
  pose proof (has_key_In _ _ _ Hin) as Hk.
  set (m := fold_left Merge.merge_key es target).
  assert (Merge.has_key m k = true) as Hm
    by (unfold m; rewrite merged_keys, Hk; apply orb_true_r).
  pose proof (merged_lookup es U target k) as Hmk. fold m in Hmk.
  rewrite Hk, Hp in Hmk.
  pose proof (own_keys_entry _ _ _ W Hin) as Wv.
  unfold Merge.merge_key. cbn [fst snd].
  destruct v as [ | | | | | | ves ]; cbn beta iota zeta in Hmk;
    try (now apply assign_same).
  destruct (prop target k) as [ | | | | | | tgtVal ] eqn:Et; cbn beta iota zeta in Hmk;
    try (rewrite Hmk, (self_merge _ ves eq_refl Wv); now apply assign_same).
  rewrite mergeDeep_obj in Hmk. rewrite Hmk.
  rewrite mergeDeep_obj, (IH k _ Hin ves tgtVal eq_refl Wv).
  now apply assign_same.
Qed.

(** X12.  Merging the same object a second time changes nothing:
    [mergeDeep(mergeDeep(target, source), source)] is
    [mergeDeep(target, source)]. *)
Theorem mergeDeep_idempotent target entries :
  Merge.own_keys (VObj entries) = true ->
  Merge.mergeDeep
    (Merge.entries_of_value (Merge.mergeDeep target (VObj entries)))
    (VObj entries)
  = Merge.mergeDeep target (VObj entries).
Proof.
  intros W. rewrite !mergeDeep_obj. cbn [Merge.entries_of_value]. f_equal.
  now apply (merge_twice (VObj entries)).
Qed.

Lemma mergeDeep_idempotent_witness :
  Merge.mergeDeep
    (Merge.entries_of_value
       (Merge.mergeDeep [("a", VObj [("x", VNum 1)])]
          (VObj [("a", VObj [("y", VNum 2)])])))
    (VObj [("a", VObj [("y", VNum 2)])])
  = Merge.mergeDeep [("a", VObj [("x", VNum 1)])]
      (VObj [("a", VObj [("y", VNum 2)])]).
Proof.
  refine (mergeDeep_idempotent [("a", VObj [("x", VNum 1)])]
            [("a", VObj [("y", VNum 2)])] _).
  reflexivity.
Defined.

Lemma lookup_path_undefined keys : Merge.lookup_path VUndefined keys = VUndefined.
Proof. now destruct keys. Qed.

Lemma lookup_path_not_object v k rest :
  Merge.is_plain_object v = false -> Merge.lookup_path v (k :: rest) = VUndefined.
Proof. now destruct v. Qed.

(** Where the source holds a value that is not a plain object, the merged
    object holds that value at the same keys. *)
Lemma mergeDeep_path keys :
  forall s target v,
    Merge.own_keys s = true -> keys <> [] ->
    Merge.lookup_path s keys = v -> v <> VUndefined ->
    Merge.is_plain_object v = false ->
    Merge.lookup_path (Merge.mergeDeep target s) keys = v.
Proof.
  induction keys as [ | k rest IH ]; intros s target v W Hne E Hv Hplain;
    [ now destruct Hne | ].
  destruct s as [ | | | | | | entries ];
    try (cbn in E; subst v; now destruct Hv).
  cbn [Merge.lookup_path] in E. rewrite mergeDeep_obj. cbn [Merge.lookup_path].
  rewrite (merged_lookup _ (own_keys_unique _ W)).
  destruct (Merge.has_key entries k) eqn:Hk.
  2:{ rewrite (has_key_false_prop _ _ Hk), lookup_path_undefined in E.
      subst v. now destruct Hv. }
  destruct (prop_in entries k) as [U | Hin].
  { rewrite U, lookup_path_undefined in E. subst v. now destruct Hv. }
  pose proof (own_keys_entry _ _ _ W Hin) as Wk.
  destruct rest as [ | k' rest ].
  - cbn [Merge.lookup_path] in E |- *. rewrite E. now destruct v.
  - destruct (prop entries k) as [ | | | | | | sub ] eqn:Es;
      try (cbn in E; subst v; now destruct Hv).
    destruct (prop target k) as [ | | | | | | tgtVal ]; try exact E.
    apply IH; auto. discriminate.
Qed.

Lemma merge_files_app files :
  forall result more,
    Merge.merge_files result (files ++ more) =
    match Merge.merge_files result files with
    | Some v => Merge.merge_files (Merge.entries_of_value v) more
    | None => None
    end.
Proof.
  induction files as [ | data rest IH ]; intros result more; [ reflexivity | ].
  cbn [app Merge.merge_files].
  destruct data as [ | | | | | | entries ]; try reflexivity.
  rewrite mergeDeep_obj. apply IH.
Qed.

(** X13.  The rightmost file overrides: when no file has a key
    [__proto__] at any depth, a value of the last file that is not a
    plain object (a string, a number, an array, ...) is found in the
    output under the same keys, whatever the files before it hold
    there. *)
Theorem rightmost_file_wins files entries out keys v :
  Merge.deep_merge (files ++ [VObj entries]) = Merge.Prints out ->
  forallb Merge.own_keys files = true ->
  Merge.own_keys (VObj entries) = true ->
  keys <> [] ->
  Merge.lookup_path (VObj entries) keys = v ->
  v <> VUndefined ->
  Merge.is_plain_object v = false ->
  Merge.lookup_path out keys = v.
Proof.
  intros E _ W Hne El Hv Hplain.
  assert (Merge.merge_files [] (files ++ [VObj entries]) = Some out) as E'.
  { revert E. unfold Merge.deep_merge.
    destruct (files ++ [VObj entries]) as [ | data rest ]; [ discriminate | ].
    destruct (Merge.merge_files [] (data :: rest)); [ | discriminate ].
    now intros [= ->]. }
  rewrite merge_files_app in E'.
  destruct (Merge.merge_files [] files) as [ r | ]; [ | discriminate ].
  cbn [Merge.merge_files] in E'. rewrite mergeDeep_obj in E'.
  injection E' as <-. rewrite <- mergeDeep_obj.
  now apply mergeDeep_path.
Qed.

Lemma rightmost_file_wins_witness :
  Merge.lookup_path
    (VObj [("site", VObj [("title", VStr "new"); ("lang", VStr "en")])])
    ["site"; "title"] = VStr "new".
Proof.
  refine (rightmost_file_wins
            [VObj [("site", VObj [("title", VStr "old"); ("lang", VStr "en")])]]
            [("site", VObj [("title", VStr "new")])]
            _ ["site"; "title"] (VStr "new") _ _ _ _ _ _ _).
  - reflexivity.
  - reflexivity.
  - reflexivity.
  - discriminate.
  - reflexivity.
  - discriminate.
  - reflexivity.
Defined.




(** ** Removing marked parts of a schema *)

Lemma recursivelyRemove_obj removeKey entries :
  Schema.recursivelyRemove removeKey (VObj entries) =
  VObj (Schema.remove_entries removeKey entries).
Proof.
  cbn [Schema.recursivelyRemove]. f_equal.
  induction entries as [ | [k v] rest IH ]; [ reflexivity | ].
  cbn [Schema.remove_entries]. now rewrite IH.
Qed.

Lemma recursivelyRemove_arr removeKey items :
  Schema.recursivelyRemove removeKey (VArr items) =
  VArr (Schema.remove_items removeKey items).
Proof.
  cbn [Schema.recursivelyRemove]. f_equal.
  induction items as [ | v rest IH ]; [ reflexivity | ].
  cbn [Schema.remove_items]. now rewrite IH.
Qed.

Lemma falsy_scalar removeKey v :
  truthy v = false ->
  Schema.marked removeKey v = false /\ Schema.recursivelyRemove removeKey v = v.
Proof. destruct v; try discriminate; intros _; split; reflexivity. Qed.

Lemma prop_remove_entries_falsy removeKey entries k :
  truthy (prop entries k) = false ->
  prop (Schema.remove_entries removeKey entries) k = prop entries k.
Proof.
  induction entries as [ | [k0 v0] rest IH ]; [ reflexivity | ].
  cbn [prop Schema.remove_entries]. destruct (k0 =? k) eqn:E; intros F.
  - destruct (falsy_scalar removeKey v0 F) as [-> ->]. cbn [prop]. now rewrite E.
  - destruct (Schema.marked removeKey v0); [ now apply IH | ].
    cbn [prop]. rewrite E. now apply IH.
Qed.

Lemma marked_after removeKey v :
  Schema.marked removeKey v = false ->
  Schema.marked removeKey (Schema.recursivelyRemove removeKey v) = false.
Proof.
  destruct v as [ | | | | | | entries ]; try reflexivity.
  rewrite recursivelyRemove_obj. cbn [Schema.marked]. intros F.
  now rewrite prop_remove_entries_falsy.
Qed.

Lemma unmarked_after removeKey schema :
  Schema.unmarked removeKey (Schema.recursivelyRemove removeKey schema) = true.
Proof.
  induction schema as [ | | b | n | s | items IH | entries IH ] using value_ind;
    try reflexivity.
  - rewrite recursivelyRemove_arr. cbn [Schema.unmarked].
    induction items as [ | x rest IHr ]; [ reflexivity | ].
    cbn [Schema.remove_items].
    assert (forallb (fun y => negb (Schema.marked removeKey y) &&
                              Schema.unmarked removeKey y)
                    (Schema.remove_items removeKey rest) = true) as Hrest
      by (apply IHr; intros; apply IH; now right).
    destruct (Schema.marked removeKey x) eqn:M; [ exact Hrest | ].
    cbn [forallb]. rewrite (marked_after _ _ M), (IH x (or_introl eq_refl)).
    exact Hrest.
  - rewrite recursivelyRemove_obj. cbn [Schema.unmarked].
    induction entries as [ | [k v] rest IHr ]; [ reflexivity | ].
    cbn [Schema.remove_entries].
    assert (forallb (fun kv => negb (Schema.marked removeKey (snd kv)) &&
                               Schema.unmarked removeKey (snd kv))
                    (Schema.remove_entries removeKey rest) = true) as Hrest
      by (apply IHr; intros k' v' H; apply (IH k' v'); now right).
    destruct (Schema.marked removeKey v) eqn:M; [ exact Hrest | ].
    cbn [forallb snd]. rewrite (marked_after _ _ M), (IH k v (or_introl eq_refl)).
    exact Hrest.
Qed.

(** X15.  After [recursivelyRemove] no property value and no array
    element, at any depth of the schema, carries a truthy marker. *)
Theorem recursivelyRemove_clean removeKey schema :
  Schema.unmarked removeKey (Schema.recursivelyRemove removeKey schema) = true.
Proof. apply unmarked_after. Qed.

Lemma recursivelyRemove_unmarked removeKey schema :
  Schema.unmarked removeKey schema = true ->
  Schema.recursivelyRemove removeKey schema = schema.
Proof.
  induction schema as [ | | b | n | s | items IH | entries IH ] using value_ind;
    try reflexivity; intros U.
  - rewrite recursivelyRemove_arr. f_equal. cbn [Schema.unmarked] in U.
    induction items as [ | x rest IHr ]; [ reflexivity | ].
    cbn [forallb] in U. apply andb_prop in U as [Ux U].
    apply andb_prop in Ux as [Mx Ux]. apply negb_true_iff in Mx.
    cbn [Schema.remove_items]. rewrite Mx, (IH x (or_introl eq_refl) Ux).
    f_equal. apply IHr; [ | exact U ]. intros; apply IH; [ now right | assumption ].
  - rewrite recursivelyRemove_obj. f_equal. cbn [Schema.unmarked] in U.
    induction entries as [ | [k v] rest IHr ]; [ reflexivity | ].
    cbn [forallb snd] in U. apply andb_prop in U as [Uv U].
    apply andb_prop in Uv as [Mv Uv]. apply negb_true_iff in Mv.
    cbn [Schema.remove_entries]. rewrite Mv, (IH k v (or_introl eq_refl) Uv).
    f_equal. apply IHr; [ | exact U ].
    intros k' v' H. apply (IH k' v'). now right.
Qed.

(** X16.  [recursivelyRemove] leaves a schema without marked parts as it
    is, and so a second pass with the same key changes nothing. *)
Theorem recursivelyRemove_idempotent removeKey schema :
  Schema.recursivelyRemove removeKey (Schema.recursivelyRemove removeKey schema)
  = Schema.recursivelyRemove removeKey schema /\
  (Schema.unmarked removeKey schema = true ->
   Schema.recursivelyRemove removeKey schema = schema).
Proof.
  split; [ | apply recursivelyRemove_unmarked ].
  apply recursivelyRemove_unmarked, unmarked_after.
Qed.

Lemma remove_items_filter removeKey items :
  Schema.remove_items removeKey items =
  map (Schema.recursivelyRemove removeKey)
      (filter (fun x => negb (Schema.marked removeKey x)) items).
Proof.
  induction items as [ | x rest IH ]; [ reflexivity | ].
  cbn [Schema.remove_items filter].
  destruct (Schema.marked removeKey x); cbn [negb map]; now rewrite IH.
Qed.

(** X17.  A property is deleted from its object exactly when its value is
    an object whose marker property is truthy, and the other properties
    stay with their values cleaned in turn; in an array the marked
    elements are taken out and the others keep their order.  So
    [prod_only: false] deletes nothing. *)
Theorem recursivelyRemove_lookup removeKey entries k :
  uniqueb (map fst entries) = true ->
  prop (Schema.remove_entries removeKey entries) k =
    (if Schema.marked removeKey (prop entries k) then VUndefined
     else Schema.recursivelyRemove removeKey (prop entries k)) /\
  Schema.recursivelyRemove removeKey (VObj entries) =
    VObj (Schema.remove_entries removeKey entries) /\
  (forall items,
      Schema.recursivelyRemove removeKey (VArr items) =
      VArr (map (Schema.recursivelyRemove removeKey)
                (filter (fun x => negb (Schema.marked removeKey x)) items))).
Proof.
  intros U. split; [ | split; [ apply recursivelyRemove_obj | ] ].
  - induction entries as [ | [k0 v0] rest IH ]; [ reflexivity | ].
    cbn [map fst uniqueb] in U. apply andb_prop in U as [U0 U].
    apply negb_true_iff in U0. specialize (IH U).
    cbn [prop Schema.remove_entries]. destruct (k0 =? k) eqn:E.
    + apply String.eqb_eq in E. subst k0.
      destruct (Schema.marked removeKey v0).
      * rewrite IH, (prop_absent _ _ U0). reflexivity.
      * cbn [prop]. now rewrite String.eqb_refl.
    + destruct (Schema.marked removeKey v0); [ exact IH | ].
      cbn [prop]. now rewrite E.
  - intros items. now rewrite recursivelyRemove_arr, remove_items_filter.
Qed.

Lemma recursivelyRemove_lookup_witness :
  prop (Schema.remove_entries Schema.ProdOnly
          [("a", VObj [("prod_only", VBool true)]);
           ("b", VObj [("prod_only", VBool false)])]) "b"
  = VObj [("prod_only", VBool false)].
Proof.
  refine (proj1 (recursivelyRemove_lookup Schema.ProdOnly
            [("a", VObj [("prod_only", VBool true)]);
             ("b", VObj [("prod_only", VBool false)])] "b" _)).
  reflexivity.
Defined.

(** ** Collecting the references of a schema *)

Lemma same_value_eq a b : Schema.same_value a b = true -> a = b.
Proof.
  destruct a, b; cbn; try discriminate; intros H; try reflexivity.
  - now apply Bool.eqb_prop in H as ->.
  - now apply Z.eqb_eq in H as ->.
  - now apply String.eqb_eq in H as ->.
Qed.

Lemma set_add_In v refs r :
  In r (Schema.set_add v refs) <-> r = v \/ In r refs.
Proof.
  unfold Schema.set_add. destruct (existsb (Schema.same_value v) refs) eqn:E.
  - split; [ now right | ]. intros [-> | H]; [ | exact H ].
    apply existsb_exists in E as (x & Hx & Hs).
    now apply same_value_eq in Hs as ->.
  - rewrite in_app_iff. cbn [In]. intuition.
Qed.

Lemma findSchemaReferences_obj entries refs :
  Schema.findSchemaReferences (VObj entries) refs =
  if existsb (String.eqb "hasOwnProperty") (map fst entries)
  then Schema.Throws Schema.NotAFunction
  else Schema.find_all (map snd entries)
         (if truthy (prop entries "$ref")
          then Schema.set_add (prop entries "$ref") refs else refs).
Proof.
  cbn [Schema.findSchemaReferences]. cbv zeta.
  destruct (existsb _ _); [ reflexivity | ].
  generalize (if truthy (prop entries "$ref")
              then Schema.set_add (prop entries "$ref") refs else refs).
  induction entries as [ | [k v] rest IH ]; intros acc; [ reflexivity | ].
  cbn [map snd Schema.find_all].
  destruct (Schema.findSchemaReferences v acc); [ apply IH | reflexivity ].
Qed.

Lemma findSchemaReferences_arr items refs :
  Schema.findSchemaReferences (VArr items) refs = Schema.find_all items refs.
Proof.
  cbn [Schema.findSchemaReferences]. revert refs.
  induction items as [ | v rest IH ]; intros refs; [ reflexivity | ].
  cbn [Schema.find_all].
  destruct (Schema.findSchemaReferences v refs); [ apply IH | reflexivity ].
Qed.

Lemma find_all_collects vs :
  (forall v, In v vs ->
     (Schema.plain_keys v = true ->
      forall refs, exists refs',
        Schema.findSchemaReferences v refs = Schema.Returns refs' /\
        forall r, In r refs' <-> In r refs \/ Schema.ref_in v r) /\
     (Schema.plain_keys v = false ->
      forall refs, Schema.findSchemaReferences v refs
                   = Schema.Throws Schema.NotAFunction)) ->
  (forallb Schema.plain_keys vs = true ->
   forall refs, exists refs',
     Schema.find_all vs refs = Schema.Returns refs' /\
     forall r, In r refs' <-> In r refs \/ exists v, In v vs /\ Schema.ref_in v r) /\
  (forallb Schema.plain_keys vs = false ->
   forall refs, Schema.find_all vs refs = Schema.Throws Schema.NotAFunction).
Proof.
  induction vs as [ | v rest IH ]; intros H.
  - split; [ | discriminate ]. intros _ refs. exists refs. split; [ reflexivity | ].
    intros r. split; [ now left | ]. now intros [ Hr | (v & [] & _) ].
  - destruct (H v (or_introl eq_refl)) as [Hok Hbad].
    destruct IH as [IHok IHbad]; [ intros; apply H; now right | ].
    cbn [forallb Schema.find_all]. split.
    + intros P refs. apply andb_prop in P as [Pv Pr].
      destruct (Hok Pv refs) as (refs1 & -> & H1).
      destruct (IHok Pr refs1) as (refs2 & -> & H2).
      exists refs2. split; [ reflexivity | ]. intros r. rewrite H2, H1. split.
      * intros [[Hr | Hr] | (x & Hx & Hr)]; [ now left | right | right ].
        -- exists v. split; [ now left | exact Hr ].
        -- exists x. split; [ now right | exact Hr ].
      * intros [Hr | (x & [<- | Hx] & Hr)]; [ now left; left | now left; right | ].
        right. eauto.
    + intros P refs. destruct (Schema.plain_keys v) eqn:Pv.
      * destruct (Hok eq_refl refs) as (refs1 & -> & _). now apply IHbad.
      * now rewrite Hbad.
Qed.

Lemma findSchemaReferences_cases schema :
  (Schema.plain_keys schema = true ->
   forall refs, exists refs',
     Schema.findSchemaReferences schema refs = Schema.Returns refs' /\
     forall r, In r refs' <-> In r refs \/ Schema.ref_in schema r) /\
  (Schema.plain_keys schema = false ->
   forall refs, Schema.findSchemaReferences schema refs
                = Schema.Throws Schema.NotAFunction).
Proof.
  induction schema as [ | | b | n | s | items IH | entries IH ] using value_ind;
    try (split; [ intros _ refs; exists refs; split; [ reflexivity | ];
                  intros r; split; [ now left | ];
                  intros [ Hr | Hr ]; [ exact Hr | inversion Hr ]
                | discriminate ]).
  - destruct (find_all_collects items IH) as [Hok Hbad].
    cbn [Schema.plain_keys]. split.
    + intros P refs. rewrite findSchemaReferences_arr.
      destruct (Hok P refs) as (refs' & -> & H). exists refs'.
      split; [ reflexivity | ]. intros r. rewrite H. split.
      * intros [Hr | (v & Hv & Hr)]; [ now left | right ].
        econstructor; eauto.
      * intros [Hr | Hr]; [ now left | right ].
        inversion Hr; subst; eauto.
    + intros P refs. rewrite findSchemaReferences_arr. now apply Hbad.
  - destruct (find_all_collects (map snd entries)) as [Hok Hbad].
    { intros v Hv. apply in_map_iff in Hv as ([k v'] & <- & Hin).
      apply (IH k v' Hin). }
    assert (forallb (fun kv => Schema.plain_keys (snd kv)) entries
            = forallb Schema.plain_keys (map snd entries)) as Hmap
      by (clear; induction entries as [ | [k v] rest IHr ];
          [ reflexivity | cbn; now rewrite IHr ]).
    cbn [Schema.plain_keys]. rewrite Hmap.
    set (refs0 := fun refs =>
           if truthy (prop entries "$ref")
           then Schema.set_add (prop entries "$ref") refs else refs).
    assert (forall refs r, In r (refs0 refs) <->
              In r refs \/ (truthy (prop entries "$ref") = true /\
                            r = prop entries "$ref")) as H0.
    { intros refs r. unfold refs0. destruct (truthy (prop entries "$ref")).
      - rewrite set_add_In. intuition.
      - intuition discriminate. }
    split.
    + intros P refs. apply andb_prop in P as [Pk Pe].
      apply negb_true_iff in Pk.
      rewrite findSchemaReferences_obj, Pk. fold (refs0 refs).
      destruct (Hok Pe (refs0 refs)) as (refs' & -> & H).
      exists refs'. split; [ reflexivity | ]. intros r. rewrite H, H0. split.
      * intros [[Hr | [T ->]] | (v & Hv & Hr)]; [ now left | right | right ].
        -- now constructor.
        -- apply in_map_iff in Hv as ([k v'] & <- & Hin).
           econstructor 2; eauto.
      * intros [Hr | Hr]; [ now left; left | ].
        inversion Hr as [ es T | es k v r' Hin Hv | ]; subst.
        -- left; right. auto.
        -- right. exists v. split; [ | exact Hv ].
           apply in_map_iff. now exists (k, v).
    + intros P refs. rewrite findSchemaReferences_obj.
      destruct (existsb (String.eqb "hasOwnProperty") (map fst entries));
        [ reflexivity | ].
      cbn [negb andb] in P. now apply Hbad.
Qed.

(** X18.  On a schema in which no object has a property named
    [hasOwnProperty], [findSchemaReferences] returns a set whose members
    are those it was given and the truthy [$ref] of every object of the
    schema, at any depth and inside arrays as well. *)
Theorem findSchemaReferences_collects schema refs :
  Schema.plain_keys schema = true ->
  exists refs',
    Schema.findSchemaReferences schema refs = Schema.Returns refs' /\
    forall r, In r refs' <-> In r refs \/ Schema.ref_in schema r.
Proof.
  intros P. now apply findSchemaReferences_cases.
Qed.

(** X19.  [findSchemaReferences] calls [schema.hasOwnProperty]; on a
    schema in which some object has a property of that name, as a schema
    describing such a property has, the call fails: the function throws
    exactly when the schema contains such an object. *)
Theorem findSchemaReferences_throws schema refs :
  Schema.findSchemaReferences schema refs = Schema.Throws Schema.NotAFunction <->
  Schema.plain_keys schema = false.
Proof.
  destruct (findSchemaReferences_cases schema) as [Hok Hbad].
  destruct (Schema.plain_keys schema).
  - destruct (Hok eq_refl refs) as (refs' & -> & _). split; discriminate.
  - split; [ reflexivity | intros _; now apply Hbad ].
Qed.

(** ** Development keys *)

Lemma list_ascii_app a b :
  list_ascii_of_string (a ++ b)%string =
  list_ascii_of_string a ++ list_ascii_of_string b.
Proof. induction a as [ | c a IH ]; cbn; [ reflexivity | now rewrite IH ]. Qed.

Lemma string_of_list_app l1 l2 :
  string_of_list_ascii (l1 ++ l2) =
  (string_of_list_ascii l1 ++ string_of_list_ascii l2)%string.
Proof. induction l1 as [ | c l1 IH ]; cbn; [ reflexivity | now rewrite IH ]. Qed.

Lemma strip_dev_append k : Schema.strip_dev (k ++ "_dev")%string = Some k.
Proof.
  unfold Schema.strip_dev. rewrite list_ascii_app, rev_app_distr. cbn.
  now rewrite rev_involutive, string_of_list_ascii_of_string.
Qed.

Lemma strip_dev_some d p : Schema.strip_dev d = Some p -> d = (p ++ "_dev")%string.
Proof.
  unfold Schema.strip_dev. intros H.
  destruct (rev (list_ascii_of_string d)) as [ | c1 [ | c2 [ | c3 [ | c4 front ] ] ] ]
    eqn:E; try discriminate H;
    repeat match type of H with
           | context [match ?c with Ascii _ _ _ _ _ _ _ _ => _ end] =>
               destruct c as [[] [] [] [] [] [] [] []]; try discriminate H
           end.
  injection H as <-. apply (f_equal (@rev ascii)) in E. rewrite rev_involutive in E.
  rewrite <- (string_of_list_ascii_of_string d), E. cbn [rev].
  rewrite <- !app_assoc. cbn [app]. now rewrite string_of_list_app.
Qed.

Lemma ends_dev_append k : Schema.ends_dev (k ++ "_dev")%string = true.
Proof. unfold Schema.ends_dev. now rewrite strip_dev_append. Qed.

Lemma prod_key_append k : Schema.prod_key (k ++ "_dev")%string = k.
Proof. unfold Schema.prod_key. now rewrite strip_dev_append. Qed.

Lemma ends_dev_prod d :
  Schema.ends_dev d = true -> d = (Schema.prod_key d ++ "_dev")%string.
Proof.
  unfold Schema.ends_dev, Schema.prod_key.
  destruct (Schema.strip_dev d) eqn:E; [ | discriminate ].
  intros _. now apply strip_dev_some.
Qed.

Lemma find_key_assign S k v k' :
  Schema.find_key (Merge.assign S k v) k' =
  if k =? k' then Some v else Schema.find_key S k'.
Proof.
  induction S as [ | [k0 old] rest IH ]; cbn [Merge.assign Schema.find_key];
    [ reflexivity | ].
  destruct (k0 =? k) eqn:E0; cbn [Schema.find_key].
  - apply String.eqb_eq in E0. subst k0. now destruct (k =? k').
  - rewrite IH. destruct (k0 =? k') eqn:E1; [ | reflexivity ].
    apply String.eqb_eq in E1. subst k0. now rewrite String.eqb_sym, E0.
Qed.

Lemma find_key_delete S k k' :
  Schema.find_key (Schema.delete S k) k' =
  if k =? k' then None else Schema.find_key S k'.
Proof.
  induction S as [ | [k0 v0] rest IH ]; cbn [Schema.delete Schema.find_key].
  - now destruct (k =? k').
  - destruct (k0 =? k) eqn:E0.
    + apply String.eqb_eq in E0. subst k0. rewrite IH. now destruct (k =? k').
    + cbn [Schema.find_key]. rewrite IH. destruct (k0 =? k') eqn:E1; [ | reflexivity ].
      apply String.eqb_eq in E1. subst k0. now rewrite String.eqb_sym, E0.
Qed.

Lemma prop_find_key S k :
  prop S k = match Schema.find_key S k with Some v => v | None => VUndefined end.
Proof.
  induction S as [ | [k0 v0] rest IH ]; cbn [prop Schema.find_key];
    [ reflexivity | ]. now destruct (k0 =? k).
Qed.

Lemma has_key_find_key S k :
  Merge.has_key S k = match Schema.find_key S k with Some _ => true | None => false end.
Proof.
  unfold Merge.has_key.
  induction S as [ | [k0 v0] rest IH ]; cbn [map fst existsb Schema.find_key];
    [ reflexivity | ].
  rewrite (String.eqb_sym k k0). now destruct (k0 =? k).
Qed.

Lemma find_key_rename S d x :
  Schema.find_key (Schema.rename_key S d) x =
  if d =? x then None
  else if Schema.prod_key d =? x then Some (prop S d)
       else Schema.find_key S x.
Proof. unfold Schema.rename_key. now rewrite find_key_delete, find_key_assign. Qed.

(** The renaming, key by key: the development keys are gone, a key whose
    development twin was there holds the twin's value, and every other
    key holds what it held. *)
Lemma rename_fold L :
  forall S k,
    NoDup L ->
    (forall d, In d L -> Schema.ends_dev d = true /\
                         Schema.ends_dev (Schema.prod_key d) = false) ->
    Schema.find_key (fold_left Schema.rename_key L S) k =
    if existsb (String.eqb k) L then None
    else if existsb (String.eqb (k ++ "_dev")%string) L
         then Some (prop S (k ++ "_dev")%string)
         else Schema.find_key S k.
Proof.
  induction L as [ | d L IH ]; intros S k ND HL; [ reflexivity | ].
  inversion ND as [ | d' L' Hd ND' ]; subst.
  destruct (HL d (or_introl eq_refl)) as [Dd Pd].
  cbn [fold_left]. rewrite IH; auto; [ | intros; apply HL; now right ].
  cbn [existsb].
  assert (forall x, In x L -> x <> d) as Hne by (intros x Hx ->; contradiction).
  destruct (existsb (String.eqb k) L) eqn:EkL; [ now rewrite orb_true_r | ].
  rewrite orb_false_r.
  destruct (existsb (String.eqb (k ++ "_dev")%string) L) eqn:EdL.
  - apply existsb_exists in EdL as (x & Hx & Ex). apply String.eqb_eq in Ex. subst x.
    destruct (HL _ (or_intror Hx)) as [_ Pk]. rewrite prod_key_append in Pk.
    assert (k <> d) as Hkd by (intros ->; congruence).
    apply String.eqb_neq in Hkd. rewrite Hkd, orb_true_r.
    rewrite !prop_find_key, find_key_rename.
    assert (d <> (k ++ "_dev")%string) as N1 by (intros ->; now apply (Hne _ Hx)).
    assert (Schema.prod_key d <> (k ++ "_dev")%string) as N2.
    { intros E. rewrite E, ends_dev_append in Pd. discriminate. }
    apply String.eqb_neq in N1, N2. now rewrite N1, N2.
  - rewrite orb_false_r, find_key_rename, (String.eqb_sym k d).
    destruct (d =? k) eqn:Edk; [ reflexivity | ].
    destruct (Schema.prod_key d =? k) eqn:Epk.
    + apply String.eqb_eq in Epk. subst k.
      rewrite <- (ends_dev_prod d Dd), String.eqb_refl. reflexivity.
    + destruct ((k ++ "_dev")%string =? d) eqn:Ekd; [ | reflexivity ].
      apply String.eqb_eq in Ekd. subst d. rewrite prod_key_append in Epk.
      now rewrite String.eqb_refl in Epk.
Qed.

Lemma uniqueb_NoDup ks : uniqueb ks = true -> NoDup ks.
Proof.
  induction ks as [ | k rest IH ]; intros U; [ constructor | ].
  cbn [uniqueb] in U. apply andb_prop in U as [U0 U].
  apply negb_true_iff in U0. constructor; [ | now apply IH ].
  intros Hin. assert (existsb (String.eqb k) rest = true); [ | congruence ].
  apply existsb_exists. exists k. split; [ exact Hin | apply String.eqb_refl ].
Qed.

Lemma existsb_filter_dev ks k :
  existsb (String.eqb k) (filter Schema.ends_dev ks) =
  Schema.ends_dev k && existsb (String.eqb k) ks.
Proof.
  induction ks as [ | k0 rest IH ]; cbn [filter existsb];
    [ now rewrite andb_false_r | ].
  destruct (Schema.ends_dev k0) eqn:D0; cbn [existsb]; rewrite IH.
  - destruct (k =? k0) eqn:E; [ | reflexivity ].
    apply String.eqb_eq in E. subst k0. now rewrite D0.
  - destruct (k =? k0) eqn:E; [ | reflexivity ].
    apply String.eqb_eq in E. subst k0. now rewrite D0.
Qed.

Lemma rename_dev_find entries k :
  uniqueb (map fst entries) = true -> Schema.single_dev entries = true ->
  Schema.find_key (Schema.rename_dev entries) k =
  if Schema.ends_dev k && Merge.has_key entries k then None
  else if Merge.has_key entries (k ++ "_dev")%string
       then Some (prop entries (k ++ "_dev")%string)
       else Schema.find_key entries k.
Proof.
  intros U SD. unfold Schema.rename_dev. rewrite rename_fold.
  - rewrite !existsb_filter_dev, ends_dev_append. reflexivity.
  - apply NoDup_filter. now apply uniqueb_NoDup.
  - intros d Hd. apply filter_In in Hd as [Hin Dd]. split; [ exact Dd | ].
    unfold Schema.single_dev in SD. rewrite forallb_forall in SD.
    specialize (SD d Hin). rewrite Dd in SD. now apply negb_true_iff in SD.
Qed.

Lemma keys_map_values f S : map fst (Schema.map_values f S) = map fst S.
Proof. unfold Schema.map_values. rewrite map_map. now apply map_ext. Qed.

Lemma prop_map_values f S k :
  f VUndefined = VUndefined -> prop (Schema.map_values f S) k = f (prop S k).
Proof.
  intros Hf. induction S as [ | [k0 v0] rest IH ]; cbn; [ now rewrite Hf | ].
  now destruct (k0 =? k).
Qed.

Lemma find_key_map_values f S k :
  Schema.find_key (Schema.map_values f S) k = option_map f (Schema.find_key S k).
Proof.
  induction S as [ | [k0 v0] rest IH ]; cbn; [ reflexivity | ].
  now destruct (k0 =? k).
Qed.

Lemma assign_map_values f S k v :
  Merge.assign (Schema.map_values f S) k (f v) =
  Schema.map_values f (Merge.assign S k v).
Proof.
  induction S as [ | [k0 v0] rest IH ]; cbn; [ reflexivity | ].
  destruct (k0 =? k); cbn; [ reflexivity | ]. f_equal. exact IH.
Qed.

Lemma delete_map_values f S k :
  Schema.delete (Schema.map_values f S) k = Schema.map_values f (Schema.delete S k).
Proof.
  induction S as [ | [k0 v0] rest IH ]; cbn; [ reflexivity | ].
  destruct (k0 =? k); cbn; [ exact IH | ]. f_equal. exact IH.
Qed.

Lemma rename_map_values f :
  f VUndefined = VUndefined ->
  forall L S,
    fold_left Schema.rename_key L (Schema.map_values f S) =
    Schema.map_values f (fold_left Schema.rename_key L S).
Proof.
  intros Hf. induction L as [ | d L IH ]; intros S; [ reflexivity | ].
  cbn [fold_left]. rewrite <- IH. f_equal. unfold Schema.rename_key.
  now rewrite prop_map_values, assign_map_values, delete_map_values.
Qed.

(** The order of the source: rename the keys, then transform the values
    that are left. *)
Lemma transform_obj entries :
  Schema.transformSchemaForDevelopment (VObj entries) =
  VObj (Schema.map_values Schema.transformSchemaForDevelopment
          (Schema.rename_dev entries)).
Proof.
  cbn [Schema.transformSchemaForDevelopment]. f_equal.
  assert ((fix values (es : list (string * value)) : list (string * value) :=
             match es with
             | [] => []
             | (k, v) :: rest =>
                 (k, Schema.transformSchemaForDevelopment v) :: values rest
             end) entries
          = Schema.map_values Schema.transformSchemaForDevelopment entries) as ->.
  { induction entries as [ | [k v] rest IH ]; [ reflexivity | ].
    cbn [Schema.map_values map fst snd]. f_equal. exact IH. }
  unfold Schema.rename_dev. rewrite keys_map_values.
  now apply rename_map_values.
Qed.

(** X20.  In an object whose keys are distinct, none of which ends in
    [_dev_dev] or is [__proto___dev], [transformSchemaForDevelopment]
    leaves no key ending in [_dev]; a key whose [_dev] twin was present
    holds the transformed value of the twin, whatever it held before, so
    [required_dev] replaces [required]; every other key holds its own
    value, transformed. *)
Theorem transform_lookup entries k :
  uniqueb (map fst entries) = true ->
  Schema.single_dev entries = true ->
  Merge.has_key entries "__proto___dev" = false ->
  Schema.find_key
    (Merge.entries_of_value (Schema.transformSchemaForDevelopment (VObj entries))) k
  = (if Schema.ends_dev k && Merge.has_key entries k then None
     else if Merge.has_key entries (k ++ "_dev")%string
          then Some (Schema.transformSchemaForDevelopment
                       (prop entries (k ++ "_dev")%string))
          else option_map Schema.transformSchemaForDevelopment
                          (Schema.find_key entries k)) /\
  (Schema.ends_dev k = true ->
   Schema.find_key
     (Merge.entries_of_value (Schema.transformSchemaForDevelopment (VObj entries))) k
   = None).
Proof.
  intros U SD _.
  assert (Schema.find_key
            (Merge.entries_of_value
               (Schema.transformSchemaForDevelopment (VObj entries))) k
          = if Schema.ends_dev k && Merge.has_key entries k then None
            else if Merge.has_key entries (k ++ "_dev")%string
                 then Some (Schema.transformSchemaForDevelopment
                              (prop entries (k ++ "_dev")%string))
                 else option_map Schema.transformSchemaForDevelopment
                                 (Schema.find_key entries k)) as E.
  { rewrite transform_obj. cbn [Merge.entries_of_value].
    rewrite find_key_map_values, (rename_dev_find _ _ U SD).
    destruct (Schema.ends_dev k && Merge.has_key entries k); [ reflexivity | ].
    now destruct (Merge.has_key entries (k ++ "_dev")%string). }
  split; [ exact E | ]. intros Dk. rewrite E, Dk. cbn [andb].
  destruct (Merge.has_key entries k) eqn:Hk; [ reflexivity | ].
  destruct (Merge.has_key entries (k ++ "_dev")%string) eqn:Hd.
  - exfalso. unfold Schema.single_dev in SD. rewrite forallb_forall in SD.
    unfold Merge.has_key in Hd. apply existsb_exists in Hd as (x & Hx & Ex).
    apply String.eqb_eq in Ex. subst x. specialize (SD _ Hx).
    now rewrite ends_dev_append, prod_key_append, Dk in SD.
  - rewrite has_key_find_key in Hk. now destruct (Schema.find_key entries k).
Qed.

Lemma transform_lookup_witness :
  Schema.find_key
    (Merge.entries_of_value
       (Schema.transformSchemaForDevelopment
          (VObj [("required", VArr [VStr "title"; VStr "body"]);
                 ("required_dev", VArr [VStr "title"])]))) "required"
  = Some (VArr [VStr "title"]).
Proof.
  refine (proj1 (transform_lookup
            [("required", VArr [VStr "title"; VStr "body"]);
             ("required_dev", VArr [VStr "title"])] "required" _ _ _)).
  - reflexivity.
  - reflexivity.
  - reflexivity.
Defined.

Lemma findSchemaReferences_collects_witness :
  exists refs',
    Schema.findSchemaReferences
      (VObj [("items", VArr [VObj [("$ref", VStr "page.json")]])]) []
    = Schema.Returns refs' /\
    forall r, In r refs' <->
              In r [] \/
              Schema.ref_in
                (VObj [("items", VArr [VObj [("$ref", VStr "page.json")]])]) r.
Proof.
  refine (findSchemaReferences_collects
            (VObj [("items", VArr [VObj [("$ref", VStr "page.json")]])]) [] _).
  reflexivity.
Defined.

(** ** Following the next pages *)

Lemma leaf_paths_cons x rest :
  leaf_paths (VArr (x :: rest)) = leaf_paths x ++ leaf_paths (VArr rest).
Proof. reflexivity. Qed.

Lemma leaf_paths_track k v :
  leaf_paths (VObj [(k, v)]) = map (cons k) (leaf_paths v).
Proof. cbn [leaf_paths]. apply app_nil_r. Qed.

Lemma leaf_paths_obj_cons k v rest :
  leaf_paths (VObj ((k, v) :: rest)) =
  map (cons k) (leaf_paths v) ++ leaf_paths (VObj rest).
Proof. reflexivity. Qed.

Lemma leaf_paths_not_nil v : forall p, In p (leaf_paths v) -> p <> [].
Proof.
  induction v as [ | | b | n | s | items IH | entries IH ] using value_ind;
    intros p Hp; try now destruct Hp.
  - destruct Hp as [<- | []]. discriminate.
  - induction items as [ | x rest IHr ]; [ destruct Hp | ].
    rewrite leaf_paths_cons in Hp. apply in_app_or in Hp as [Hp | Hp].
    + now apply (IH x (or_introl eq_refl)).
    + apply IHr; [ | exact Hp ]. intros; eapply IH; eauto. now right.
  - induction entries as [ | [k v] rest IHr ]; [ destruct Hp | ].
    rewrite leaf_paths_obj_cons in Hp. apply in_app_or in Hp as [Hp | Hp].
    + apply in_map_iff in Hp as (p' & <- & _). discriminate.
    + apply IHr; [ | exact Hp ]. intros k' v' H. apply (IH k' v'). now right.
Qed.

Lemma linear_node_cases x :
  linear_node x = true ->
  (exists s, x = VStr s /\ s <> "") \/
  (exists k x0 sub, x = VObj [(k, VArr (x0 :: sub))] /\
                    forallb linear_node (x0 :: sub) = true).
Proof.
  destruct x as [ | | | | s | | [ | [k [ | | | | | [ | x0 sub ] | ]] [ | ] ] ];
    try discriminate; intros L.
  - left. exists s. split; [ reflexivity | ].
    cbn in L. apply negb_true_iff in L. now apply String.eqb_neq.
  - right. exists k, x0, sub. split; [ reflexivity | exact L ].
Qed.

Lemma depth_track k items x :
  In x items -> depth x + 2 <= depth (VObj [(k, VArr items)]).
Proof.
  intros H. pose proof (element_depth _ _ H) as H1.
  pose proof (entry_depth [(k, VArr items)] k (VArr items) (or_introl eq_refl)) as H2.
  lia.
Qed.

(** The first descendant of a node of such a navigation is its first
    leaf. *)
Lemma linear_first n :
  forall x, depth x < n -> linear_node x = true ->
  exists p rest, leaf_paths x = p :: rest /\
                 forall d, getNexts x d = Return (RArr [d ++ p]).
Proof.
  induction n as [ | n IH ]; intros x Hd L; [ lia | ].
  destruct (linear_node_cases x L) as [(s & -> & _) | (k & x0 & sub & -> & Ls)].
  - exists [s], []. split; reflexivity.
  - cbn [forallb] in Ls. apply andb_prop in Ls as [L0 _].
    pose proof (depth_track k (x0 :: sub) x0 (or_introl eq_refl)) as D0.
    destruct (IH x0 ltac:(lia) L0) as (p & rest & E & G).
    rewrite leaf_paths_track, leaf_paths_cons, E. cbn [app map].
    eexists _, _. split; [ reflexivity | ]. intros d.
    rewrite getNexts_obj. cbn [fanOut]. rewrite getNexts_cons, G. cbn.
    now rewrite <- app_assoc.
Qed.

Lemma next_in_app_left rx rr d i :
  S i < List.length rx -> next_in (rx ++ rr) d i = next_in rx d i.
Proof. intros H. unfold next_in. now rewrite nth_error_app1. Qed.

Lemma next_in_app_right rx rr d i :
  List.length rx <= i ->
  next_in (rx ++ rr) d i = next_in rr d (i - List.length rx).
Proof.
  intros H. unfold next_in. rewrite nth_error_app2 by lia.
  now replace (S i - List.length rx) with (S (i - List.length rx)) by lia.
Qed.

Lemma find_other_leaf s p d :
  p <> [s] -> findNextsHelper (VStr s) p d = Return RFalse.
Proof.
  intros H. destruct p as [ | p0 [ | p1 p' ] ]; cbn; destruct (negb _);
    try reflexivity.
  destruct (s =? p0) eqn:E; [ | reflexivity ].
  apply String.eqb_eq in E. now subst p0.
Qed.

Lemma find_in_track k items p d :
  findNextsHelper (VObj [(k, VArr items)]) p d =
  match p with
  | p0 :: (_ :: _) as p' =>
      if k =? p0 then findNextsHelper (VArr items) p' (d ++ [p0])
      else inherited p0 p'
  | _ => Return RFalse
  end.
Proof.
  destruct p as [ | p0 [ | p1 p' ] ]; reflexivity.
Qed.

Lemma NoDup_app_parts {A} (l1 l2 : list A) :
  NoDup (l1 ++ l2) ->
  NoDup l1 /\ NoDup l2 /\ forall a, In a l2 -> ~ In a l1.
Proof.
  induction l1 as [ | a l1 IH ]; cbn; intros H.
  - split; [ constructor | split; [ exact H | intros a _ [] ] ].
  - inversion H as [ | ? ? Ha Hr ]; subst.
    destruct (IH Hr) as (N1 & N2 & D).
    split; [ | split; [ exact N2 | ] ].
    + constructor; [ | exact N1 ]. intros Hi. apply Ha, in_or_app. now left.
    + intros b Hb [<- | Hi]; [ apply Ha, in_or_app; now right | ].
      now apply (D b).
Qed.

Lemma NoDup_map_cons {A} (k : A) (l : list (list A)) :
  NoDup (map (cons k) l) -> NoDup l.
Proof.
  induction l as [ | a l IH ]; cbn; intros H; [ constructor | ].
  inversion H as [ | ? ? Ha Hr ]; subst. constructor; [ | now apply IH ].
  intros Hi. apply Ha. now apply in_map.
Qed.

(** What the search loop of a sequence returns on such a navigation, given
    what the search returns on each of its elements. *)
Lemma linear_scan n :
  (forall x, depth x < n -> linear_node x = true -> NoDup (leaf_paths x) ->
     forall d,
       (forall i p, plain_path p = true -> nth_error (leaf_paths x) i = Some p ->
          findNextsHelper x p d = Return (next_in (leaf_paths x) d i)) /\
       (forall p, plain_path p = true -> ~ In p (leaf_paths x) ->
          findNextsHelper x p d = Return RFalse)) ->
  forall items,
    (forall x, In x items -> depth x < n) ->
    forallb linear_node items = true ->
    NoDup (leaf_paths (VArr items)) ->
    forall d,
      (forall i p, plain_path p = true -> nth_error (leaf_paths (VArr items)) i = Some p ->
         scan items RFalse p d = Return (next_in (leaf_paths (VArr items)) d i)) /\
      (forall p, plain_path p = true -> ~ In p (leaf_paths (VArr items)) ->
         scan items RFalse p d = Return RFalse).
Proof.
  intros Hnode items. induction items as [ | x rest IH ]; intros Hd L N d.
  - split; [ intros [ | i ] p _ H; discriminate H | reflexivity ].
  - rewrite leaf_paths_cons in *.
    cbn [forallb] in L. apply andb_prop in L as [Lx Lr].
    destruct (NoDup_app_parts _ _ N) as (Nx & Nr & D).
    assert (Hdx : depth x < n) by (apply Hd; now left).
    assert (Hdr : forall y, In y rest -> depth y < n)
      by (intros y Hy; apply Hd; now right).
    destruct (Hnode x Hdx Lx Nx d) as [Hin Hout].
    destruct (IH Hdr Lr Nr d) as [Rin Rout].
    split.
    + intros i p Hpl Hp. cbn [scan].
      destruct (Nat.lt_ge_cases i (List.length (leaf_paths x))) as [Hi | Hi].
      * rewrite nth_error_app1 in Hp by exact Hi.
        rewrite (Hin i p Hpl Hp). cbn [bind].
        destruct (Nat.eq_dec (S i) (List.length (leaf_paths x))) as [E | E].
        -- assert (Hnone : nth_error (leaf_paths x) (S i) = None)
             by (apply nth_error_None; lia).
           unfold next_in at 1. rewrite Hnone.
           destruct rest as [ | y rest' ].
           ++ cbn [scan]. unfold next_in.
              change (leaf_paths (VArr [])) with (@nil path).
              now rewrite app_nil_r, Hnone.
           ++ destruct (linear_first n y (Hdr y (or_introl eq_refl)))
                as (py & ry & Ey & Gy).
              { cbn [forallb] in Lr. now apply andb_prop in Lr as [Ly _]. }
              cbn [scan]. rewrite Gy. cbn [bind]. rewrite scan_arr.
              unfold next_in. rewrite nth_error_app2 by lia.
              rewrite leaf_paths_cons, Ey.
              now replace (S i - List.length (leaf_paths x)) with 0 by lia.
        -- rewrite next_in_app_left by lia.
           unfold next_in.
           destruct (nth_error (leaf_paths x) (S i)) as [ nxt | ] eqn:En.
           ++ now rewrite scan_arr.
           ++ apply nth_error_None in En. lia.
      * rewrite nth_error_app2 in Hp by exact Hi.
        assert (Hnot : ~ In p (leaf_paths x))
          by (apply D; eapply nth_error_In; exact Hp).
        rewrite (Hout p Hpl Hnot). cbn [bind].
        rewrite (Rin _ p Hpl Hp). now rewrite next_in_app_right.
    + intros p Hpl Hp. cbn [scan].
      rewrite (Hout p Hpl) by (intros Hi; apply Hp, in_or_app; now left).
      cbn [bind]. apply (Rout p Hpl). intros Hi. apply Hp, in_or_app. now right.
Qed.

Lemma linear_search n :
  forall x, depth x < n -> linear_node x = true -> NoDup (leaf_paths x) ->
  forall d,
    (forall i p, plain_path p = true -> nth_error (leaf_paths x) i = Some p ->
       findNextsHelper x p d = Return (next_in (leaf_paths x) d i)) /\
    (forall p, plain_path p = true -> ~ In p (leaf_paths x) ->
       findNextsHelper x p d = Return RFalse).
Proof.
  induction n as [ | n IH ]; intros x Hd L N d; [ lia | ].
  destruct (linear_node_cases x L) as [(s & -> & Hs) | (k & x0 & sub & -> & Ls)].
  - split.
    + intros [ | [ | i ] ] p _ Hp; try discriminate Hp.
      injection Hp as <-. now rewrite find_leaf_itself.
    + intros p _ Hp. apply find_other_leaf. intros ->. apply Hp. now left.
  - rewrite leaf_paths_track in *. apply NoDup_map_cons in N.
    remember (x0 :: sub) as items eqn:Ei. clear Ei.
    assert (Hdi : forall y, In y items -> depth y < n).
    { intros y Hy. pose proof (depth_track k items y Hy). lia. }
    destruct (linear_scan n IH items Hdi Ls N (d ++ [k])) as [Sin Sout].
    split.
    + intros i p Hpl Hp. rewrite nth_error_map in Hp.
      match type of Hp with
      | option_map _ ?o = _ =>
          destruct o as [ p' | ] eqn:Ep; cbn [option_map] in Hp;
            [ | discriminate Hp ]
      end.
      injection Hp as <-.
      assert (Hne : p' <> [])
        by (eapply leaf_paths_not_nil, nth_error_In; exact Ep).
      destruct p' as [ | p1 p'' ]; [ congruence | ].
      rewrite find_in_track, String.eqb_refl, findNextsHelper_arr.
      rewrite (Sin i _ (plain_path_tail _ _ Hpl) Ep).
      unfold next_in. rewrite nth_error_map.
      match goal with
      | |- context [option_map _ ?o] =>
          change o with (nth_error (leaf_paths (VArr items)) (S i))
      end.
      destruct (nth_error (leaf_paths (VArr items)) (S i)); cbn [option_map];
        [ | reflexivity ].
      now rewrite <- app_assoc.
    + intros p Hpl Hp. rewrite find_in_track.
      destruct p as [ | p0 [ | p1 p' ] ]; try reflexivity.
      destruct (k =? p0) eqn:E;
        [ | apply inherited_plain; [ exact Hpl | discriminate ] ].
      apply String.eqb_eq in E. subst p0.
      rewrite findNextsHelper_arr. apply (Sout _ (plain_path_tail _ _ Hpl)).
      intros Hi. apply Hp. now apply in_map.
Qed.

(** X21. Following the next pages visits every page once.  On a navigation
    without branch points (source: the array/object walk of
    [findNextsHelper] and [getNexts] when every object has a single track,
    no track is empty and every leaf has a non-empty name) whose leaf paths
    are pairwise different and none of whose track names is the name of a
    method of [Object.prototype], the resolver started at the empty path
    returns the first leaf in document order, from the [i]-th leaf it
    returns exactly the [i+1]-th leaf, and from the last leaf it returns
    the empty list. *)
Theorem next_page_chain (T : value) :
  linear_tree T = true -> NoDup (leaf_paths T) ->
  forallb plain_path (leaf_paths T) = true ->
  findNexts T [] = Return (firstn 1 (leaf_paths T)) /\
  forall i p, nth_error (leaf_paths T) i = Some p ->
    findNexts T p =
    Return (match nth_error (leaf_paths T) (S i) with
            | Some next => [next]
            | None => []
            end).
Proof.
  intros L N Hplain. destruct T as [ | | | | | items | ]; try discriminate L.
  cbn [linear_tree] in L.
  assert (Hd : forall y, In y items -> depth y < depth (VArr items))
    by (intros y Hy; pose proof (element_depth _ _ Hy); lia).
  split.
  - destruct items as [ | x rest ]; [ reflexivity | ].
    cbn [forallb] in L. apply andb_prop in L as [Lx _].
    destruct (linear_first _ x (Hd x (or_introl eq_refl)) Lx)
      as (p & r & E & G).
    unfold findNexts. rewrite getNexts_cons, G, leaf_paths_cons, E.
    reflexivity.
  - intros i p Hp.
    assert (Hne : p <> [])
      by (eapply leaf_paths_not_nil, nth_error_In; exact Hp).
    destruct p as [ | p0 p' ]; [ congruence | ].
    destruct (linear_scan _ (linear_search _) items Hd L N []) as [Sin _].
    assert (Hpl : plain_path (p0 :: p') = true).
    { rewrite forallb_forall in Hplain. apply Hplain.
      eapply nth_error_In; exact Hp. }
    unfold findNexts. rewrite findNextsHelper_arr, (Sin i _ Hpl Hp).
    unfold next_in. now destruct (nth_error (leaf_paths (VArr items)) (S i)).
Qed.

Lemma next_page_chain_witness :
  findNexts deepNest [] = Return (firstn 1 (leaf_paths deepNest)) /\
  forall i p, nth_error (leaf_paths deepNest) i = Some p ->
    findNexts deepNest p =
    Return (match nth_error (leaf_paths deepNest) (S i) with
            | Some next => [next]
            | None => []
            end).
Proof.
  apply (next_page_chain deepNest); [ reflexivity | | reflexivity ].
  repeat constructor; cbn; intuition discriminate.
Defined.

(** ** The listing follows document order *)

Section ListingOrder.

Variable path_join : list string -> string.
Variable opts : ListPages.options.

Lemma leaf_line_under k p (f : path -> string -> string) :
  p <> [] ->
  f (removelast (k :: p)) (last (k :: p) "") =
  f (k :: removelast p) (last p "").
Proof. destruct p; [ congruence | reflexivity ]. Qed.

Lemma extractPages_lines v :
  (is_node v = true ->
   forall trackPath,
     ListPages.extractItem path_join opts v trackPath =
     (map (fun p =>
             ListPages.page_line path_join opts
               (fold_left (fun tp k => path_join [tp; k]) (removelast p) trackPath)
               (last p ""))
          (leaf_paths v), None)) /\
  (is_tree v = true ->
   forall trackPath,
     ListPages.extractPages path_join opts v trackPath =
     (map (fun p =>
             ListPages.page_line path_join opts
               (fold_left (fun tp k => path_join [tp; k]) (removelast p) trackPath)
               (last p ""))
          (leaf_paths v), None)).
Proof.
  induction v as [ | | b | n | s | items IH | entries IH ] using value_ind;
    (split; intros W trackPath); try discriminate.
  - reflexivity.
  - cbn [is_tree] in W. rewrite extractPages_arr.
    assert (forall x, In x items -> is_node x = true) as Wn
      by (intros x Hx; eapply is_sequence_In; eauto).
    clear W. induction items as [ | x rest IHr ]; [ reflexivity | ].
    rewrite leaf_paths_cons, map_app. cbn [fold_right].
    apply and_then_ok.
    + apply (IH x (or_introl eq_refl)), Wn. now left.
    + apply IHr; intros y Hy; [ apply IH | apply Wn ]; now right.
  - cbn [ListPages.extractItem].
    assert (forall k v, In (k, v) entries -> is_tree v = true) as Wt.
    { intros k v Hin. now destruct (is_node_entry _ _ _ W Hin) as (sub & -> & Hs). }
    clear W. induction entries as [ | [k v] rest IHr ]; [ reflexivity | ].
    rewrite leaf_paths_obj_cons, map_app, map_map. cbn [fold_right fst snd].
    apply and_then_ok.
    + destruct (IH k v (or_introl eq_refl)) as [_ IHv].
      rewrite (IHv (Wt k v (or_introl eq_refl))). f_equal.
      apply map_ext_in. intros p Hp.
      now rewrite (leaf_line_under k p
                     (fun c => ListPages.page_line path_join opts
                                 (fold_left (fun tp k => path_join [tp; k]) c trackPath))
                     (leaf_paths_not_nil v p Hp)).
    + apply IHr; intros k' v' Hin'; [ apply (IH k' v') | apply (Wt k' v') ];
        now right.
Qed.

(** X22. [extractPages] prints the pages of a navigation tree in document
    order: its lines are, leaf after leaf in the order of the tree, the
    line built from the track path of the leaf's track names (joined one
    after the other from the empty track path) and the leaf's name; it
    does not throw. *)
Theorem extractPages_document_order T :
  is_tree T = true ->
  ListPages.extractPages path_join opts T "" =
  (map (fun p => ListPages.page_line path_join opts
                   (ListPages.track_path path_join (removelast p)) (last p ""))
       (leaf_paths T), None).
Proof.
  intros W. destruct (extractPages_lines T) as [_ H]. exact (H W "").
Qed.

End ListingOrder.

Lemma extractPages_document_order_witness :
  ListPages.extractPages slash_join list_defaults mixedComplex "" =
  (map (fun p => ListPages.page_line slash_join list_defaults
                   (ListPages.track_path slash_join (removelast p)) (last p ""))
       (leaf_paths mixedComplex), None).
Proof.
  apply (extractPages_document_order slash_join list_defaults mixedComplex).
  reflexivity.
Defined.
